(** * Spiceflow request dispatch: a shallow embedding of [src/src/spiceflow.ts]

    The development follows the source file top to bottom: JavaScript values
    and [Response] objects, the per-request state store, the application tree
    with its breadth-first traversals ([bfs], [bfsFind], [getAppAndParents],
    [getAppsInScope]), the matcher ([match]), and the dispatcher ([handle]
    with its [next] continuation, [getResForError], [runErrorHandlers],
    [runValidation], [turnHandlerResultIntoResponse] and [handleStream]).

    External collaborators are kept at their interface:
    - [superjsonSerialize] ([./serialize.ts]) is a type-class method;
    - the path matcher ([@medley/router]) is represented by its [find]
      function;
    - [isResponse] and [isAsyncIterable] ([./utils.ts]) are the constructor
      tests [VResponse] and [VGenerator];
    - the Fetch [Response] constructor is a record constructor that stores the
      [status] it is given. *)

From Stdlib Require Import String Ascii ZArith List Bool Lia.
From stdpp Require Import base list strings gmap pretty.

Set Warnings "-register-all".

Local Open Scope string_scope.
Local Open Scope list_scope.
Local Open Scope stdpp_scope.

(** ** JavaScript values *)

Inductive body : Type :=
| BodyNull
| BodyText (s : string)
| BodyParams (ps : list (string * string))
| BodyStream (chunks : list string).

Record ResponseOf (V : Type) : Type := mkResponse {
  status : V;
  statusText : string;
  headers : list (string * string);
  resp_body : body
}.
Arguments mkResponse {V} _ _ _ _.
Arguments status {V} _.
Arguments statusText {V} _.
Arguments headers {V} _.
Arguments resp_body {V} _.

Inductive GenEndOf (V : Type) : Type :=
| GenReturn (v : V)
| GenThrow (e : V).
Arguments GenReturn {V} _.
Arguments GenThrow {V} _.

(** [VObject] is a plain data object (its own enumerable properties, in
    insertion order); [VError] is an [Error] instance: the [message] is not
    enumerable, so it is kept apart from the properties that [{...err}]
    copies.  [VGenerator ys e] is an (async) generator that yields [ys] and
    then returns or throws. *)
Inductive jsval : Type :=
| VUndefined
| VNull
| VBool (b : bool)
| VNum (n : Z)
| VStr (s : string)
| VArray (l : list jsval)
| VObject (props : list (string * jsval))
| VError (message : string) (props : list (string * jsval))
| VSearchParams (ps : list (string * string))
| VResponse (r : ResponseOf jsval)
| VGenerator (yields : list jsval) (finish : GenEndOf jsval).

Abbreviation Response := (ResponseOf jsval).

(** [new Response(body, { status, headers })]; the status defaults to 200. *)
Definition new_Response (b : body) (st : option jsval)
    (hs : list (string * string)) : Response :=
  mkResponse (default (VNum 200%Z) st) "" hs b.

Definition isResponse (v : jsval) : bool :=
  match v with VResponse _ => true | _ => false end.

Definition isAsyncIterable (v : jsval) : bool :=
  match v with VGenerator _ _ => true | _ => false end.

(** JavaScript truthiness ([!x], [x || y], [if (x)]). *)
Definition truthy (v : jsval) : bool :=
  match v with
  | VUndefined | VNull => false
  | VBool b => b
  | VNum n => negb (n =? 0)%Z
  | VStr s => negb (String.eqb s "")
  | _ => true
  end.

(** [x ?? y] tests for [undefined] and [null] only. *)
Definition nullish (v : jsval) : bool :=
  match v with VUndefined | VNull => true | _ => false end.

Fixpoint assoc {A : Type} (k : string) (l : list (string * A)) : option A :=
  match l with
  | [] => None
  | (k', v) :: l' => if String.eqb k k' then Some v else assoc k l'
  end.

(** [obj[k] = v] on an insertion-ordered object: an existing key keeps its
    position, a new key goes last. *)
Fixpoint assoc_set {A : Type} (k : string) (v : A) (l : list (string * A))
    : list (string * A) :=
  match l with
  | [] => [(k, v)]
  | (k', v') :: l' =>
      if String.eqb k k' then (k, v) :: l' else (k', v') :: assoc_set k v l'
  end.

(** Property read [v?.k]. *)
Definition get_prop (v : jsval) (k : string) : jsval :=
  match v with
  | VObject props => default VUndefined (assoc k props)
  | VError msg props =>
      match assoc k props with
      | Some x => x
      | None =>
          if String.eqb k "message" then VStr msg
          else if String.eqb k "name" then VStr "Error"
          else VUndefined
      end
  | VResponse r => if String.eqb k "status" then status r else VUndefined
  | _ => VUndefined
  end.

(** The own enumerable properties copied by [{...v}]; strings and arrays
    spread their indices. *)
Definition spread (v : jsval) : list (string * jsval) :=
  match v with
  | VObject props | VError _ props => props
  | VArray l => imap (fun i x => (pretty i, x)) l
  | VStr s =>
      imap (fun i ch => (pretty i, VStr (String ch "")))
           (list_ascii_of_string s)
  | _ => []
  end.

(** The extended-JSON codec of [./serialize.ts], called with one or two
    arguments. *)
Class Serializer := superjsonSerialize : jsval -> option bool -> string.

(** ** Strings *)

(** [s.replace(/\/$/, "")]. *)
Fixpoint strip_trailing_slash (s : string) : string :=
  match s with
  | EmptyString => EmptyString
  | String c EmptyString => if Ascii.eqb c "/" then EmptyString else s
  | String c s' => String c (strip_trailing_slash s')
  end.

(** [s || "/"]. *)
Definition or_slash (s : string) : string :=
  if String.eqb s "" then "/" else s.

(** [s.startsWith(p)]. *)
Fixpoint startsWith (s p : string) {struct p} : bool :=
  match p, s with
  | EmptyString, _ => true
  | String _ _, EmptyString => false
  | String a p', String b s' => Ascii.eqb a b && startsWith s' p'
  end.

Fixpoint string_drop (n : nat) (s : string) : string :=
  match n, s with
  | O, _ => s
  | S n', String _ s' => string_drop n' s'
  | S _, EmptyString => EmptyString
  end.

(** [s.replace(p, "")] with a string pattern: the first occurrence of [p]
    is removed. *)
Fixpoint replace_first (p s : string) : string :=
  if startsWith s p then string_drop (String.length p) s
  else match s with
       | EmptyString => EmptyString
       | String c s' => String c (replace_first p s')
       end.

(** [s.includes(p)]. *)
Fixpoint includes (s p : string) : bool :=
  startsWith s p ||
  match s with
  | EmptyString => false
  | String _ s' => includes s' p
  end.

(** [xs.join(sep)]. *)
Fixpoint join (sep : string) (xs : list string) : string :=
  match xs with
  | [] => ""
  | [x] => x
  | x :: xs' => x +:+ sep +:+ join sep xs'
  end.

(** ** The per-request state store

    State objects are mutable and shared by reference, so they live in a
    store: a location is an index into the list.  A property holds either
    plain data or a reference to another state object. *)

Abbreviation loc := nat.

Inductive sval : Type :=
| SVal (v : jsval)
| SRef (l : loc).

Abbreviation sobject := (list (string * sval)).
Abbreviation heap := (list (list (string * sval))).

Definition rebase_sval (n : nat) (v : sval) : sval :=
  match v with
  | SVal x => SVal x
  | SRef l => SRef (l + n)
  end.

Definition rebase (n : nat) (o : sobject) : sobject :=
  map (fun kv => (kv.1, rebase_sval n kv.2)) o.

(** [cloneDeep(x)] = [lodashCloneDeep(x)].  The library is not part of the
    repository; its contract (a structure-preserving copy made of fresh
    objects only) is modelled by copying every object of the store to a
    fresh location, references rebased: the copy of location [l] is
    [l + length h], and the copies that the result cannot reach are
    garbage. *)
Definition cloneDeep (h : heap) (l : loc) : heap * loc :=
  (h ++ map (rebase (length h)) h, l + length h).

(** What a program sees when it reads [state.k1.k2...]. *)
Inductive state_read : Type :=
| ReadValue (v : jsval)
| ReadObject
| ReadMissing.

(** Follows [path] from object [l]; [None] when an intermediate property is
    not an object (JavaScript raises a [TypeError] there). *)
Fixpoint resolve (h : heap) (l : loc) (path : list string) : option loc :=
  match path with
  | [] => Some l
  | k :: path' =>
      match h !! l with
      | Some o =>
          match assoc k o with
          | Some (SRef l') => resolve h l' path'
          | _ => None
          end
      | None => None
      end
  end.

Definition heap_read (h : heap) (l : loc) (path : list string) (k : string)
    : option state_read :=
  match resolve h l path with
  | Some l' =>
      match h !! l' with
      | Some o =>
          Some match assoc k o with
               | Some (SVal v) => ReadValue v
               | Some (SRef _) => ReadObject
               | None => ReadMissing
               end
      | None => None
      end
  | None => None
  end.

Definition heap_write (h : heap) (l : loc) (path : list string) (k : string)
    (v : jsval) : option heap :=
  match resolve h l path with
  | Some l' =>
      match h !! l' with
      | Some o => Some (<[l' := assoc_set k (SVal v) o]> h)
      | None => None
      end
  | None => None
  end.

(** ** Requests, contexts and user code *)

(** A request, through what [handle] reads of it: the method, the
    [pathname] and [search] of its URL, the pairs that
    [new URLSearchParams(search.slice(1))] iterates over, and what
    [Request.prototype.json()] gives on first use (the parsed body, or the
    value it rejects with). *)
Record Request : Type := mkRequest {
  req_method : string;
  req_pathname : string;
  req_search : string;
  req_searchParams : list (string * string);
  req_json : jsval + jsval
}.

Record Context : Type := mkContext {
  ctx_request : Request;
  ctx_state : loc;
  ctx_path : string;
  ctx_query : jsval;
  ctx_params : jsval
}.

(** The body of a middleware or of a route handler, as the sequence of the
    effects the dispatcher can observe.  [AwaitNext k] is
    [const res = await next(); k res]; [StateWrite path k v] is
    [state.path.k = v]; [RequestJson] is [await request.json()];
    [TryCatch body handler k] is [try { body } catch (e) { handler e }]
    followed by [k], which gets the value of [body]; [handler e] is all
    that runs after a catch.  A write or a read whose [path] leaves the
    state objects raises a [TypeError]. *)
Inductive prog : Type :=
| Return (v : jsval)
| Throw (e : jsval)
| AwaitNext (k : Response -> prog)
| StateWrite (path : list string) (key : string) (v : jsval) (k : prog)
| StateRead (path : list string) (key : string) (k : state_read -> prog)
| RequestJson (k : jsval -> prog)
| TryCatch (body : prog) (handler : jsval -> prog) (k : jsval -> prog).

Abbreviation MiddlewareHandler := (Context -> prog).
Abbreviation InlineHandler := (Context -> prog).

(** What calling an [OnError] handler gives at once, before any [await]. *)
Inductive onerror_result : Type :=
| EHResponse (r : Response)
| EHPromise (settles : jsval)
| EHOther (v : jsval)
| EHThrow (e : jsval).

Abbreviation OnError := (jsval -> Request -> onerror_result).

(** ** Validation (Standard Schema results) *)

Record Issue : Type := mkIssue {
  issue_message : string;
  issue_path : option (list string)
}.

Record ValidationResult : Type := mkResult {
  vr_issues : option (list Issue);
  vr_value : option jsval
}.

Definition ValidationFunction := jsval -> ValidationResult.

(** ** Routes, path matcher, applications *)

Record InternalRoute : Type := mkRoute {
  route_method : string;
  route_path : string;
  route_type : string;
  route_handler : InlineHandler;
  validateBody : option ValidationFunction;
  validateQuery : option ValidationFunction;
  validateParams : option ValidationFunction
}.

Definition Store := list (string * InternalRoute).

Record MedleyResult : Type := mkFound {
  found_store : Store;
  found_params : jsval
}.

(** The router object, seen through [find]. *)
Definition MedleyRouter := string -> option MedleyResult.

Inductive Spiceflow : Type := mkApp {
  id : nat;
  prefix : option string;
  scoped : option bool;
  middlewares : list MiddlewareHandler;
  onErrorHandlers : list OnError;
  routes : list InternalRoute;
  router : MedleyRouter;
  defaultState : loc;
  childrenApps : list Spiceflow
}.

(** ** Breadth-first traversals

    The [while (queue.length > 0)] loops run on fuel; [app_size] nodes are
    enough for a queue that starts with one tree (see [bfs_loop_fuel] and
    [bfsFind_bfs] below). *)

Fixpoint app_size (a : Spiceflow) : nat :=
  S ((fix sizes (l : list Spiceflow) : nat :=
        match l with
        | [] => 0
        | c :: l' => app_size c + sizes l'
        end) (childrenApps a)).

Definition queue_size (q : list Spiceflow) : nat :=
  list_sum (map app_size q).

(** [bfs(tree)]. *)
Fixpoint bfs_loop (fuel : nat) (queue nodes : list Spiceflow)
    : list Spiceflow :=
  match queue, fuel with
  | [], _ => nodes
  | _ :: _, O => nodes
  | node :: queue', S fuel' =>
      bfs_loop fuel' (queue' ++ childrenApps node) (nodes ++ [node])
  end.

Definition bfs (tree : Spiceflow) : list Spiceflow :=
  bfs_loop (app_size tree) [tree] [].

(** [bfsFind(tree, onNode)].  The callbacks of the source close over a
    mutable variable ([parentMap], [foundApp]); it is threaded as [s]. *)
Fixpoint bfsFind_loop {S T : Type} (onNode : S -> Spiceflow -> S * option T)
    (fuel : nat) (queue : list Spiceflow) (s : S) : S * option T :=
  match queue, fuel with
  | [], _ => (s, None)
  | _ :: _, O => (s, None)
  | node :: queue', S fuel' =>
      match onNode s node with
      | (s', Some result) => (s', Some result)
      | (s', None) =>
          bfsFind_loop onNode fuel' (queue' ++ childrenApps node) s'
      end
  end.

Definition bfsFind {S T : Type} (tree : Spiceflow)
    (onNode : S -> Spiceflow -> S * option T) (s : S) : S * option T :=
  bfsFind_loop onNode (app_size tree) [tree] s.

(** The callback of [getAppAndParents]: every child is mapped to the node
    that lists it. *)
Definition set_parents (parentMap : gmap nat Spiceflow) (node : Spiceflow)
    : gmap nat Spiceflow * option unit :=
  (foldl (fun m child => <[id child := node]> m) parentMap
     (childrenApps node), None).

(** [while (current) { parents.unshift(current);
                        current = parentMap.get(current.id) }]. *)
Fixpoint parents_loop (fuel : nat) (parentMap : gmap nat Spiceflow)
    (current : option Spiceflow) (parents : list Spiceflow)
    : list Spiceflow :=
  match current, fuel with
  | None, _ => parents
  | Some _, O => parents
  | Some c, S fuel' =>
      parents_loop fuel' parentMap (parentMap !! id c) (c :: parents)
  end.

(** [getAppAndParents(currentApp)], with [root = this.topLevelApp || this]
    made explicit: [match] assigns [topLevelApp = this] to the first node
    it visits, which is [this]. *)
Definition getAppAndParents (root : Spiceflow) (currentApp : option Spiceflow)
    : list Spiceflow :=
  if Nat.eqb (length (childrenApps root)) 0 then [root]
  else
    let parentMap := (bfsFind root set_parents ∅).1 in
    parents_loop (S (app_size root)) parentMap currentApp [].

(** [apps.includes(app)]: object identity is identity of the [id]. *)
Definition app_includes (apps : list Spiceflow) (app : Spiceflow) : bool :=
  existsb (fun x => Nat.eqb (id x) (id app)) apps.

(** [getAppsInScope(currentApp)]. *)
Definition getAppsInScope (root : Spiceflow) (currentApp : option Spiceflow)
    : list Spiceflow :=
  if Nat.eqb (length (childrenApps root)) 0 then [root]
  else
    let withParents := getAppAndParents root currentApp in
    let wantedOrder := bfs root in
    let scopeFalseApps :=
      List.filter (fun x => bool_decide (scoped x = Some false)) wantedOrder in
    foldl (fun appsInScope app =>
             if app_includes scopeFalseApps app then appsInScope ++ [app]
             else if app_includes withParents app then appsInScope ++ [app]
             else appsInScope)
          [] wantedOrder.

(** ** The matcher *)

Record MatchResult : Type := mkMatch {
  m_app : Spiceflow;
  m_route : InternalRoute;
  m_params : jsval
}.

(** Sequencing of user code: [prog_then p f] runs [p] and hands the value it
    returns to [f] ([const v = await p; f v]). *)
Fixpoint prog_then (p : prog) (f : jsval -> prog) : prog :=
  match p with
  | Return v => f v
  | Throw e => Throw e
  | AwaitNext k => AwaitNext (fun r => prog_then (k r) f)
  | StateWrite path key v k => StateWrite path key v (prog_then k f)
  | StateRead path key k => StateRead path key (fun x => prog_then (k x) f)
  | RequestJson k => RequestJson (fun x => prog_then (k x) f)
  | TryCatch body handler k =>
      TryCatch body (fun e => prog_then (handler e) f)
        (fun x => prog_then (k x) f)
  end.

Definition notFoundHandler : InlineHandler :=
  fun _c =>
    Return (VResponse (new_Response (BodyText "Not Found")
                         (Some (VNum 404%Z)) [])).

(** The handler that [match] builds for a HEAD request served by a GET
    route. *)
Definition head_handler (internalRouteGet : InternalRoute) : InlineHandler :=
  fun c =>
    prog_then (route_handler internalRouteGet c) (fun response =>
      match response with
      | VResponse r =>
          Return (VResponse (mkResponse (status r) (statusText r) (headers r)
                               (BodyText "")))
      | _ => Return (VResponse (new_Response BodyNull (Some (VNum 200%Z)) []))
      end).

(** [{ hooks: {}, handler, method, path } as InternalRoute]. *)
Definition synthesized_route (handler : InlineHandler) (method path : string)
    : InternalRoute :=
  mkRoute method path "" handler None None None.

Definition app_prefix (root app : Spiceflow) : string :=
  strip_trailing_slash
    (join "" (map (fun x => default "" (prefix x))
                  (getAppAndParents root (Some app)))).

(** The callback that [match] passes to [bfsFind]; the threaded variable is
    [foundApp]. *)
Definition match_node (root : Spiceflow) (method path : string)
    (foundApp : option Spiceflow) (app : Spiceflow)
    : option Spiceflow * option MatchResult :=
  let prefix := app_prefix root app in
  if negb (String.eqb prefix "") && negb (startsWith path prefix)
  then (foundApp, None)
  else
    let pathWithoutPrefix :=
      if negb (String.eqb prefix "")
      then or_slash (replace_first prefix path)
      else path in
    match router app pathWithoutPrefix with
    | None => (Some app, None)
    | Some medleyRoute =>
        match assoc method (found_store medleyRoute) with
        | Some internalRoute =>
            let params :=
              if truthy (found_params medleyRoute)
              then found_params medleyRoute else VObject [] in
            (foundApp, Some (mkMatch app internalRoute params))
        | None =>
            if String.eqb method "HEAD" then
              match assoc "GET" (found_store medleyRoute) with
              | None => (foundApp, None)
              | Some internalRouteGet =>
                  (foundApp,
                   Some (mkMatch app
                           (synthesized_route (head_handler internalRouteGet)
                              method path)
                           (found_params medleyRoute)))
              end
            else (foundApp, None)
        end
    end.

(** [match(method, path)] ([match] is a keyword). *)
Definition match_ (root : Spiceflow) (method path : string) : MatchResult :=
  let path := or_slash (strip_trailing_slash path) in
  match bfsFind root (match_node root method path) None with
  | (_, Some result) => result
  | (foundApp, None) =>
      mkMatch (default root foundApp)
        (synthesized_route notFoundHandler method path) (VObject [])
  end.

(** ** The dispatcher *)

(** How a piece of code ends: with a value, or with a throw (a rejection,
    for a promise). *)
Inductive completion (A : Type) : Type :=
| Returned (a : A)
| Threw (e : jsval).
Arguments Returned {A} _.
Arguments Threw {A} _.

(** Ghost record of the calls made during one [handle]: the [i]-th
    middleware of the chain, the route handler, the [i]-th error handler,
    and [console.error]. *)
Inductive event : Type :=
| EvMiddleware (i : nat)
| EvHandler
| EvErrorHandler (i : nat)
| EvConsoleError (err : jsval).

(** The variables that the closures of one [handle] call share. *)
Record Chain : Type := mkChain {
  index : nat;
  handlerResponse : option Response;
  c_heap : heap;
  bodyUsed : bool;
  c_query : jsval;
  c_params : jsval;
  trace : list event
}.

Definition set_index (i : nat) (c : Chain) : Chain :=
  mkChain i (handlerResponse c) (c_heap c) (bodyUsed c) (c_query c)
    (c_params c) (trace c).
Definition set_handlerResponse (r : Response) (c : Chain) : Chain :=
  mkChain (index c) (Some r) (c_heap c) (bodyUsed c) (c_query c)
    (c_params c) (trace c).
Definition set_heap (h : heap) (c : Chain) : Chain :=
  mkChain (index c) (handlerResponse c) h (bodyUsed c) (c_query c)
    (c_params c) (trace c).
Definition set_bodyUsed (c : Chain) : Chain :=
  mkChain (index c) (handlerResponse c) (c_heap c) true (c_query c)
    (c_params c) (trace c).
Definition set_query (q : jsval) (c : Chain) : Chain :=
  mkChain (index c) (handlerResponse c) (c_heap c) (bodyUsed c) q
    (c_params c) (trace c).
Definition set_params (p : jsval) (c : Chain) : Chain :=
  mkChain (index c) (handlerResponse c) (c_heap c) (bodyUsed c) (c_query c)
    p (trace c).
Definition log (e : event) (c : Chain) : Chain :=
  mkChain (index c) (handlerResponse c) (c_heap c) (bodyUsed c) (c_query c)
    (c_params c) (trace c ++ [e]).

Definition newline : string := String (ascii_of_nat 10) "".

(** [new TypeError(message)] raised by the runtime. *)
Definition TypeError (message : string) : jsval := VError message [].

(** Modelled from the spec: [ValidationError] of [./error.ts], which is not
    among the sources; the validation error body is
    [{"code":"VALIDATION","status":422,"message":...}]. *)
Definition ValidationError (message : string) : jsval :=
  VError message [("code", VStr "VALIDATION"); ("status", VNum 422%Z)].

(** The text of one issue in [runValidation]. *)
Definition issue_text (issue : Issue) : string :=
  let pathString :=
    match issue_path issue with
    | Some ((_ :: _) as p) => join "." p +:+ ": "
    | _ => ""
    end in
  pathString +:+ issue_message issue.

(** [runValidation(value, validate)].  The separator written ["\\n"] in the
    source is a backslash followed by [n]. *)
Definition runValidation (value : jsval) (validate : option ValidationFunction)
    : completion jsval :=
  match validate with
  | None => Returned value
  | Some validate =>
      let result := validate value in
      match vr_issues result with
      | Some ((_ :: _) as issues) =>
          let errorMessages := join "\n" (map issue_text issues) in
          Threw (ValidationError
                   (if String.eqb errorMessages "" then "Validation failed"
                    else errorMessages))
      | _ =>
          match vr_value result with
          | Some v => Returned v
          | None => Returned value
          end
      end
  end.

(** [parseQuery]: [pairs] is the iteration of
    [new URLSearchParams(queryString)]; [paramsObject[key]] is read among
    the keys written so far. *)
Definition parseQuery (pairs : list (string * string)) : jsval :=
  VObject
    (foldl (fun paramsObject kv =>
              match assoc kv.1 paramsObject with
              | Some existing =>
                  if truthy existing then
                    assoc_set kv.1
                      match existing with
                      | VArray l => VArray (l ++ [VStr kv.2])
                      | _ => VArray [existing; VStr kv.2]
                      end paramsObject
                  else assoc_set kv.1 (VStr kv.2) paramsObject
              | None => assoc_set kv.1 (VStr kv.2) paramsObject
              end) [] pairs).

(** [result?.constructor?.name || typeof result], for the messages of
    [turnHandlerResultIntoResponse]. *)
Definition type_name (v : jsval) : string :=
  match v with
  | VUndefined => "undefined"
  | VNull => "object"
  | VBool _ => "Boolean"
  | VNum _ => "Number"
  | VStr _ => "String"
  | VArray _ => "Array"
  | VObject _ => "Object"
  | VError _ _ => "Error"
  | VSearchParams _ => "URLSearchParams"
  | VResponse _ => "Response"
  | VGenerator _ _ => "object"
  end.

Section Dispatch.
Context `{Serializer}.

(** [turnHandlerResultIntoResponse(result, route)]; [result] has been
    awaited by the caller. *)
Definition turnHandlerResultIntoResponse (result : jsval)
    (route : InternalRoute) : completion Response :=
  match result with
  | VResponse r => Returned r
  | _ =>
      let json :=
        Returned (new_Response (BodyText (superjsonSerialize result None))
                    None [("content-type", "application/json")]) in
      if negb (String.eqb (route_type route) "") then
        if includes (route_type route) "multipart/form-data" then
          Threw (VError
                   ("Invalid form data returned from route handler "
                    +:+ route_path route
                    +:+ " - expected Response but got "
                    +:+ type_name result
                    +:+ ". FormData cannot be returned directly - it must "
                    +:+ "be wrapped in a Response object with the "
                    +:+ "appropriate content-type header.")
                   [])
        else if includes (route_type route)
                  "application/x-www-form-urlencoded" then
          match result with
          | VSearchParams ps =>
              Returned (new_Response (BodyParams ps) None
                          [("content-type",
                            "application/x-www-form-urlencoded")])
          | _ =>
              Threw (VError
                       ("Invalid URL encoded data returned from route handler "
                        +:+ route_path route
                        +:+ " - expected URLSearchParams but got "
                        +:+ type_name result)
                       [])
          end
        else if includes (route_type route) "text/plain" then
          match result with
          | VStr s =>
              Returned (new_Response (BodyText s) None
                          [("content-type", "text/plain")])
          | _ =>
              Threw (VError
                       ("Invalid text returned from route handler "
                        +:+ route_path route
                        +:+ " - expected string but got "
                        +:+ type_name result)
                       [])
          end
        else json
      else json
  end.

(** ["event: message\ndata: " + superjsonSerialize(v, false) + "\n\n"]. *)
Definition message_event (v : jsval) : string :=
  "event: message" +:+ newline +:+ "data: "
  +:+ superjsonSerialize v (Some false) +:+ newline +:+ newline.

Definition error_event (error : jsval) : string :=
  let message :=
    if truthy (get_prop error "message") then get_prop error "message"
    else if truthy (get_prop error "name") then get_prop error "name"
    else VStr "Error" in
  "event: error" +:+ newline +:+ "data: "
  +:+ superjsonSerialize
        (VObject (assoc_set "message" message (spread error))) (Some false)
  +:+ newline +:+ newline.

(** [handleStream({ generator, ... })].  The first value is pulled
    before the response is built.  When the generator is not done, the
    body of the chunked response is the sequence of frames that the pull
    loop enqueues afterwards, while the body is read; the keep-alive timer,
    the abort listener and the call of the error handlers on a failing
    generator happen then, after [handle] has returned, and are not
    represented. *)
Definition handleStream (generator : jsval) : completion Response :=
  match generator with
  | VGenerator [] (GenThrow e) => Threw e
  | VGenerator [] (GenReturn value) =>
      Returned
        (new_Response
           (BodyText (message_event value
                      +:+ "event: done" +:+ newline +:+ newline))
           None
           [("Content-Type", "text/event-stream");
            ("Cache-Control", "no-cache")])
  | VGenerator (value :: rest) finish =>
      Returned
        (new_Response
           (BodyStream
              (map message_event
                 (List.filter (fun v => negb (nullish v)) (value :: rest))
               ++ match finish with
                  | GenThrow error => [error_event error]
                  | GenReturn _ => []
                  end))
           None
           [("transfer-encoding", "chunked");
            ("content-type", "text/event-stream; charset=utf-8")])
  | _ => Threw (TypeError "generator.next is not a function")
  end.

(** [for (const errHandler of onErrorHandlers)] of [runErrorHandlers];
    [i] is the position of the first handler of [handlers] in the whole
    list. *)
Fixpoint runErrorHandlers_loop (handlers : list OnError) (i : nat)
    (err : jsval) (request : Request) (c : Chain)
    : completion (option Response) * Chain :=
  match handlers with
  | [] => (Returned None, c)
  | errHandler :: handlers' =>
      let c' := log (EvErrorHandler i) c in
      match errHandler err request with
      | EHResponse res => (Returned (Some res), c')
      | EHThrow e => (Threw e, c')
      | EHPromise _ | EHOther _ =>
          runErrorHandlers_loop handlers' (S i) err request c'
      end
  end.

(** [runErrorHandlers({ onErrorHandlers, error, request })]. *)
Definition runErrorHandlers (onErrorHandlers : list OnError) (err : jsval)
    (request : Request) (c : Chain) : completion (option Response) * Chain :=
  if Nat.eqb (length onErrorHandlers) 0
  then (Returned None, log (EvConsoleError err) c)
  else runErrorHandlers_loop onErrorHandlers 0 err request c.

Variable middlewares' : list MiddlewareHandler.
Variable onErrorHandlers' : list OnError.
Variable route : MatchResult.
Variable request : Request.
Variable state : loc.
Variable path : string.

(** The [context] object, as a callee sees it when it is called. *)
Definition context_of (c : Chain) : Context :=
  mkContext request state path (c_query c) (c_params c).

(** [getResForError(err)]. *)
Definition getResForError (err : jsval) (c : Chain)
    : completion Response * Chain :=
  match err with
  | VResponse r => (Returned r, c)
  | _ =>
      match runErrorHandlers onErrorHandlers' err request c with
      | (Threw e, c') => (Threw e, c')
      | (Returned (Some res), c') => (Returned res, c')
      | (Returned None, c') =>
          let status :=
            if nullish (get_prop err "status") then VNum 500%Z
            else get_prop err "status" in
          let message :=
            if truthy (get_prop err "message") then get_prop err "message"
            else VStr "Internal Server Error" in
          (Returned
             (new_Response
                (BodyText
                   (superjsonSerialize
                      (VObject (assoc_set "message" message (spread err)))
                      None))
                (Some status) [("content-type", "application/json")]),
           c')
      end
  end.

(** [await request.json()]: the body can be read once; with a body
    schema the request is a [SpiceflowRequest], whose [json()] pipes the
    parsed body through [runValidation]. *)
Definition request_json (c : Chain) : completion jsval * Chain :=
  if bodyUsed c then (Threw (TypeError "Body already consumed"), c)
  else
    match req_json request with
    | inr e => (Threw e, set_bodyUsed c)
    | inl body =>
        (runValidation body (validateBody (m_route route)), set_bodyUsed c)
    end.

(** Runs the body of a middleware or handler; [nxt] is what [next()]
    does, [None] standing for a loop that ran out of fuel. *)
Fixpoint run (nxt : Chain -> option (completion Response * Chain))
    (p : prog) (c : Chain) : option (completion jsval * Chain) :=
  match p with
  | Return v => Some (Returned v, c)
  | Throw e => Some (Threw e, c)
  | AwaitNext k =>
      match nxt c with
      | None => None
      | Some (Returned r, c') => run nxt (k r) c'
      | Some (Threw e, c') => Some (Threw e, c')
      end
  | StateWrite spath key v k =>
      match heap_write (c_heap c) state spath key v with
      | Some h' => run nxt k (set_heap h' c)
      | None =>
          Some (Threw (TypeError "Cannot set properties of undefined"), c)
      end
  | StateRead spath key k =>
      match heap_read (c_heap c) state spath key with
      | Some x => run nxt (k x) c
      | None =>
          Some (Threw (TypeError "Cannot read properties of undefined"), c)
      end
  | RequestJson k =>
      match request_json c with
      | (Returned v, c') => run nxt (k v) c'
      | (Threw e, c') => Some (Threw e, c')
      end
  | TryCatch body handler k =>
      match run nxt body c with
      | None => None
      | Some (Returned v, c') => run nxt (k v) c'
      | Some (Threw e, c') => run nxt (handler e) c'
      end
  end.

(** A route handler is called with the context alone: it has no [next],
    and calling one throws. *)
Definition no_next (c : Chain) : option (completion Response * Chain) :=
  Some (Threw (TypeError "next is not a function"), c).

(** The [try] block of [next] once the middleware part is over: the
    stored response if there is one, otherwise validation of query and
    params and the route handler. *)
Definition next_handler (c : Chain) : option (completion Response * Chain) :=
  match handlerResponse c with
  | Some r => Some (Returned r, c)
  | None =>
      match runValidation (c_query c) (validateQuery (m_route route)) with
      | Threw e => Some (Threw e, c)
      | Returned q =>
          let c := set_query q c in
          match runValidation (c_params c)
                  (validateParams (m_route route)) with
          | Threw e => Some (Threw e, c)
          | Returned ps =>
              let c := log EvHandler (set_params ps c) in
              match run no_next
                      (route_handler (m_route route) (context_of c)) c with
              | None => None
              | Some (Threw e, c) => Some (Threw e, c)
              | Some (Returned res, c) =>
                  let response :=
                    if isAsyncIterable res then handleStream res
                    else turnHandlerResultIntoResponse res (m_route route) in
                  match response with
                  | Returned r => Some (Returned r, set_handlerResponse r c)
                  | Threw e => Some (Threw e, c)
                  end
              end
          end
      end
  end.

(** The [catch (err)] block of [next]:
    [handlerResponse = await getResForError(err); return await next()].
    [attempt] is the outcome of the [try] block, [retry] the recursive
    [next]. *)
Definition catch_next (retry : Chain -> option (completion Response * Chain))
    (attempt : option (completion Response * Chain))
    : option (completion Response * Chain) :=
  match attempt with
  | None => None
  | Some (Returned r, c) => Some (Returned r, c)
  | Some (Threw err, c) =>
      match getResForError err c with
      | (Threw e, c) => Some (Threw e, c)
      | (Returned res, c) => retry (set_handlerResponse res c)
      end
  end.

(** [const next = async () => { try { ... } catch (err) { ... } }].
    [middlewares[index]] is defined exactly when
    [index < middlewares.length]. *)
Fixpoint next (fuel : nat) (c : Chain)
    : option (completion Response * Chain) :=
  match fuel with
  | O => None
  | S fuel' =>
      catch_next (next fuel')
        match middlewares' !! index c with
        | Some middleware =>
            let c := log (EvMiddleware (index c))
                       (set_index (S (index c)) c) in
            match run (next fuel') (middleware (context_of c)) c with
            | None => None
            | Some (Threw e, c) => Some (Threw e, c)
            | Some (Returned result, c) =>
                let c :=
                  match result with
                  | VResponse r => set_handlerResponse r c
                  | _ => c
                  end in
                if negb (truthy result)
                   && Nat.ltb (index c) (length middlewares')
                then next fuel' c
                else if truthy result
                then Some (turnHandlerResultIntoResponse result
                             (m_route route), c)
                else next_handler c
            end
        | None => next_handler c
        end
  end.

End Dispatch.

(** [const state = customState || lodashCloneDeep(defaultState)], for the
    application [app] that the request was matched to. *)
Definition initial_state (app : Spiceflow) (customState : option loc)
    (h : heap) : heap * loc :=
  match customState with
  | Some s => (h, s)
  | None => cloneDeep h (defaultState app)
  end.

(** [handle(request, { state })].  The store is passed in and comes back in
    the final [Chain]; [length middlewares + 2] rounds of [next] are enough
    ([handle_returns] below). *)
Definition handle `{Serializer} (this : Spiceflow) (request : Request)
    (customState : option loc) (h : heap)
    : option (completion Response * Chain) :=
  let path := req_pathname request +:+ req_search request in
  let route := match_ this (req_method request) path in
  let appsInScope := getAppsInScope this (Some (m_app route)) in
  let onErrorHandlers := flat_map onErrorHandlers appsInScope in
  let middlewares := flat_map middlewares appsInScope in
  let state := initial_state (m_app route) customState h in
  next middlewares onErrorHandlers route request state.2 path
    (length middlewares + 2)
    (mkChain 0 None state.1 false (parseQuery (req_searchParams request))
       (m_params route) []).

(** ** Building applications

    The constructor and the registration methods, for the trees used in the
    examples below. *)

(** [new Spiceflow({ scoped, basePath })]; [id] is the value that
    [globalIndex++] gives. *)
Definition new_Spiceflow (id : nat) (basePath : option string)
    (scoped : option bool) : Spiceflow :=
  mkApp id basePath scoped [] [] [] (fun _ => None) 0 [].

(** Modelled from the spec: the path matcher of [@medley/router], which is
    a dependency and not among the sources, through its contract
    [register(path) -> table keyed by method] and
    [find(path) -> {store, params} | undefined], for static paths (no
    parameter or wildcard segments): [find] answers for exactly the
    registered string. *)
Definition register (r : MedleyRouter) (path method : string)
    (route : InternalRoute) : MedleyRouter :=
  fun q =>
    if String.eqb q path then
      Some (mkFound
              (assoc_set method route
                 match r path with
                 | Some found => found_store found
                 | None => []
                 end)
              (VObject []))
    else r q.

Record LocalHook : Type := mkHook {
  hook_type : string;
  hook_body : option ValidationFunction;
  hook_query : option ValidationFunction;
  hook_params : option ValidationFunction
}.

Definition no_hook : LocalHook := mkHook "" None None None.

(** [add({ method, path, hooks, handler })]. *)
Definition add (method path : string) (handler : InlineHandler)
    (hooks : LocalHook) (app : Spiceflow) : Spiceflow :=
  let path := or_slash (strip_trailing_slash path) in
  let route :=
    mkRoute method path (hook_type hooks) handler (hook_body hooks)
      (hook_query hooks) (hook_params hooks) in
  mkApp (id app) (prefix app) (scoped app) (middlewares app)
    (onErrorHandlers app) (routes app ++ [route])
    (register (router app) path method route) (defaultState app)
    (childrenApps app).

Definition get (path : string) (handler : InlineHandler) (hooks : LocalHook)
    : Spiceflow -> Spiceflow :=
  add "GET" path handler hooks.

Definition post (path : string) (handler : InlineHandler) (hooks : LocalHook)
    : Spiceflow -> Spiceflow :=
  add "POST" path handler hooks.

Definition head (path : string) (handler : InlineHandler) (hooks : LocalHook)
    : Spiceflow -> Spiceflow :=
  add "HEAD" path handler hooks.

(** [use(appOrHandler)], one definition per branch of the [instanceof]
    test. *)
Definition use_app (instance : Spiceflow) (app : Spiceflow) : Spiceflow :=
  mkApp (id app) (prefix app) (scoped app) (middlewares app)
    (onErrorHandlers app) (routes app) (router app) (defaultState app)
    (childrenApps app ++ [instance]).

Definition use (handler : MiddlewareHandler) (app : Spiceflow) : Spiceflow :=
  mkApp (id app) (prefix app) (scoped app) (middlewares app ++ [handler])
    (onErrorHandlers app) (routes app) (router app) (defaultState app)
    (childrenApps app).

Definition onError (handler : OnError) (app : Spiceflow) : Spiceflow :=
  mkApp (id app) (prefix app) (scoped app) (middlewares app)
    (onErrorHandlers app ++ [handler]) (routes app) (router app)
    (defaultState app) (childrenApps app).

(** The object behind [defaultState] lives in the store; [with_state]
    records where. *)
Definition with_state (l : loc) (app : Spiceflow) : Spiceflow :=
  mkApp (id app) (prefix app) (scoped app) (middlewares app)
    (onErrorHandlers app) (routes app) (router app) l (childrenApps app).

(** ** Specification-side notions *)

(** The ancestor chain of the spec ([ancestorsOf(root, node)]: "ordered
    list from root to node inclusive"): [is_path t p] when [p] starts at
    [t] and every next element is a child of the previous one. *)
Inductive is_path : Spiceflow -> list Spiceflow -> Prop :=
| is_path_here t : is_path t [t]
| is_path_child t c p :
    c ∈ childrenApps t -> is_path c p -> is_path t (t :: p).

(** What [bfsFind] computes, over the list of [bfs]: the callback is run on
    the nodes in breadth-first order up to the first one for which it
    returns a result. *)
Fixpoint first_result {S T : Type} (onNode : S -> Spiceflow -> S * option T)
    (s : S) (nodes : list Spiceflow) : S * option T :=
  match nodes with
  | [] => (s, None)
  | node :: nodes' =>
      match onNode s node with
      | (s', Some result) => (s', Some result)
      | (s', None) => first_result onNode s' nodes'
      end
  end.

(** The parent map as a list of edges [(id child, parent)], in the order
    in which [set_parents] writes them. *)
Definition edges (nodes : list Spiceflow) : list (nat * Spiceflow) :=
  flat_map (fun node => map (fun c => (id c, node)) (childrenApps node)) nodes.

Definition insert_edge (m : gmap nat Spiceflow) (e : nat * Spiceflow)
    : gmap nat Spiceflow :=
  <[e.1 := e.2]> m.

(** The chain variables after the calls [evs] have been recorded. *)
Definition add_events (evs : list event) (c : Chain) : Chain :=
  mkChain (index c) (handlerResponse c) (c_heap c) (bodyUsed c) (c_query c)
    (c_params c) (trace c ++ evs).

(** The default response of [getResForError] for an error that no handler
    took care of. *)
Definition default_error_response `{Serializer} (err : jsval) : Response :=
  mkResponse
    (if nullish (get_prop err "status") then VNum 500%Z
     else get_prop err "status")
    ""
    [("content-type", "application/json")]
    (BodyText
       (superjsonSerialize
          (VObject
             (assoc_set "message"
                (if truthy (get_prop err "message")
                 then get_prop err "message"
                 else VStr "Internal Server Error")
                (spread err)))
          None)).

Definition is_async (err : jsval) (request : Request) (handler : OnError)
    : Prop :=
  exists settles, handler err request = EHPromise settles.

(** Rounds of [next] that a chain may still need: one per remaining
    middleware, one for the handler, one for the retry after a throw. *)
Definition rounds (middlewares : list MiddlewareHandler) (c : Chain) : nat :=
  (length middlewares - index c)
  + match handlerResponse c with Some _ => 1 | None => 2 end.

(** A stand-in for the codec in the closed examples: strings are written
    between quotes, an object as its [message]. *)
Definition example_serialize : Serializer :=
  fun v _ =>
    match v with
    | VStr s => "'" +:+ s +:+ "'"
    | VObject props =>
        match assoc "message" props with
        | Some (VStr s) => "{message:" +:+ s +:+ "}"
        | _ => "{}"
        end
    | _ => "?"
    end.

Definition get_request (pathname : string) : Request :=
  mkRequest "GET" pathname "" [] (inl VUndefined).

Definition head_request (pathname : string) : Request :=
  mkRequest "HEAD" pathname "" [] (inl VUndefined).

Definition empty_chain : Chain :=
  mkChain 0 None [[]] false (VObject []) (VObject []) [].

(** The chain only moves forward: [index] never decreases and a stored
    [handlerResponse] stays stored. *)
Definition advances (c c' : Chain) : Prop :=
  index c <= index c'
  /\ (handlerResponse c <> None -> handlerResponse c' <> None).

(** A step that makes progress: it returns, and the chain has moved
    forward. *)
Definition progresses {A : Type} (c : Chain)
    (result : option (completion A * Chain)) : Prop :=
  exists o c', result = Some (o, c') /\ advances c c'.

(** Reading the record of calls. *)
Definition is_call (e : event) : bool :=
  match e with
  | EvMiddleware _ | EvHandler => true
  | EvErrorHandler _ | EvConsoleError _ => false
  end.

(** The middlewares that were called, by position in the chain, in call
    order. *)
Definition middleware_calls (t : list event) : list nat :=
  flat_map (fun e => match e with EvMiddleware i => [i] | _ => [] end) t.

(** How many times the route handler was called. *)
Definition handler_calls (t : list event) : nat :=
  length (List.filter (fun e => match e with EvHandler => true | _ => false end)
            t).

(** The middlewares and the handler, in call order. *)
Definition calls (t : list event) : list event := List.filter is_call t.

(** [holds_after I J result]: when the step returns a value, [I] holds of
    the chain, and when it throws, [J] does. *)
Definition holds_after {A : Type} (I J : Chain -> Prop)
    (result : option (completion A * Chain)) : Prop :=
  forall o c', result = Some (o, c') ->
    match o with Returned _ => I c' | Threw _ => J c' end.

(** The invariants behind "at most once": the middlewares called so far
    are those below [index], in order; the handler has not been called, or
    has been called once and has left a stored response ([called_once]);
    while it runs and after a rejection it has been called at most once. *)
Definition middlewares_in_order (middlewares : list MiddlewareHandler)
    (c : Chain) : Prop :=
  middleware_calls (trace c) = seq 0 (index c)
  /\ index c <= length middlewares.

Definition called_once (middlewares : list MiddlewareHandler) (c : Chain)
    : Prop :=
  middlewares_in_order middlewares c
  /\ (handler_calls (trace c) = 0
      \/ (handler_calls (trace c) = 1 /\ handlerResponse c <> None)).

Definition handler_running (middlewares : list MiddlewareHandler) (c : Chain)
    : Prop :=
  middlewares_in_order middlewares c /\ handler_calls (trace c) = 1.

Definition called_at_most_once (middlewares : list MiddlewareHandler)
    (c : Chain) : Prop :=
  middlewares_in_order middlewares c /\ handler_calls (trace c) <= 1.

(** Store shapes.  [heap_closedb h]: no object of [h] refers outside [h].
    [fresh_closed n h]: the objects from location [n] on refer only to
    objects from [n] on.  [isolated h0 state c]: the chain works on a state
    object allocated after [h0], and [h0] is still there, untouched. *)
Definition heap_closedb (h : heap) : bool :=
  forallb (fun o : sobject =>
             forallb (fun kv : string * sval =>
                        match kv.2 with
                        | SRef l => Nat.ltb l (length h)
                        | SVal _ => true
                        end) o) h.

Definition fresh_closed (n : nat) (h : heap) : Prop :=
  forall (l : loc) (o : sobject) (k : string) (l' : loc),
    n <= l -> h !! l = Some o -> assoc k o = Some (SRef l') -> n <= l'.

Definition isolated (h0 : heap) (state : loc) (c : Chain) : Prop :=
  take (length h0) (c_heap c) = h0
  /\ fresh_closed (length h0) (c_heap c)
  /\ length h0 <= state.

(** ** Classes of middlewares *)

(** A program without [try]/[catch]: an error, and a rejection of
    [next()] in particular, propagates to the caller. *)
Fixpoint propagates (p : prog) : Prop :=
  match p with
  | Return _ | Throw _ => True
  | AwaitNext k => forall r, propagates (k r)
  | StateWrite _ _ _ k => propagates k
  | StateRead _ _ k => forall x, propagates (k x)
  | RequestJson k => forall v, propagates (k v)
  | TryCatch _ _ _ => False
  end.

(** A middleware that does not short-circuit: before it calls [next()] it
    only reads or writes top-level properties of the state, and without a
    call to [next()] it returns a falsy value; it does not throw before
    [next()].  What it does after [next()] is free, as long as it does not
    catch errors. *)
Inductive continues : prog -> Prop :=
| continues_return v : truthy v = false -> continues (Return v)
| continues_next k : (forall r, propagates (k r)) -> continues (AwaitNext k)
| continues_write key v k :
    continues k -> continues (StateWrite [] key v k)
| continues_read key k :
    (forall x, continues (k x)) -> continues (StateRead [] key k).

(** A middleware that lets the response through: it never throws, and what
    it returns is falsy or a response that satisfies [R], given that the
    responses it gets from [next()] satisfy [R]. *)
Inductive passes (R : Response -> Prop) : prog -> Prop :=
| passes_return v : truthy v = false -> passes R (Return v)
| passes_response r : R r -> passes R (Return (VResponse r))
| passes_next k : (forall r, R r -> passes R (k r)) -> passes R (AwaitNext k)
| passes_write key v k :
    passes R k -> passes R (StateWrite [] key v k)
| passes_read key k :
    (forall x, passes R (k x)) -> passes R (StateRead [] key k).

(** The chain before the handler has run: the middlewares below [index]
    have been called, in order, and nothing else; no response is stored;
    query and params are still those of the request; the state object
    exists. *)
Definition before_handler (middlewares : list MiddlewareHandler)
    (state : loc) (query params : jsval) (c : Chain) : Prop :=
  index c <= length middlewares
  /\ calls (trace c) = map EvMiddleware (seq 0 (index c))
  /\ handlerResponse c = None
  /\ c_query c = query
  /\ c_params c = params
  /\ is_Some (c_heap c !! state).

(** The chain once the handler has run: every middleware, then the
    handler, each once. *)
Definition all_called (middlewares : list MiddlewareHandler) (c : Chain)
    : Prop :=
  calls (trace c)
  = map EvMiddleware (seq 0 (length middlewares)) ++ [EvHandler]
  /\ middlewares !! index c = None.

Definition all_called_stored (middlewares : list MiddlewareHandler)
    (c : Chain) : Prop :=
  all_called middlewares c /\ handlerResponse c <> None.

(** [answers_with R G result]: the step, if it returns, returns a response
    that satisfies [R] and leaves a chain that satisfies [G]; it does not
    throw. *)
Definition answers_with (R : Response -> Prop) (G : Chain -> Prop)
    (result : option (completion Response * Chain)) : Prop :=
  forall o c', result = Some (o, c') ->
    exists r, o = Returned r /\ R r /\ G c'.

(** "The request matches a registered route of [app]": below the prefix of
    [app], the path matcher of [app] has an entry for the path, with a
    route for the method (or, for HEAD, a GET route). *)
Definition has_route (root : Spiceflow) (method path : string)
    (app : Spiceflow) : Prop :=
  let prefix := app_prefix root app in
  (prefix = "" \/ startsWith path prefix = true)
  /\ exists found,
       router app (if String.eqb prefix "" then path
                   else or_slash (replace_first prefix path)) = Some found
       /\ (assoc method (found_store found) <> None
           \/ (method = "HEAD" /\ assoc "GET" (found_store found) <> None)).

(** The response of [notFoundHandler]. *)
Definition not_found_shape (r : Response) : Prop :=
  status r = VNum 404%Z /\ resp_body r = BodyText "Not Found".

(** An error handler that neither answers at once nor throws. *)
Definition quiet (err : jsval) (request : Request) (handler : OnError)
    : Prop :=
  exists v, handler err request = EHPromise v
            \/ handler err request = EHOther v.

(** The message that [runValidation] gives to [ValidationError]. *)
Definition validation_message (issues : list Issue) : string :=
  let errorMessages := join "\n" (map issue_text issues) in
  if String.eqb errorMessages "" then "Validation failed" else errorMessages.

(** What the handler built for HEAD makes of the value [v] returned by the
    GET handler. *)
Definition head_response (v : jsval) : Response :=
  match v with
  | VResponse r => mkResponse (status r) (statusText r) (headers r)
                     (BodyText "")
  | _ => new_Response BodyNull (Some (VNum 200%Z)) []
  end.

(** A chain in which the state object exists, a stored response satisfies
    [R], and only middlewares and the route handler have been called: no
    error handler, no [console.error]. *)
Definition calm (R : Response -> Prop) (state : loc) (c : Chain) : Prop :=
  is_Some (c_heap c !! state)
  /\ (forall r, handlerResponse c = Some r -> R r)
  /\ Forall (fun e => is_call e = true) (trace c).

(** A chain whose query is still [query], in which the handler has not
    been called, the state object exists, and a stored response satisfies
    [R]. *)
Definition unvalidated (R : Response -> Prop) (state : loc) (query : jsval)
    (c : Chain) : Prop :=
  is_Some (c_heap c !! state)
  /\ (forall r, handlerResponse c = Some r -> R r)
  /\ c_query c = query
  /\ handler_calls (trace c) = 0.

(** ** Other methods of the application *)

(** [state(name, value)]: [this.defaultState[name] = value], for a [value]
    that is plain data; [None] when the store holds no object at
    [defaultState]. *)
Definition state_ (name : string) (value : jsval) (app : Spiceflow) (h : heap)
    : option heap :=
  heap_write h (defaultState app) [] name value.

Definition METHODS : list string :=
  ["ALL"; "CONNECT"; "DELETE"; "GET"; "HEAD"; "OPTIONS"; "PATCH"; "POST";
   "PUT"; "TRACE"].

(** [all(path, handler, hook)]: [this.add({ method, path, handler, hooks })]
    for every [method] of [METHODS]. *)
Definition all (path : string) (handler : InlineHandler) (hooks : LocalHook)
    (app : Spiceflow) : Spiceflow :=
  foldl (fun app method => add method path handler hooks app) app METHODS.

(** [this.getAppAndParents(x).map((x) => x.prefix).join("")]; an absent
    prefix joins as the empty string. *)
Definition path_prefix (root x : Spiceflow) : string :=
  join "" (map (fun y => default "" (prefix y))
             (getAppAndParents root (Some x))).

(** [{ ...x, path }]. *)
Definition with_path (path : string) (x : InternalRoute) : InternalRoute :=
  mkRoute (route_method x) path (route_type x) (route_handler x)
    (validateBody x) (validateQuery x) (validateParams x).

(** [getAllRoutes()], with [root = this.topLevelApp || this] made
    explicit. *)
Definition getAllRoutes (root : Spiceflow) : list InternalRoute :=
  let allApps := bfs root in
  flat_map (fun x =>
              let prefix := path_prefix root x in
              map (fun r => with_path (prefix +:+ route_path r) r) (routes x))
    allApps.

(** ** More specification-side notions *)

(** The tree level by level: the nodes of [q], then their children, then
    the children of those, [depth] levels deep. *)
Fixpoint levels (depth : nat) (q : list Spiceflow) : list Spiceflow :=
  match depth with
  | O => []
  | S d => q ++ levels d (flat_map childrenApps q)
  end.

(** The normalisation that [add] and [match] apply to a path. *)
Definition normalize (path : string) : string :=
  or_slash (strip_trailing_slash path).

(** The path that [match] looks up in the path matcher of [app]. *)
Definition pathWithoutPrefix (root : Spiceflow) (path : string)
    (app : Spiceflow) : string :=
  if String.eqb (app_prefix root app) "" then path
  else or_slash (replace_first (app_prefix root app) path).

(** [app] is visited by [match] (its prefix is empty or starts the path) and
    its path matcher has no entry for the path: the case in which [match]
    assigns [foundApp = app]. *)
Definition router_miss (root : Spiceflow) (path : string) (app : Spiceflow)
    : bool :=
  (String.eqb (app_prefix root app) "" || startsWith path (app_prefix root app))
  && match router app (pathWithoutPrefix root path app) with
     | None => true
     | Some _ => false
     end.

Fixpoint dropwhile_empty (values : list string) : list string :=
  match values with
  | [] => []
  | v :: values' =>
      if String.eqb v "" then dropwhile_empty values' else values
  end.

(** What [query[key]] is after [parseQuery], from the values that the query
    string gives to [key], in order: leading empty values are forgotten, a
    single value stays a string, several make an array. *)
Definition query_value (values : list string) : jsval :=
  match values with
  | [] => VUndefined
  | _ :: _ =>
      match dropwhile_empty values with
      | [] => VStr ""
      | [v] => VStr v
      | vs => VArray (map VStr vs)
      end
  end.

(** The values given to [key], in order. *)
Definition values_of (key : string) (pairs : list (string * string))
    : list string :=
  map snd (List.filter (fun kv : string * string => String.eqb kv.1 key) pairs).

(** One step of the loop of [parseQuery], seen from one key. *)
Definition query_step (existing : option jsval) (value : string)
    : option jsval :=
  Some match existing with
       | Some x =>
           if truthy x then
             match x with
             | VArray l => VArray (l ++ [VStr value])
             | _ => VArray [x; VStr value]
             end
           else VStr value
       | None => VStr value
       end.

(** The errors given to [console.error], in order. *)
Definition console_errors (t : list event) : list jsval :=
  flat_map (fun e => match e with EvConsoleError err => [err] | _ => [] end) t.

(** The error handlers that were called, by position, in call order. *)
Definition error_handler_calls (t : list event) : list nat :=
  flat_map (fun e => match e with EvErrorHandler i => [i] | _ => [] end) t.

(** A validator that reports no issue, whatever the value. *)
Definition accepts (validate : option ValidationFunction) : Prop :=
  forall value, exists value', runValidation value validate = Returned value'.

(** What [next] makes of the value [res] that the route handler returns:
    a stream for an async iterable, the conversion of
    [turnHandlerResultIntoResponse] otherwise. *)
Definition convert `{Serializer} (res : jsval) (route : InternalRoute)
    : completion Response :=
  if isAsyncIterable res then handleStream res
  else turnHandlerResultIntoResponse res route.

(** An error handler that does not throw. *)
Definition never_throws (handler : OnError) : Prop :=
  forall err request e, handler err request <> EHThrow e.

(** The route that [add] builds. *)
Definition added_route (method path : string) (handler : InlineHandler)
    (hooks : LocalHook) : InternalRoute :=
  mkRoute method (normalize path) (hook_type hooks) handler (hook_body hooks)
    (hook_query hooks) (hook_params hooks).

(** A chain in which an error [err] of the route handler, and nothing else,
    has been logged, and only when the handler was called; no error handler
    has been called; a stored response satisfies [R]. *)
Definition logged (R : Response -> Prop) (state : loc) (err : jsval)
    (c : Chain) : Prop :=
  is_Some (c_heap c !! state)
  /\ (forall r, handlerResponse c = Some r -> R r)
  /\ console_errors (trace c) = repeat err (handler_calls (trace c))
  /\ error_handler_calls (trace c) = []
  /\ (handlerResponse c = None -> handler_calls (trace c) = 0).

(** A chain that holds the response [res] since before the [n]-th
    middleware, in which the route handler has not been called. *)
Definition answered_early (state : loc) (res : Response) (n : nat)
    (c : Chain) : Prop :=
  handlerResponse c = Some res
  /\ handler_calls (trace c) = 0
  /\ is_Some (c_heap c !! state)
  /\ n <= index c.

(** A chain in which the error handlers up to the [n]-th have been called,
    once each and in order, when the route handler has been called, and
    none before; nothing has been logged; a stored response satisfies
    [R]. *)
Definition handled (R : Response -> Prop) (state : loc) (n : nat)
    (c : Chain) : Prop :=
  is_Some (c_heap c !! state)
  /\ (forall r, handlerResponse c = Some r -> R r)
  /\ console_errors (trace c) = []
  /\ error_handler_calls (trace c)
     = match handler_calls (trace c) with
       | O => []
       | S _ => seq 0 (S n)
       end
  /\ (handlerResponse c = None -> handler_calls (trace c) = 0).

(** A chain without error handling in which, as long as no response is
    stored, query and params are those of the request. *)
Definition fresh_input (R : Response -> Prop) (state : loc)
    (query params : jsval) (c : Chain) : Prop :=
  is_Some (c_heap c !! state)
  /\ (forall r, handlerResponse c = Some r -> R r)
  /\ (handlerResponse c = None -> c_query c = query /\ c_params c = params)
  /\ Forall (fun e => is_call e = true) (trace c).

(** A chain that holds the response [r0] of a middleware, in which the
    middlewares below [index], and nothing else, have been called; [n]
    middlewares are behind it for good. *)
Definition skipping (middlewares : list MiddlewareHandler) (state : loc)
    (r0 : Response) (n : nat) (c : Chain) : Prop :=
  handlerResponse c = Some r0
  /\ calls (trace c) = map EvMiddleware (seq 0 (index c))
  /\ n <= index c
  /\ index c <= length middlewares
  /\ is_Some (c_heap c !! state).

(** A chain in which, as long as no response is stored, the body of the
    request has not been read; a stored response satisfies [R]. *)
Definition body_unread (R : Response -> Prop) (state : loc) (c : Chain)
    : Prop :=
  is_Some (c_heap c !! state)
  /\ (forall r, handlerResponse c = Some r -> R r)
  /\ (handlerResponse c = None -> bodyUsed c = false)
  /\ (handlerResponse c = None -> handler_calls (trace c) = 0)
  /\ handler_calls (trace c) <= 1.

(** ** Example applications *)

Definition say (text : string) : InlineHandler :=
  fun _ => Return (VStr text).

(** The tree of the test "getAppsInScope include all parent apps and non
    scoped apps": [/one] > [/two] > [/three] > [/four] ([scoped: false]). *)
Definition app_four : Spiceflow :=
  use (fun _ => Return VUndefined)
    (get "/five" (say "hi") no_hook
       (new_Spiceflow 3 (Some "/four") (Some false))).
Definition app_three : Spiceflow :=
  use_app app_four (new_Spiceflow 2 (Some "/three") None).
Definition app_two : Spiceflow :=
  use_app app_three (new_Spiceflow 1 (Some "/two") None).
Definition app_one : Spiceflow :=
  use_app app_two
    (get "/ids/:id" (say "hi") no_hook (new_Spiceflow 0 (Some "/one") None)).

(** An application with [basePath] [/a] that contains a child with
    [basePath] [/b], which registers a GET route at [/c]. *)
Definition app_b (handler : InlineHandler) : Spiceflow :=
  get "/c" handler no_hook (new_Spiceflow 1 (Some "/b") None).
Definition app_a (handler : InlineHandler) : Spiceflow :=
  use_app (app_b handler) (new_Spiceflow 0 (Some "/a") None).
Definition route_c (handler : InlineHandler) : InternalRoute :=
  mkRoute "GET" "/c" "" handler None None None.

(** The test "middleware stops other middlewares": the first middleware
    answers, the second one and the route handler are not called. *)
Definition stopping_app : Spiceflow :=
  get "/ids/:id" (say "hi") no_hook
    (use (fun _ => Return VUndefined)
       (use (fun _ =>
               Return (VResponse (new_Response (BodyText "ok") None [])))
          (new_Spiceflow 0 None None))).

(** The test "each middleware and route is called exactly once if an
    error is thrown". *)
Definition await_next : MiddlewareHandler :=
  fun _ => AwaitNext (fun _ => Return VUndefined).

Definition throwing_app : Spiceflow :=
  use await_next
    (get "/test" (fun _ => Throw (VError "Route response" [])) no_hook
       (use await_next (use await_next (new_Spiceflow 0 None None)))).

(** A middleware that catches a rejection of [next()] and calls [next()]
    again, on an application whose route handler throws and whose error
    handler throws what it is given. *)
Definition retry_next : MiddlewareHandler :=
  fun _ =>
    TryCatch (AwaitNext (fun r => Return (VResponse r)))
      (fun _ => AwaitNext (fun r => Return (VResponse r)))
      Return.

Definition retrying_app : Spiceflow :=
  onError (fun err _ => EHThrow err)
    (get "/test" (fun _ => Throw (VError "Route response" [])) no_hook
       (use retry_next (new_Spiceflow 0 None None))).

(** A validator that misses a numeric [id] (as in the test "GET with query,
    zod, fails validation"), and an application whose only route has it as
    query schema, behind a middleware that calls [next()]. *)
Definition id_must_be_number : ValidationFunction :=
  fun _ => mkResult (Some [mkIssue "Required" (Some ["id"])]) None.

Definition query_app : Spiceflow :=
  get "/query" (fun c => Return (get_prop (ctx_query c) "id"))
    (mkHook "" None (Some id_must_be_number) None)
    (use await_next (new_Spiceflow 0 None None)).

(** The test "onError does not fire on 404". *)
Definition onerror_app : Spiceflow :=
  onError (fun _ _ =>
             EHResponse (new_Response (BodyText "Error")
                           (Some (VNum 500%Z)) []))
    (get "/test" (say "Hello") no_hook (new_Spiceflow 0 None None)).

(** The test "middleware with no handlers works": no route at all, and a
    middleware that answers. *)
Definition answering_app : Spiceflow :=
  use (fun _ => Return (VResponse (new_Response (BodyText "ok") None [])))
    (new_Spiceflow 0 None None).

(** As in the test "onError fires on validation errors": an error handler
    that answers 400, on an application whose route has a query schema. *)
Definition rescued_app : Spiceflow :=
  onError (fun _ _ =>
             EHResponse (new_Response (BodyText "Error")
                           (Some (VNum 400%Z)) []))
    query_app.

(** A GET route whose handler returns the value ["hi"], as in the
    (disabled) test "HEAD uses GET route, does not add body", and a GET
    route whose handler returns a [Response] of its own. *)
Definition greeting_app : Spiceflow :=
  get "/ids" (say "hi") no_hook (new_Spiceflow 0 None None).

Definition teapot : Response :=
  mkResponse (VNum 418%Z) "I'm a teapot" [("x-kind", "tea")] (BodyText "tea").

Definition teapot_app : Spiceflow :=
  get "/tea" (fun _ => Return (VResponse teapot)) no_hook
    (new_Spiceflow 0 None None).

Definition teapot_route : InternalRoute :=
  mkRoute "GET" "/tea" "" (fun _ => Return (VResponse teapot)) None None None.

Definition teapot_found : MedleyResult :=
  mkFound [("GET", teapot_route)] (VObject []).

(* ================================================================= *)
(** * Properties *)
(* ================================================================= *)

(** ** Breadth-first traversal *)

Lemma app_size_children (a : Spiceflow) :
  app_size a = S (queue_size (childrenApps a)).
Proof.
  destruct a as [i p s m e r rt d cs]; simpl. f_equal.
  induction cs as [|c cs IH]; simpl; [reflexivity|].
  unfold queue_size in IH |- *; simpl. rewrite <- IH. reflexivity.
Qed.

Lemma queue_size_app (q1 q2 : list Spiceflow) :
  queue_size (q1 ++ q2) = queue_size q1 + queue_size q2.
Proof.
  unfold queue_size. rewrite map_app, list_sum_app. reflexivity.
Qed.

Lemma queue_size_cons (a : Spiceflow) (q : list Spiceflow) :
  queue_size (a :: q) = app_size a + queue_size q.
Proof. reflexivity. Qed.

Lemma bfs_loop_acc (fuel : nat) :
  forall queue nodes,
    bfs_loop fuel queue nodes = nodes ++ bfs_loop fuel queue [].
Proof.
  induction fuel as [|fuel IH]; intros [|node queue] nodes; simpl;
    try (rewrite app_nil_r; reflexivity).
  rewrite (IH _ (nodes ++ [node])), (IH _ [node]).
  rewrite <- app_assoc. reflexivity.
Qed.

(** Fuel beyond the size of the queue changes nothing: the loop of [bfs]
    always runs to its end. *)
Lemma bfs_loop_fuel (fuel : nat) :
  forall fuel' queue nodes,
    queue_size queue <= fuel -> queue_size queue <= fuel' ->
    bfs_loop fuel queue nodes = bfs_loop fuel' queue nodes.
Proof.
  induction fuel as [|fuel IH]; intros fuel' queue nodes Hf Hf';
    destruct fuel' as [|fuel'], queue as [|node queue]; try reflexivity;
    rewrite queue_size_cons, app_size_children in Hf, Hf'; try lia.
  simpl. apply IH; rewrite queue_size_app; lia.
Qed.

(** The nodes visited are the queue and, with each node, its children. *)
Lemma bfs_loop_perm (fuel : nat) :
  forall queue,
    queue_size queue <= fuel ->
    bfs_loop fuel queue [] ≡ₚ
      queue ++ flat_map childrenApps (bfs_loop fuel queue []).
Proof.
  induction fuel as [|fuel IH]; intros [|node queue] Hf; simpl;
    try reflexivity.
  - rewrite queue_size_cons, app_size_children in Hf. lia.
  - rewrite bfs_loop_acc. simpl. f_equiv.
    rewrite (app_assoc queue). apply IH.
    rewrite queue_size_app.
    rewrite queue_size_cons, app_size_children in Hf. lia.
Qed.

Lemma bfs_perm (t : Spiceflow) :
  bfs t ≡ₚ t :: flat_map childrenApps (bfs t).
Proof.
  unfold bfs. rewrite bfs_loop_perm at 1.
  - reflexivity.
  - rewrite queue_size_cons. unfold queue_size; simpl. lia.
Qed.

Lemma bfsFind_loop_bfs {S T : Type} (onNode : S -> Spiceflow -> S * option T)
    (fuel : nat) :
  forall queue s,
    queue_size queue <= fuel ->
    bfsFind_loop onNode fuel queue s
    = first_result onNode s (bfs_loop fuel queue []).
Proof.
  induction fuel as [|fuel IH]; intros [|node queue] s Hf; try reflexivity.
  simpl. rewrite bfs_loop_acc. simpl.
  destruct (onNode s node) as [s' [result|]]; [reflexivity|].
  apply IH. rewrite queue_size_app.
  rewrite queue_size_cons, app_size_children in Hf. lia.
Qed.

(** [bfsFind] visits the nodes in the order of [bfs] and stops at the first
    result. *)
Lemma bfsFind_bfs {S T : Type} (tree : Spiceflow)
    (onNode : S -> Spiceflow -> S * option T) (s : S) :
  bfsFind tree onNode s = first_result onNode s (bfs tree).
Proof.
  unfold bfsFind, bfs. apply bfsFind_loop_bfs.
  rewrite queue_size_cons. unfold queue_size; simpl. lia.
Qed.

Lemma bfs_root (t : Spiceflow) : t ∈ bfs t.
Proof. rewrite bfs_perm. apply list_elem_of_here. Qed.

Lemma bfs_child (t x c : Spiceflow) :
  x ∈ bfs t -> c ∈ childrenApps x -> c ∈ bfs t.
Proof.
  intros Hx Hc. rewrite bfs_perm. apply list_elem_of_further.
  apply list_elem_of_In, in_flat_map. exists x.
  split; apply list_elem_of_In; assumption.
Qed.

Lemma bfs_no_children (t : Spiceflow) :
  childrenApps t = [] -> bfs t = [t].
Proof.
  intros Hc. unfold bfs. rewrite app_size_children, Hc. simpl.
  rewrite Hc. reflexivity.
Qed.

(** ** The parent map of [getAppAndParents] *)

Lemma first_result_set_parents (nodes : list Spiceflow) :
  forall m,
    first_result set_parents m nodes
    = (foldl insert_edge m (edges nodes), None).
Proof.
  induction nodes as [|node nodes IH]; intros m; [reflexivity|].
  simpl. rewrite IH. unfold edges at 2; simpl. rewrite foldl_app.
  f_equal. f_equal. clear IH.
  generalize m. induction (childrenApps node) as [|c cs IHc]; intros m';
    [reflexivity|]. simpl. rewrite IHc. reflexivity.
Qed.

Lemma foldl_insert_edge_fresh (es : list (nat * Spiceflow)) (i : nat) :
  forall m, i ∉ es.*1 -> foldl insert_edge m es !! i = m !! i.
Proof.
  induction es as [|e es IH]; intros m Hi; [reflexivity|].
  simpl in *. apply not_elem_of_cons in Hi as [Hne Hi].
  rewrite IH by assumption. unfold insert_edge.
  apply lookup_insert_ne. congruence.
Qed.

Lemma foldl_insert_edge_lookup (es : list (nat * Spiceflow)) (i : nat)
    (x : Spiceflow) :
  forall m,
    NoDup es.*1 -> (i, x) ∈ es -> foldl insert_edge m es !! i = Some x.
Proof.
  induction es as [|e es IH]; intros m Hnd Hin.
  - inversion Hin.
  - simpl in *. apply NoDup_cons in Hnd as [Hfresh Hnd].
    apply elem_of_cons in Hin as [<-|Hin].
    + rewrite foldl_insert_edge_fresh by assumption.
      unfold insert_edge; simpl. apply lookup_insert_eq.
    + apply IH; assumption.
Qed.

Lemma edges_fst (nodes : list Spiceflow) :
  (edges nodes).*1 = map id (flat_map childrenApps nodes).
Proof.
  induction nodes as [|node nodes IH]; [reflexivity|].
  unfold edges in *; simpl. rewrite fmap_app, map_app, IH. f_equal.
  induction (childrenApps node) as [|c cs IHc]; [reflexivity|].
  csimpl. f_equal. exact IHc.
Qed.

Lemma edges_elem (nodes : list Spiceflow) (p c : Spiceflow) :
  p ∈ nodes -> c ∈ childrenApps p -> (id c, p) ∈ edges nodes.
Proof.
  intros Hp Hc. apply list_elem_of_In, in_flat_map. exists p. split.
  - apply list_elem_of_In. assumption.
  - apply in_map_iff. exists c. split; [reflexivity|].
    apply list_elem_of_In. assumption.
Qed.

Section ParentMap.
Variable root : Spiceflow.
Hypothesis ids_unique : NoDup (map id (bfs root)).

Let parentMap : gmap nat Spiceflow := (bfsFind root set_parents ∅).1.

Lemma ids_unique_split :
  (id root ∉ map id (flat_map childrenApps (bfs root)))
  /\ NoDup (map id (flat_map childrenApps (bfs root))).
Proof.
  apply NoDup_cons.
  change (NoDup (map id (root :: flat_map childrenApps (bfs root)))).
  rewrite <- bfs_perm. exact ids_unique.
Qed.

Lemma parentMap_root : parentMap !! id root = None.
Proof.
  unfold parentMap. rewrite bfsFind_bfs, first_result_set_parents. simpl.
  rewrite foldl_insert_edge_fresh; [apply lookup_empty|].
  rewrite edges_fst. apply ids_unique_split.
Qed.

Lemma parentMap_child (p c : Spiceflow) :
  p ∈ bfs root -> c ∈ childrenApps p -> parentMap !! id c = Some p.
Proof.
  intros Hp Hc.
  unfold parentMap. rewrite bfsFind_bfs, first_result_set_parents. simpl.
  apply foldl_insert_edge_lookup.
  - rewrite edges_fst. apply ids_unique_split.
  - apply edges_elem; assumption.
Qed.

(** Equal identifiers mean the same node. *)
Lemma same_id_same_app (x y : Spiceflow) :
  x ∈ bfs root -> y ∈ bfs root -> id x = id y -> x = y.
Proof.
  intros Hx Hy Hid.
  apply list_elem_of_lookup in Hx as [i Hi], Hy as [j Hj].
  assert (i = j) as ->.
  { eapply NoDup_lookup; [exact ids_unique| |].
    - change (map id (bfs root)) with (id <$> bfs root).
      rewrite list_lookup_fmap, Hi. reflexivity.
    - change (map id (bfs root)) with (id <$> bfs root).
      rewrite list_lookup_fmap, Hj, Hid. reflexivity. }
  congruence.
Qed.
End ParentMap.

(** ** Ancestor chains *)

Lemma app_size_elem (c : Spiceflow) (l : list Spiceflow) :
  c ∈ l -> app_size c <= queue_size l.
Proof.
  induction 1 as [x l|x y l _ IH]; rewrite queue_size_cons; lia.
Qed.

Lemma is_path_length (t : Spiceflow) (p : list Spiceflow) :
  is_path t p -> length p <= app_size t.
Proof.
  induction 1 as [t|t c p Hc _ IH].
  - rewrite app_size_children. simpl. lia.
  - rewrite app_size_children. simpl.
    apply app_size_elem in Hc. lia.
Qed.

Lemma is_path_head (t : Spiceflow) (p : list Spiceflow) :
  is_path t p -> exists p', p = t :: p'.
Proof. destruct 1; eauto. Qed.

Lemma is_path_last (t : Spiceflow) (p : list Spiceflow) :
  is_path t p -> is_Some (last p).
Proof.
  intros Hp. apply is_path_head in Hp as [p' ->].
  destruct (last (t :: p')) eqn:E; [eauto|].
  apply last_None in E. discriminate.
Qed.

Lemma is_path_bfs (root t : Spiceflow) (p : list Spiceflow) :
  is_path t p -> t ∈ bfs root -> forall x, x ∈ p -> x ∈ bfs root.
Proof.
  induction 1 as [t|t c p Hc _ IH]; intros Ht x Hx.
  - apply list_elem_of_singleton in Hx as ->. assumption.
  - apply elem_of_cons in Hx as [->|Hx]; [assumption|].
    apply IH; [|assumption]. eapply bfs_child; eassumption.
Qed.

(** A node reached by a chain from [t] is listed by [bfs t]. *)
Lemma is_path_last_bfs (t x : Spiceflow) (p : list Spiceflow) :
  is_path t p -> last p = Some x -> x ∈ bfs t.
Proof.
  intros Hp Hl. eapply is_path_bfs; [exact Hp|apply bfs_root|].
  apply list_elem_of_lookup. exists (pred (length p)).
  rewrite <- last_lookup. assumption.
Qed.

Lemma is_path_app (t x : Spiceflow) (p q : list Spiceflow) :
  is_path t p -> last p = Some x -> is_path x q ->
  is_path t (p ++ tail q) /\ last (p ++ tail q) = last q.
Proof.
  intros Hp. revert x q.
  induction Hp as [t|t c p Hc Hp IH]; intros x q Hl Hq.
  - simpl in Hl. injection Hl as <-.
    destruct (is_path_head _ _ Hq) as [q' ->]. simpl. auto.
  - assert (last p = Some x) as Hl'.
    { destruct (is_path_head _ _ Hp) as [p' ->]. exact Hl. }
    destruct (IH x q Hl' Hq) as [IH1 IH2]. split.
    + simpl. econstructor; eassumption.
    + destruct (is_path_head _ _ IH1) as [r Hr].
      simpl. rewrite Hr in *. exact IH2.
Qed.

(** Every node listed by [bfs t] is reached by a chain from [t]. *)
Lemma bfs_loop_is_path (fuel : nat) :
  forall queue x,
    x ∈ bfs_loop fuel queue [] ->
    exists t p, t ∈ queue /\ is_path t p /\ last p = Some x.
Proof.
  induction fuel as [|fuel IH]; intros [|node queue] x Hx; simpl in Hx;
    try (inversion Hx; fail).
  rewrite bfs_loop_acc in Hx. apply elem_of_cons in Hx as [->|Hx].
  - exists node, [node]. split; [apply list_elem_of_here|].
    split; [constructor|reflexivity].
  - apply IH in Hx as (t & p & Ht & Hp & Hl).
    apply elem_of_app in Ht as [Ht|Ht].
    + exists t, p. split; [apply list_elem_of_further; exact Ht|]. auto.
    + exists node, (node :: p). split; [apply list_elem_of_here|].
      split; [econstructor; eassumption|].
      destruct (is_path_head _ _ Hp) as [p' ->]. exact Hl.
Qed.

Lemma bfs_is_path (t x : Spiceflow) :
  x ∈ bfs t -> exists p, is_path t p /\ last p = Some x.
Proof.
  intros Hx. apply bfs_loop_is_path in Hx as (t' & p & Ht & Hp & Hl).
  apply list_elem_of_singleton in Ht as ->. eauto.
Qed.

Lemma on_path_branch (t cur s : Spiceflow) (p : list Spiceflow) :
  is_path t p -> last p = Some cur -> s ∈ p -> cur ∈ bfs s.
Proof.
  induction 1 as [t|t c p Hc Hp IH]; intros Hl Hin.
  - apply list_elem_of_singleton in Hin as ->.
    simpl in Hl. injection Hl as <-. apply bfs_root.
  - apply elem_of_cons in Hin as [->|Hin].
    + eapply is_path_last_bfs; [econstructor; eassumption|exact Hl].
    + apply IH; [|exact Hin].
      destruct (is_path_head _ _ Hp) as [p' ->]. exact Hl.
Qed.

Section Ancestors.
Variable root : Spiceflow.
Hypothesis ids_unique : NoDup (map id (bfs root)).

Let parentMap : gmap nat Spiceflow := (bfsFind root set_parents ∅).1.

(** Walking the parent map upwards from the end of a chain that starts at
    [t] reaches [t] with the rest of the chain collected. *)
Lemma parents_loop_path (t x : Spiceflow) (p : list Spiceflow) :
  is_path t p -> t ∈ bfs root -> last p = Some x ->
  forall fuel acc,
    length p <= fuel ->
    parents_loop fuel parentMap (Some x) acc
    = parents_loop (S fuel - length p) parentMap (Some t) (tail p ++ acc).
Proof.
  induction 1 as [t|t c p Hc Hp IH]; intros Ht Hl fuel acc Hf.
  - simpl in Hl. injection Hl as <-. simpl.
    replace (fuel - 0) with fuel by lia. reflexivity.
  - assert (last p = Some x) as Hl'.
    { destruct (is_path_head _ _ Hp) as [p' ->]. exact Hl. }
    simpl in Hf.
    rewrite IH; [|eapply bfs_child; eassumption|assumption|lia].
    destruct (S fuel - length p) as [|n] eqn:E; [lia|].
    simpl. pose proof (parentMap_child root ids_unique t c Ht Hc) as Hpc.
    fold parentMap in Hpc. rewrite Hpc.
    replace (fuel - length p) with n by lia.
    destruct (is_path_head _ _ Hp) as [p' ->]. reflexivity.
Qed.

(** [getAppAndParents] returns the chain from the root to the node. *)
Lemma getAppAndParents_path (cur : Spiceflow) (p : list Spiceflow) :
  is_path root p -> last p = Some cur ->
  getAppAndParents root (Some cur) = p.
Proof.
  intros Hp Hl. unfold getAppAndParents.
  destruct (Nat.eqb_spec (length (childrenApps root)) 0) as [E|E].
  - inversion Hp as [|t c p' Hc]; subst; [reflexivity|].
    destruct (childrenApps root); [inversion Hc|discriminate].
  - pose proof (is_path_length _ _ Hp) as Hlen.
    rewrite (parents_loop_path root cur p Hp (bfs_root root) Hl)
      by lia.
    destruct (S (S (app_size root)) - length p) as [|n] eqn:E'; [lia|].
    simpl. pose proof (parentMap_root root ids_unique) as Hroot.
    fold parentMap in Hroot. rewrite Hroot. simpl.
    destruct (is_path_head _ _ Hp) as [p' ->]. simpl.
    rewrite app_nil_r. destruct n; reflexivity.
Qed.

(** Chains are unique. *)
Lemma is_path_unique (cur : Spiceflow) (p q : list Spiceflow) :
  is_path root p -> last p = Some cur ->
  is_path root q -> last q = Some cur -> p = q.
Proof.
  intros Hp Hlp Hq Hlq.
  rewrite <- (getAppAndParents_path cur p Hp Hlp).
  apply getAppAndParents_path; assumption.
Qed.

(** An application is on the chain to [cur] exactly when [cur] lies in
    its branch. *)
Lemma on_path_iff_branch (cur s : Spiceflow) (p : list Spiceflow) :
  is_path root p -> last p = Some cur -> s ∈ bfs root ->
  s ∈ p <-> cur ∈ bfs s.
Proof.
  intros Hp Hl Hs. split.
  - intros Hin. eapply on_path_branch; eassumption.
  - intros Hcur.
    apply bfs_is_path in Hs as (p1 & Hp1 & Hl1).
    apply bfs_is_path in Hcur as (p2 & Hp2 & Hl2).
    destruct (is_path_app _ _ _ _ Hp1 Hl1 Hp2) as [Hp3 Hl3].
    rewrite Hl2 in Hl3.
    rewrite (is_path_unique cur p _ Hp Hl Hp3 Hl3).
    apply elem_of_app. left.
    apply list_elem_of_lookup. exists (pred (length p1)).
    rewrite <- last_lookup. assumption.
Qed.
End Ancestors.

(** ** Scope of a matched application *)

Lemma foldl_push_filter (f g : Spiceflow -> bool) (l : list Spiceflow) :
  forall acc,
    foldl (fun appsInScope app =>
             if f app then appsInScope ++ [app]
             else if g app then appsInScope ++ [app]
             else appsInScope) acc l
    = acc ++ List.filter (fun app => f app || g app) l.
Proof.
  induction l as [|x l IH]; intros acc; simpl.
  - rewrite app_nil_r. reflexivity.
  - rewrite IH. destruct (f x), (g x); simpl;
      rewrite <- ?app_assoc; reflexivity.
Qed.

Lemma app_includes_true (apps : list Spiceflow) (app : Spiceflow) :
  app_includes apps app = true <-> exists x, x ∈ apps /\ id x = id app.
Proof.
  unfold app_includes. rewrite existsb_exists. split.
  - intros (x & Hx & E). exists x. split; [apply list_elem_of_In; exact Hx|].
    apply Nat.eqb_eq. exact E.
  - intros (x & Hx & E). exists x. split; [apply list_elem_of_In; exact Hx|].
    apply Nat.eqb_eq. exact E.
Qed.

Lemma filter_ext_elem {A : Type} (f g : A -> bool) (l : list A) :
  (forall x, x ∈ l -> f x = g x) -> List.filter f l = List.filter g l.
Proof.
  induction l as [|x l IH]; intros Hfg; [reflexivity|].
  simpl. rewrite (Hfg x) by apply list_elem_of_here.
  rewrite IH; [reflexivity|].
  intros y Hy. apply Hfg. apply list_elem_of_further. exact Hy.
Qed.

Lemma elem_of_List_filter {A : Type} (f : A -> bool) (l : list A) (x : A) :
  x ∈ List.filter f l <-> x ∈ l /\ f x = true.
Proof.
  rewrite !list_elem_of_In, filter_In. reflexivity.
Qed.

(** The chain of applications that [handle] draws its middlewares and error
    handlers from. *)
Lemma handle_chain `{Serializer} (this : Spiceflow) (request : Request)
    (h : heap) :
  let path := req_pathname request +:+ req_search request in
  let route := match_ this (req_method request) path in
  let appsInScope := getAppsInScope this (Some (m_app route)) in
  handle this request None h
  = next (flat_map middlewares appsInScope)
      (flat_map onErrorHandlers appsInScope) route request
      (defaultState (m_app route) + length h) path
      (length (flat_map middlewares appsInScope) + 2)
      (mkChain 0 None (h ++ map (rebase (length h)) h) false
         (parseQuery (req_searchParams request)) (m_params route) []).
Proof. reflexivity. Qed.

(** C5. For a tree whose applications have distinct identities, the
    applications in scope of a matched application [cur] are the
    applications of the tree, in breadth-first order, that are on the
    ancestor chain from the root to [cur] or have [scoped == false].  Hence
    an application with [scoped: false] is in scope of every application of
    the tree, and any other application is in scope of [cur] exactly when
    [cur] lies in its own branch. *)
Theorem getAppsInScope_spec (root cur : Spiceflow)
    (ancestors : list Spiceflow) :
  NoDup (map id (bfs root)) ->
  is_path root ancestors ->
  last ancestors = Some cur ->
  getAppsInScope root (Some cur)
  = List.filter
      (fun app =>
         bool_decide (scoped app = Some false) || app_includes ancestors app)
      (bfs root)
  /\ (forall s, s ∈ getAppsInScope root (Some cur)
             <-> s ∈ bfs root /\ (scoped s = Some false \/ s ∈ ancestors))
  /\ (forall s, s ∈ bfs root -> scoped s = Some false ->
             s ∈ getAppsInScope root (Some cur))
  /\ (forall s, s ∈ bfs root -> scoped s <> Some false ->
             (s ∈ getAppsInScope root (Some cur) <-> cur ∈ bfs s)).
Proof.
  intros Hnd Hp Hl.
  assert (forall x, x ∈ ancestors -> x ∈ bfs root) as Hsub.
  { intros x. eapply is_path_bfs; [exact Hp|apply bfs_root]. }
  assert (forall s, s ∈ bfs root ->
            app_includes ancestors s = true <-> s ∈ ancestors) as Hinc.
  { intros s Hs. rewrite app_includes_true. split.
    - intros (x & Hx & E).
      rewrite <- (same_id_same_app root Hnd x s); auto.
    - intros Hin. eauto. }
  assert (getAppsInScope root (Some cur)
          = List.filter
              (fun app => bool_decide (scoped app = Some false)
                          || app_includes ancestors app) (bfs root)) as Heq.
  { unfold getAppsInScope.
    destruct (Nat.eqb_spec (length (childrenApps root)) 0) as [E|E].
    - destruct (childrenApps root) eqn:Hc; [|discriminate].
      rewrite (bfs_no_children root Hc).
      inversion Hp as [|t c p' Hc']; subst.
      + simpl. unfold app_includes; simpl. rewrite Nat.eqb_refl.
        rewrite orb_true_r. reflexivity.
      + rewrite Hc in Hc'. inversion Hc'.
    - rewrite foldl_push_filter. simpl.
      rewrite (getAppAndParents_path root Hnd cur ancestors Hp Hl).
      apply filter_ext_elem. intros x Hx. f_equal.
      apply eq_true_iff_eq. rewrite app_includes_true, bool_decide_eq_true.
      split.
      + intros (y & Hy & Eid). apply elem_of_List_filter in Hy as [Hy Hsc].
        rewrite <- (same_id_same_app root Hnd y x); auto.
        apply bool_decide_eq_true in Hsc. exact Hsc.
      + intros Hsc. exists x. split; [|reflexivity].
        apply elem_of_List_filter. split; [exact Hx|].
        apply bool_decide_eq_true. exact Hsc. }
  assert (forall s, s ∈ getAppsInScope root (Some cur)
             <-> s ∈ bfs root /\ (scoped s = Some false \/ s ∈ ancestors))
    as Hmem.
  { intros s. rewrite Heq, elem_of_List_filter, orb_true_iff.
    rewrite bool_decide_eq_true. split.
    - intros [Hs [Hsc|Hin]]; split; auto. right. apply Hinc; assumption.
    - intros [Hs [Hsc|Hin]]; split; auto. right. apply Hinc; assumption. }
  split; [exact Heq|]. split; [exact Hmem|]. split.
  - intros s Hs Hsc. apply Hmem. auto.
  - intros s Hs Hsc. rewrite Hmem.
    rewrite <- (on_path_iff_branch root Hnd cur s ancestors Hp Hl Hs).
    tauto.
Qed.

Lemma getAppsInScope_spec_witness :
  NoDup (map id (bfs app_one))
  /\ is_path app_one [app_one; app_two; app_three]
  /\ last [app_one; app_two; app_three] = Some app_three
  /\ getAppsInScope app_one (Some app_three)
     = [app_one; app_two; app_three; app_four].
Proof.
  assert (NoDup (map id (bfs app_one))) as Hnd.
  { apply (bool_decide_unpack _). vm_compute. exact I. }
  assert (is_path app_one [app_one; app_two; app_three]) as Hp.
  { apply is_path_child with (c := app_two); [apply list_elem_of_here|].
    apply is_path_child with (c := app_three); [apply list_elem_of_here|].
    apply is_path_here. }
  split; [exact Hnd|]. split; [exact Hp|]. split; [reflexivity|].
  rewrite (proj1 (getAppsInScope_spec app_one app_three
                    [app_one; app_two; app_three] Hnd Hp eq_refl)).
  reflexivity.
Defined.

(** ** Matching under nested prefixes *)

Lemma startsWith_app (p r : string) : startsWith (p +:+ r) p = true.
Proof.
  induction p as [|a p IH]; simpl; [reflexivity|].
  rewrite Ascii.eqb_refl. exact IH.
Qed.

Lemma startsWith_inv (p s : string) :
  startsWith s p = true -> exists r, s = p +:+ r.
Proof.
  revert s. induction p as [|a p IH]; intros s Hp.
  - exists s. reflexivity.
  - destruct s as [|b s]; simpl in Hp; [discriminate|].
    apply andb_true_iff in Hp as [Hab Hp].
    apply Ascii.eqb_eq in Hab as ->.
    destruct (IH s Hp) as [r ->]. exists r. reflexivity.
Qed.

Lemma append_eqb_prefix (p r r' : string) :
  String.eqb (p +:+ r) (p +:+ r') = String.eqb r r'.
Proof.
  induction p as [|a p IH]; [reflexivity|].
  change (String a p +:+ r) with (String a (p +:+ r)).
  change (String a p +:+ r') with (String a (p +:+ r')).
  cbn [String.eqb]. rewrite Ascii.eqb_refl. exact IH.
Qed.

Lemma string_drop_app (p r : string) :
  string_drop (String.length p) (p +:+ r) = r.
Proof. induction p as [|a p IH]; simpl; [destruct r|]; auto. Qed.

Lemma replace_first_prefix (p r : string) : replace_first p (p +:+ r) = r.
Proof.
  destruct p as [|a p]; [destruct r; reflexivity|].
  change (String a p +:+ r) with (String a (p +:+ r)).
  cbn [replace_first].
  change (String a (p +:+ r)) with (String a p +:+ r).
  rewrite startsWith_app. apply string_drop_app.
Qed.


(** ** Streaming shortcut *)

Lemma append_assoc (a b c : string) : (a +:+ b) +:+ c = a +:+ b +:+ c.
Proof.
  induction a as [|x a IH]; [reflexivity|].
  change (String x a +:+ b) with (String x (a +:+ b)).
  change (String x (a +:+ b) +:+ c) with (String x ((a +:+ b) +:+ c)).
  rewrite IH. reflexivity.
Qed.

(** C9. When the first pull finds the generator finished with value [v],
    [handleStream] returns at once a response that is not chunked and whose
    whole body is the [message] frame of [v] followed by the [done] frame;
    this holds for every [v], so in particular for a non-empty one. *)
Theorem handleStream_done `{Serializer} (v : jsval) :
  handleStream (VGenerator [] (GenReturn v))
  = Returned
      (mkResponse (VNum 200%Z) ""
         [("Content-Type", "text/event-stream");
          ("Cache-Control", "no-cache")]
         (BodyText
            ("event: message" +:+ newline +:+ "data: "
             +:+ superjsonSerialize v (Some false) +:+ newline +:+ newline
             +:+ "event: done" +:+ newline +:+ newline)))
  /\ forall r, handleStream (VGenerator [] (GenReturn v)) = Returned r ->
       assoc "transfer-encoding" (headers r) = None
       /\ forall chunks, resp_body r <> BodyStream chunks.
Proof.
  assert (handleStream (VGenerator [] (GenReturn v))
          = Returned
              (mkResponse (VNum 200%Z) ""
                 [("Content-Type", "text/event-stream");
                  ("Cache-Control", "no-cache")]
                 (BodyText
                    ("event: message" +:+ newline +:+ "data: "
                     +:+ superjsonSerialize v (Some false) +:+ newline
                     +:+ newline +:+ "event: done" +:+ newline +:+ newline))))
    as E.
  { unfold handleStream, new_Response, message_event. cbn [default].
    rewrite !append_assoc. reflexivity. }
  split; [exact E|].
  intros r Hr. rewrite E in Hr. injection Hr as <-.
  split; [reflexivity|]. intros chunks Hc. discriminate Hc.
Qed.

(** ** Error handlers *)

Lemma log_add_events (e : event) (c : Chain) : log e c = add_events [e] c.
Proof. reflexivity. Qed.

Lemma add_events_app (evs evs' : list event) (c : Chain) :
  add_events evs' (add_events evs c) = add_events (evs ++ evs') c.
Proof. unfold add_events; simpl. rewrite app_assoc. reflexivity. Qed.

Lemma add_events_nil (c : Chain) : add_events [] c = c.
Proof.
  destruct c. unfold add_events; simpl. rewrite app_nil_r. reflexivity.
Qed.

Section ErrorHandlers.
Context `{Serializer}.
Variable err : jsval.
Variable request : Request.

(** Handlers that return a promise are all called, and none of them counts
    as having handled the error. *)
Lemma runErrorHandlers_loop_async (handlers : list OnError) :
  Forall (is_async err request) handlers ->
  forall i c,
    runErrorHandlers_loop handlers i err request c
    = (Returned None,
       add_events (map EvErrorHandler (seq i (length handlers))) c).
Proof.
  induction 1 as [|handler handlers [settles Hh] _ IH]; intros i c.
  - simpl. rewrite add_events_nil. reflexivity.
  - simpl. rewrite Hh, IH, log_add_events, add_events_app. reflexivity.
Qed.

(** The loop stops at the first handler that returns a [Response] at
    once. *)
Lemma runErrorHandlers_loop_sync (asyncs rest : list OnError)
    (handler : OnError) (res : Response) :
  Forall (is_async err request) asyncs ->
  handler err request = EHResponse res ->
  forall i c,
    runErrorHandlers_loop (asyncs ++ handler :: rest) i err request c
    = (Returned (Some res),
       add_events (map EvErrorHandler (seq i (S (length asyncs)))) c).
Proof.
  intros Ha Hh. induction Ha as [|a asyncs [settles Has] _ IH]; intros i c.
  - simpl. rewrite Hh. reflexivity.
  - cbn [app runErrorHandlers_loop]. rewrite Has, IH.
    rewrite log_add_events, add_events_app. reflexivity.
Qed.

End ErrorHandlers.


(** ** The chain always returns *)

Lemma advances_refl (c : Chain) : advances c c.
Proof. split; auto. Qed.

Lemma advances_trans (c1 c2 c3 : Chain) :
  advances c1 c2 -> advances c2 c3 -> advances c1 c3.
Proof. intros [H1 H2] [H3 H4]. split; [lia|auto]. Qed.

Lemma advances_rounds (mws : list MiddlewareHandler) (c c' : Chain) :
  advances c c' -> rounds mws c' <= rounds mws c.
Proof.
  intros [Hi Hr]. unfold rounds.
  destruct (handlerResponse c), (handlerResponse c'); try lia.
  exfalso. apply Hr; [discriminate|reflexivity].
Qed.

Lemma progresses_trans {A : Type} (c c1 : Chain)
    (result : option (completion A * Chain)) :
  advances c c1 -> progresses c1 result -> progresses c result.
Proof.
  intros Hle (o & c' & -> & Hc'). exists o, c'. split; [reflexivity|].
  eapply advances_trans; eassumption.
Qed.

Lemma progresses_here {A : Type} (c : Chain) (o : completion A) :
  progresses c (Some (o, c)).
Proof. exists o, c. split; [reflexivity|apply advances_refl]. Qed.

Section Termination.
Context `{Serializer}.
Variable mws : list MiddlewareHandler.
Variable ehs : list OnError.
Variable route : MatchResult.
Variable request : Request.
Variable state : loc.
Variable path : string.

Local Abbreviation next_ := (next mws ehs route request state path).
Local Abbreviation run_ := (run route request state).
Local Abbreviation rounds_ := (rounds mws).

Lemma run_progresses (nxt : Chain -> option (completion Response * Chain))
    (n : nat) :
  (forall c, rounds_ c <= n -> progresses c (nxt c)) ->
  forall p c, rounds_ c <= n -> progresses c (run_ nxt p c).
Proof.
  intros Hnxt.
  induction p as [v|e|k IH|spath key v k IH|spath key k IH|k IH
                 |body IHb h IHh k IHk];
    intros c Hc; cbn [run]; try apply progresses_here.
  - destruct (Hnxt c Hc) as (o & c' & -> & Hc').
    destruct o as [r|e].
    + eapply progresses_trans; [exact Hc'|]. apply IH.
      pose proof (advances_rounds mws _ _ Hc'). lia.
    + exists (Threw e), c'. auto.
  - destruct (heap_write (c_heap c) state spath key v) as [h'|];
      [|apply progresses_here].
    eapply progresses_trans; [|apply IH; exact Hc].
    split; simpl; auto.
  - destruct (heap_read (c_heap c) state spath key) as [x|];
      [|apply progresses_here].
    apply IH. exact Hc.
  - unfold request_json.
    destruct (bodyUsed c); [apply progresses_here|].
    assert (advances c (set_bodyUsed c)) as Ha by (split; simpl; auto).
    destruct (req_json request) as [body|e].
    + destruct (runValidation body (validateBody (m_route route))) as [v|e].
      * eapply progresses_trans; [exact Ha|apply IH; exact Hc].
      * eexists _, _. split; [reflexivity|exact Ha].
    + eexists _, _. split; [reflexivity|exact Ha].
  - destruct (IHb c Hc) as (o & c' & -> & Hc').
    pose proof (advances_rounds mws _ _ Hc') as Hr.
    eapply progresses_trans; [exact Hc'|].
    destruct o as [v|e]; [apply IHk|apply IHh]; lia.
Qed.

(** The handler part returns; it throws only when no response is
    stored. *)
Lemma next_handler_progresses (c : Chain) :
  exists o c', next_handler route request state path c = Some (o, c')
               /\ advances c c'
               /\ (forall e, o = Threw e -> handlerResponse c = None).
Proof.
  unfold next_handler.
  destruct (handlerResponse c) as [r|] eqn:Hr.
  { eexists _, c. split; [reflexivity|]. split; [apply advances_refl|].
    discriminate. }
  assert (forall c', index c <= index c' -> advances c c') as Hadv.
  { intros c' Hi. split; [exact Hi|]. rewrite Hr. congruence. }
  destruct (runValidation (c_query c) (validateQuery (m_route route)))
    as [q|e]; [|eexists _, c; auto].
  destruct (runValidation (c_params (set_query q c))
              (validateParams (m_route route))) as [ps|e].
  2:{ eexists _, _. split; [reflexivity|]. auto. }
  set (c1 := log EvHandler (set_params ps (set_query q c))).
  destruct (run_progresses no_next (rounds_ c1)
              (fun c _ => progresses_here c _)
              (route_handler (m_route route) (context_of request state path c1))
              c1 (le_n _)) as (o & c2 & -> & Hc2).
  assert (index c <= index c2) as Hi by apply Hc2.
  destruct o as [res|e]; [|eexists _, c2; auto].
  destruct (if isAsyncIterable res then handleStream res
            else turnHandlerResultIntoResponse res (m_route route)) as [r|e];
    eexists _, _; (split; [reflexivity|]); auto.
Qed.

Lemma runErrorHandlers_loop_events (handlers : list OnError) (err : jsval) :
  forall i c, exists evs,
    (runErrorHandlers_loop handlers i err request c).2 = add_events evs c
    /\ Forall (fun e => is_call e = false) evs.
Proof.
  induction handlers as [|h hs IH]; intros i c; simpl.
  - exists []. rewrite add_events_nil. auto.
  - destruct (h err request).
    + exists [EvErrorHandler i]. auto.
    + destruct (IH (S i) (log (EvErrorHandler i) c)) as (evs & -> & Hevs).
      eexists. rewrite log_add_events, add_events_app.
      split; [reflexivity|]. constructor; auto.
    + destruct (IH (S i) (log (EvErrorHandler i) c)) as (evs & -> & Hevs).
      eexists. rewrite log_add_events, add_events_app.
      split; [reflexivity|]. constructor; auto.
    + exists [EvErrorHandler i]. auto.
Qed.

(** [getResForError] changes nothing but the record of calls, to which it
    adds calls of error handlers and of [console.error] only. *)
Lemma getResForError_events (err : jsval) (c : Chain) :
  exists evs, (getResForError ehs request err c).2 = add_events evs c
              /\ Forall (fun e => is_call e = false) evs.
Proof.
  assert (exists evs, (runErrorHandlers ehs err request c).2 = add_events evs c
                      /\ Forall (fun e => is_call e = false) evs)
    as (evs & Hevs & Hcalls).
  { unfold runErrorHandlers. destruct (Nat.eqb (length ehs) 0).
    - eexists. rewrite log_add_events. split; [reflexivity|]. auto.
    - apply runErrorHandlers_loop_events. }
  unfold getResForError.
  destruct (runErrorHandlers ehs err request c) as [[[r|]|e] c'];
    simpl in Hevs; subst c';
    destruct err; simpl; eauto; exists []; rewrite add_events_nil; auto.
Qed.

Lemma catch_next_progresses
    (retry : Chain -> option (completion Response * Chain)) (fuel : nat)
    (c : Chain) (attempt : option (completion Response * Chain)) :
  (forall c', rounds_ c' <= fuel -> progresses c' (retry c')) ->
  (exists o c1, attempt = Some (o, c1) /\ advances c c1
                /\ (forall e, o = Threw e ->
                       length mws - index c1 + 1 <= fuel)) ->
  progresses c (catch_next ehs request retry attempt).
Proof.
  intros Hretry (o & c1 & -> & Hc1 & Hthrow). unfold catch_next.
  destruct o as [r|err]; [exists (Returned r), c1; auto|].
  destruct (getResForError_events err c1) as (evs & Hevs & _).
  destruct (getResForError ehs request err c1) as [[res|e] c2];
    simpl in Hevs; subst c2.
  - eapply progresses_trans; [|apply Hretry].
    + eapply advances_trans; [exact Hc1|]. split; simpl; [lia|discriminate].
    + unfold rounds; simpl. eapply Hthrow. reflexivity.
  - eexists _, _. split; [reflexivity|].
    eapply advances_trans; [exact Hc1|]. split; simpl; auto.
Qed.

(** With [rounds] rounds of fuel, [next] returns. *)
Lemma next_progresses (fuel : nat) :
  forall c, rounds_ c <= fuel -> progresses c (next_ fuel c).
Proof.
  induction fuel as [|fuel IH]; intros c Hc.
  { unfold rounds in Hc. destruct (handlerResponse c); lia. }
  cbn [next]. apply (catch_next_progresses _ fuel); [exact IH|].
  destruct (mws !! index c) as [middleware|] eqn:Hm.
  2:{ apply lookup_ge_None in Hm.
      destruct (next_handler_progresses c) as (o & c' & -> & Ha & Ht).
      exists o, c'. split; [reflexivity|]. split; [exact Ha|].
      intros e ->. specialize (Ht e eq_refl).
      unfold rounds in Hc. rewrite Ht in Hc.
      assert (index c <= index c') by apply Ha. lia. }
  apply lookup_lt_Some in Hm.
  set (c1 := log (EvMiddleware (index c)) (set_index (S (index c)) c)).
  assert (advances c c1) as Hc1 by (split; simpl; [lia|auto]).
  assert (rounds_ c1 <= fuel) as Hr1.
  { unfold rounds, c1 in *; simpl. destruct (handlerResponse c); lia. }
  assert (forall c', advances c1 c' -> length mws - index c' + 1 <= fuel)
    as Hlate.
  { intros c' [Hi _]. unfold c1 in Hi; simpl in Hi. unfold rounds in Hc.
    destruct (handlerResponse c); lia. }
  destruct (run_progresses (next_ fuel) fuel IH
              (middleware (context_of request state path c1)) c1 Hr1)
    as (o & c2 & -> & Hc2).
  destruct o as [result|e].
  2:{ exists (Threw e), c2. split; [reflexivity|].
      split; [exact (advances_trans _ _ _ Hc1 Hc2)|]. intros _ _.
      apply Hlate. exact Hc2. }
  set (c3 := match result with
             | VResponse r => set_handlerResponse r c2
             | _ => c2
             end).
  assert (advances c2 c3) as Hc3.
  { subst c3. destruct result; try apply advances_refl.
    split; simpl; [lia|discriminate]. }
  pose proof (advances_trans _ _ _ Hc2 Hc3) as Hc13.
  pose proof (advances_trans _ _ _ Hc1 Hc13) as Hc03.
  destruct (negb (truthy result) && Nat.ltb (index c3) (length mws)).
  - destruct (IH c3) as (o & c4 & -> & Hc4).
    { pose proof (advances_rounds mws _ _ Hc13). lia. }
    exists o, c4. split; [reflexivity|].
    split; [exact (advances_trans _ _ _ Hc03 Hc4)|]. intros _ _.
    apply Hlate. exact (advances_trans _ _ _ Hc13 Hc4).
  - destruct (truthy result).
    + eexists _, c3. split; [reflexivity|]. split; [exact Hc03|].
      intros _ _. apply Hlate. exact Hc13.
    + destruct (next_handler_progresses c3) as (o & c4 & -> & Hc4 & _).
      exists o, c4. split; [reflexivity|].
      split; [exact (advances_trans _ _ _ Hc03 Hc4)|]. intros _ _.
      apply Hlate. exact (advances_trans _ _ _ Hc13 Hc4).
Qed.
End Termination.

(** [handle] always returns. *)
Lemma handle_returns `{Serializer} (this : Spiceflow) (request : Request)
    (customState : option loc) (h : heap) :
  exists o c, handle this request customState h = Some (o, c).
Proof.
  unfold handle.
  edestruct next_progresses as (o & c & E & _); [|exists o, c; exact E].
  unfold rounds; simpl. lia.
Qed.

(** ** Invariants of the chain *)

Ltac chain_simpl :=
  cbn [index handlerResponse c_heap bodyUsed c_query c_params trace
       set_index set_handlerResponse set_heap set_bodyUsed set_query
       set_params log add_events] in *.

Section ChainInvariant.
Context `{Serializer}.
Variable mws : list MiddlewareHandler.
Variable ehs : list OnError.
Variable route : MatchResult.
Variable request : Request.
Variable state : loc.
Variable path : string.

(** [P] holds when [next] is entered and when it returns a response, [Q]
    when it rejects, [D] while the route handler runs. *)
Variables P Q D : Chain -> Prop.

Hypothesis P_Q : forall c, P c -> Q c.
Hypothesis P_write : forall c spath key v h',
  P c -> heap_write (c_heap c) state spath key v = Some h' ->
  P (set_heap h' c).
Hypothesis P_bodyUsed : forall c, P c -> P (set_bodyUsed c).
Hypothesis P_response : forall c r, P c -> P (set_handlerResponse r c).
Hypothesis P_middleware : forall c middleware,
  P c -> mws !! index c = Some middleware ->
  P (log (EvMiddleware (index c)) (set_index (S (index c)) c)).
Hypothesis P_query : forall c q,
  P c -> handlerResponse c = None -> Q (set_query q c).
Hypothesis P_handler : forall c q ps,
  P c -> handlerResponse c = None ->
  D (log EvHandler (set_params ps (set_query q c))).
Hypothesis D_write : forall c spath key v h',
  D c -> heap_write (c_heap c) state spath key v = Some h' ->
  D (set_heap h' c).
Hypothesis D_bodyUsed : forall c, D c -> D (set_bodyUsed c).
Hypothesis D_response : forall c r, D c -> P (set_handlerResponse r c).
Hypothesis D_Q : forall c, D c -> Q c.
Hypothesis Q_events : forall c evs,
  Q c -> Forall (fun e => is_call e = false) evs -> Q (add_events evs c).
Hypothesis Q_catch : forall c r, Q c -> P (set_handlerResponse r c).

(** A rejection of [next()] leaves the chain in a [Q] state: a middleware
    may catch it only if [next()] can be entered from there. *)
Hypothesis catch_safe :
  Forall (fun m => forall ctx, propagates (m ctx)) mws
  \/ (forall c, Q c -> P c).

Lemma run_invariant (I J : Chain -> Prop)
    (nxt : Chain -> option (completion Response * Chain)) :
  (forall c, I c -> J c) ->
  (forall c spath key v h',
     I c -> heap_write (c_heap c) state spath key v = Some h' ->
     I (set_heap h' c)) ->
  (forall c, I c -> I (set_bodyUsed c)) ->
  (forall c, I c -> holds_after I J (nxt c)) ->
  forall p, propagates p \/ (forall c, J c -> I c) ->
  forall c, I c -> holds_after I J (run route request state nxt p c).
Proof.
  intros HIJ Hwrite Hbody Hnxt.
  assert (forall p q : prog,
            propagates p \/ (forall c, J c -> I c) ->
            (propagates p -> propagates q) ->
            propagates q \/ (forall c, J c -> I c)) as Hsub.
  { intros p q [Hp|HJI] Hpq; [left; apply Hpq; exact Hp|right; exact HJI]. }
  induction p as [v|e|k IH|spath key v k IH|spath key k IH|k IH
                 |body IHb h IHh k IHk];
    intros Hp c Hc o c' E; cbn [run] in E.
  - injection E as <- <-. exact Hc.
  - injection E as <- <-. apply HIJ. exact Hc.
  - destruct (nxt c) as [[[r|e] c1]|] eqn:En; [| |discriminate].
    + eapply IH; [|exact (Hnxt c Hc _ _ En)|exact E].
      apply (Hsub _ _ Hp). intros Hk. apply Hk.
    + injection E as <- <-. exact (Hnxt c Hc _ _ En).
  - destruct (heap_write (c_heap c) state spath key v) as [h'|] eqn:Ew.
    + eapply IH; [|eapply Hwrite; eassumption|exact E].
      apply (Hsub _ _ Hp). intros Hk. apply Hk.
    + injection E as <- <-. apply HIJ. exact Hc.
  - destruct (heap_read (c_heap c) state spath key) as [x|].
    + eapply IH; [|exact Hc|exact E].
      apply (Hsub _ _ Hp). intros Hk. apply Hk.
    + injection E as <- <-. apply HIJ. exact Hc.
  - unfold request_json in E. destruct (bodyUsed c).
    { injection E as <- <-. apply HIJ. exact Hc. }
    destruct (req_json request) as [body|e].
    + destruct (runValidation body (validateBody (m_route route))) as [v|e].
      * eapply IH; [|apply Hbody; exact Hc|exact E].
        apply (Hsub _ _ Hp). intros Hk. apply Hk.
      * injection E as <- <-. apply HIJ, Hbody. exact Hc.
    + injection E as <- <-. apply HIJ, Hbody. exact Hc.
  - destruct Hp as [[]|HJI].
    destruct (run route request state nxt body c) as [[[v|e] c1]|] eqn:Eb;
      [| |discriminate].
    + eapply IHk; [right; exact HJI| |exact E].
      exact (IHb (or_intror HJI) c Hc _ _ Eb).
    + eapply IHh; [right; exact HJI| |exact E].
      apply HJI. exact (IHb (or_intror HJI) c Hc _ _ Eb).
Qed.

Lemma next_handler_invariant (c : Chain) :
  P c -> holds_after P Q (next_handler route request state path c).
Proof.
  intros Hc o c' E. unfold next_handler in E.
  destruct (handlerResponse c) as [r|] eqn:Hr.
  { injection E as <- <-. exact Hc. }
  destruct (runValidation (c_query c) (validateQuery (m_route route)))
    as [q|e].
  2:{ injection E as <- <-. apply P_Q. exact Hc. }
  destruct (runValidation (c_params (set_query q c))
              (validateParams (m_route route))) as [ps|e].
  2:{ injection E as <- <-. apply P_query; assumption. }
  set (c1 := log EvHandler (set_params ps (set_query q c))) in E.
  assert (D c1) as Hc1 by (apply P_handler; assumption).
  destruct (run route request state no_next
              (route_handler (m_route route) (context_of request state path c1))
              c1) as [[[res|e] c2]|] eqn:Er; [| |discriminate].
  - assert (D c2) as Hc2.
    { refine (run_invariant D D no_next (fun _ x => x) D_write D_bodyUsed _
                _ (or_intror (fun _ x => x)) c1 Hc1 _ _ Er).
      intros c0 Hc0 o0 c0' E0. injection E0 as <- <-. exact Hc0. }
    destruct (if isAsyncIterable res then handleStream res
              else turnHandlerResultIntoResponse res (m_route route)) as [r|e];
      injection E as <- <-; auto.
  - assert (D c2) as Hc2.
    { refine (run_invariant D D no_next (fun _ x => x) D_write D_bodyUsed _
                _ (or_intror (fun _ x => x)) c1 Hc1 _ _ Er).
      intros c0 Hc0 o0 c0' E0. injection E0 as <- <-. exact Hc0. }
    injection E as <- <-. auto.
Qed.

Lemma catch_next_invariant
    (retry : Chain -> option (completion Response * Chain))
    (attempt : option (completion Response * Chain)) :
  (forall c, P c -> holds_after P Q (retry c)) ->
  holds_after P Q attempt ->
  holds_after P Q (catch_next ehs request retry attempt).
Proof.
  intros Hretry Hattempt o c' E. unfold catch_next in E.
  destruct attempt as [[[r|err] c1]|]; [| |discriminate].
  - injection E as <- <-. exact (Hattempt _ _ eq_refl).
  - pose proof (Hattempt _ _ eq_refl) as Hc1. simpl in Hc1.
    destruct (getResForError_events ehs request err c1)
      as (evs & Hevs & Hcalls).
    destruct (getResForError ehs request err c1) as [[res|e] c2];
      simpl in Hevs; subst c2.
    + eapply Hretry; [|exact E]. apply Q_catch, Q_events; assumption.
    + injection E as <- <-. apply Q_events; assumption.
Qed.

(** The invariant is kept by [next]. *)
Lemma next_invariant (fuel : nat) :
  forall c,
    P c -> holds_after P Q (next mws ehs route request state path fuel c).
Proof.
  induction fuel as [|fuel IH]; intros c Hc; [intros o c' E; discriminate|].
  cbn [next]. apply catch_next_invariant; [exact IH|].
  destruct (mws !! index c) as [middleware|] eqn:Hm;
    [|apply next_handler_invariant; exact Hc].
  set (c1 := log (EvMiddleware (index c)) (set_index (S (index c)) c)).
  assert (P c1) as Hc1 by (eapply P_middleware; eassumption).
  assert (forall ctx, propagates (middleware ctx) \/ (forall c, Q c -> P c))
    as Hcatch.
  { intros ctx. destruct catch_safe as [Hmws|HQP]; [left|right; exact HQP].
    rewrite Forall_forall in Hmws. apply Hmws.
    apply list_elem_of_lookup. eauto. }
  intros o c' E.
  destruct (run route request state (next mws ehs route request state path fuel)
              (middleware (context_of request state path c1)) c1)
    as [[[result|e] c2]|] eqn:Er; [| |discriminate].
  - pose proof (run_invariant P Q _ P_Q P_write P_bodyUsed IH _ (Hcatch _)
                  c1 Hc1 _ _ Er) as Hc2.
    simpl in Hc2.
    set (c3 := match result with
               | VResponse r => set_handlerResponse r c2
               | _ => c2
               end) in E.
    assert (P c3) as Hc3.
    { subst c3. destruct result; auto. }
    destruct (negb (truthy result) && Nat.ltb (index c3) (length mws)).
    + exact (IH c3 Hc3 _ _ E).
    + destruct (truthy result).
      * injection E as <- <-.
        destruct (turnHandlerResultIntoResponse result (m_route route)); auto.
      * exact (next_handler_invariant c3 Hc3 _ _ E).
  - pose proof (run_invariant P Q _ P_Q P_write P_bodyUsed IH _ (Hcatch _)
                  c1 Hc1 _ _ Er) as Hc2.
    simpl in Hc2.
    injection E as <- <-. exact Hc2.
Qed.
End ChainInvariant.

(** ** Each middleware and the handler at most once *)

Lemma middleware_calls_app (t1 t2 : list event) :
  middleware_calls (t1 ++ t2) = middleware_calls t1 ++ middleware_calls t2.
Proof. unfold middleware_calls. apply flat_map_app. Qed.

Lemma handler_calls_app (t1 t2 : list event) :
  handler_calls (t1 ++ t2) = handler_calls t1 + handler_calls t2.
Proof.
  unfold handler_calls. rewrite List.filter_app, length_app. reflexivity.
Qed.

Lemma calls_app (t1 t2 : list event) : calls (t1 ++ t2) = calls t1 ++ calls t2.
Proof. apply List.filter_app. Qed.

Lemma no_calls (evs : list event) :
  Forall (fun e => is_call e = false) evs ->
  middleware_calls evs = [] /\ handler_calls evs = 0 /\ calls evs = [].
Proof.
  induction 1 as [|e evs He _ (IH1 & IH2 & IH3)]; [auto|].
  destruct e; try discriminate He; unfold handler_calls, calls in *; simpl;
    auto.
Qed.

Lemma next_called_once `{Serializer} (mws : list MiddlewareHandler)
    (ehs : list OnError) (route : MatchResult) (request : Request)
    (state : loc) (path : string) (fuel : nat) (c : Chain) :
  Forall (fun m => forall ctx, propagates (m ctx)) mws ->
  called_once mws c ->
  holds_after (called_once mws) (called_at_most_once mws)
    (next mws ehs route request state path fuel c).
Proof.
  intros Hmws.
  apply (next_invariant mws ehs route request state path
           (called_once mws) (called_at_most_once mws) (handler_running mws));
    [..|left; exact Hmws];
    unfold called_once, called_at_most_once, handler_running,
      middlewares_in_order; chain_simpl;
    try solve [intros; intuition (auto; try lia; try discriminate;
                                  try congruence)].
  - intros c0 m [[Hm Hi] Hh] Hl. apply lookup_lt_Some in Hl.
    rewrite middleware_calls_app, handler_calls_app, Hm, seq_S. simpl.
    rewrite Nat.add_0_r. split; [split; [reflexivity|lia]|exact Hh].
  - intros c0 q ps [[Hm Hi] [Hh|[_ Hr]]] Hn; [|congruence].
    rewrite middleware_calls_app, handler_calls_app, Hh. simpl.
    rewrite app_nil_r. auto.
  - intros c0 evs [[Hm Hi] Hh] Hevs.
    destruct (no_calls evs Hevs) as (E1 & E2 & _).
    rewrite middleware_calls_app, handler_calls_app, E1, E2, app_nil_r.
    split; [auto|lia].
  - intros c0 r [Hm Hh]. split; [auto|].
    destruct (handler_calls (trace c0)) as [|[|n]] eqn:E; [auto| |lia].
    right. split; [reflexivity|discriminate].
Qed.

(** Once a response is stored and the middlewares are exhausted, [next]
    hands the stored response back and calls nothing. *)
Lemma next_reuses_response `{Serializer} (mws : list MiddlewareHandler)
    (ehs : list OnError) (route : MatchResult) (request : Request)
    (state : loc) (path : string) (fuel : nat) (c : Chain) (r : Response) :
  mws !! index c = None -> handlerResponse c = Some r ->
  next mws ehs route request state path (S fuel) c = Some (Returned r, c).
Proof.
  intros Hi Hr. cbn [next]. rewrite Hi. unfold next_handler. rewrite Hr.
  reflexivity.
Qed.




(** The proviso on the middlewares is needed: when the route handler
    throws and the error handler throws in turn, [next()] rejects before a
    response is stored; a middleware that catches the rejection and calls
    [next()] again makes the route handler run a second time. *)
Lemma caught_rejection_reruns_handler :
  exists e c,
    handle (H := example_serialize) retrying_app (get_request "/test")
      None [[]] = Some (Threw e, c)
    /\ handlerResponse c = None
    /\ calls (trace c) = [EvMiddleware 0; EvHandler; EvHandler]
    /\ handler_calls (trace c) = 2.
Proof.
  eexists _, _. split; [vm_compute; reflexivity|].
  split; [reflexivity|]. split; reflexivity.
Qed.

(** ** Isolation of the per-request state *)

Lemma assoc_In {A : Type} (k : string) (l : list (string * A)) (v : A) :
  assoc k l = Some v -> In (k, v) l.
Proof.
  induction l as [|[k' v'] l IH]; simpl; [discriminate|].
  destruct (String.eqb_spec k k') as [->|_].
  - intros [= ->]. left. reflexivity.
  - intros E. right. apply IH. exact E.
Qed.

Lemma assoc_rebase (n : nat) (k : string) (o : sobject) :
  assoc k (rebase n o) = rebase_sval n <$> assoc k o.
Proof.
  induction o as [|[k' v'] o IH]; simpl; [reflexivity|].
  destruct (String.eqb k k'); [reflexivity|exact IH].
Qed.

Lemma assoc_set_ref (k key : string) (v : jsval) (o : sobject) (l : loc) :
  assoc k (assoc_set key (SVal v) o) = Some (SRef l) ->
  assoc k o = Some (SRef l).
Proof.
  induction o as [|[k' v'] o IH]; simpl.
  - destruct (String.eqb k key); discriminate.
  - destruct (String.eqb_spec key k') as [->|Hne]; simpl.
    + destruct (String.eqb k k'); [discriminate|auto].
    + destruct (String.eqb k k'); auto.
Qed.

Lemma heap_closedb_spec (h : heap) (l : loc) (o : sobject) (k : string)
    (l' : loc) :
  heap_closedb h = true ->
  h !! l = Some o -> assoc k o = Some (SRef l') -> l' < length h.
Proof.
  unfold heap_closedb. rewrite forallb_forall. intros Hh Hl Hk.
  assert (In o h) as Ho.
  { apply list_elem_of_In, list_elem_of_lookup. eauto. }
  specialize (Hh o Ho). rewrite forallb_forall in Hh.
  specialize (Hh _ (assoc_In _ _ _ Hk)). simpl in Hh.
  apply Nat.ltb_lt. exact Hh.
Qed.

Lemma clone_lookup (h : heap) (l : loc) :
  (h ++ map (rebase (length h)) h) !! (l + length h)
  = rebase (length h) <$> h !! l.
Proof.
  rewrite lookup_app_r by lia.
  replace (l + length h - length h) with l by lia.
  apply list_lookup_fmap.
Qed.

Lemma clone_resolve (h : heap) (spath : list string) :
  forall l,
    resolve (h ++ map (rebase (length h)) h) (l + length h) spath
    = (fun x => x + length h) <$> resolve h l spath.
Proof.
  induction spath as [|k spath IH]; intros l; [reflexivity|].
  cbn [resolve]. rewrite clone_lookup.
  destruct (h !! l) as [o|]; [|reflexivity]. simpl.
  rewrite assoc_rebase. destruct (assoc k o) as [[v|l']|]; try reflexivity.
  simpl. apply IH.
Qed.

(** The clone reads like the original. *)
Lemma clone_read (h : heap) (l : loc) (spath : list string) (key : string) :
  heap_read (cloneDeep h l).1 (cloneDeep h l).2 spath key
  = heap_read h l spath key.
Proof.
  unfold heap_read, cloneDeep. cbn [fst snd]. rewrite clone_resolve.
  destruct (resolve h l spath) as [l'|]; [|reflexivity]. simpl.
  rewrite clone_lookup. destruct (h !! l') as [o|]; [|reflexivity]. simpl.
  rewrite assoc_rebase. destruct (assoc key o) as [[v|l'']|]; reflexivity.
Qed.

Lemma clone_fresh_closed (h : heap) :
  fresh_closed (length h) (h ++ map (rebase (length h)) h).
Proof.
  intros l o k l' Hl Ho Hk.
  rewrite lookup_app_r in Ho by exact Hl.
  change (map (rebase (length h)) h) with (rebase (length h) <$> h) in Ho.
  rewrite list_lookup_fmap in Ho.
  destruct (h !! (l - length h)) as [o'|]; [|discriminate].
  injection Ho as <-. rewrite assoc_rebase in Hk.
  destruct (assoc k o') as [[v|l'']|]; try discriminate.
  injection Hk as <-. lia.
Qed.

Lemma resolve_fresh (n : nat) (h : heap) (spath : list string) :
  fresh_closed n h ->
  forall l l', n <= l -> resolve h l spath = Some l' -> n <= l'.
Proof.
  intros Hh. induction spath as [|k spath IH]; intros l l' Hl E.
  - injection E as <-. exact Hl.
  - cbn [resolve] in E. destruct (h !! l) as [o|] eqn:Ho; [|discriminate].
    destruct (assoc k o) as [[v|l'']|] eqn:Hk; try discriminate.
    eapply IH; [|exact E]. eapply Hh; eassumption.
Qed.

(** A store that still begins with a closed store [h] reads like [h] from
    the locations of [h]. *)
Lemma resolve_old (h h' : heap) (spath : list string) :
  heap_closedb h = true -> take (length h) h' = h ->
  forall l, l < length h -> resolve h' l spath = resolve h l spath.
Proof.
  intros Hh Ht. induction spath as [|k spath IH]; intros l Hl; [reflexivity|].
  cbn [resolve].
  assert (h' !! l = h !! l) as ->.
  { rewrite <- (lookup_take_lt h' (length h) l Hl), Ht. reflexivity. }
  destruct (h !! l) as [o|] eqn:Ho; [|reflexivity].
  destruct (assoc k o) as [[v|l']|] eqn:Hk; try reflexivity.
  apply IH. eapply heap_closedb_spec; eassumption.
Qed.

Lemma read_old (h h' : heap) (l : loc) (spath : list string) (key : string) :
  heap_closedb h = true -> take (length h) h' = h -> l < length h ->
  heap_read h' l spath key = heap_read h l spath key.
Proof.
  intros Hh Ht Hl. unfold heap_read.
  rewrite (resolve_old h h' spath Hh Ht l Hl).
  destruct (resolve h l spath) as [l'|] eqn:E; [|reflexivity].
  assert (l' < length h) as Hl'.
  { clear -Hh Hl E. revert l Hl E.
    induction spath as [|k spath IH]; intros l Hl E.
    - injection E as <-. exact Hl.
    - cbn [resolve] in E. destruct (h !! l) as [o|] eqn:Ho; [|discriminate].
      destruct (assoc k o) as [[v|l'']|] eqn:Hk; try discriminate.
      eapply IH; [|exact E]. eapply heap_closedb_spec; eassumption. }
  assert (h' !! l' = h !! l') as ->; [|reflexivity].
  rewrite <- (lookup_take_lt h' (length h) l' Hl'), Ht. reflexivity.
Qed.

Lemma isolated_write (h0 : heap) (state : loc) (c : Chain)
    (spath : list string) (key : string) (v : jsval) (h' : heap) :
  isolated h0 state c ->
  heap_write (c_heap c) state spath key v = Some h' ->
  isolated h0 state (set_heap h' c).
Proof.
  intros (Ht & Hc & Hs) E. unfold heap_write in E.
  destruct (resolve (c_heap c) state spath) as [l|] eqn:Er; [|discriminate].
  pose proof (resolve_fresh _ _ _ Hc _ _ Hs Er) as Hl.
  destruct (c_heap c !! l) as [o|] eqn:Ho; [|discriminate].
  injection E as <-. unfold isolated; chain_simpl.
  split; [|split; [|exact Hs]].
  - rewrite take_insert_ge by exact Hl. exact Ht.
  - intros l1 o1 k l2 Hl1 Ho1 Hk.
    destruct (decide (l = l1)) as [<-|Hne].
    + rewrite list_lookup_insert_eq in Ho1
        by (apply lookup_lt_Some in Ho; exact Ho).
      injection Ho1 as <-. apply assoc_set_ref in Hk.
      eapply Hc; eassumption.
    + rewrite list_lookup_insert_ne in Ho1 by exact Hne.
      eapply Hc; eassumption.
Qed.

Lemma next_isolated `{Serializer} (mws : list MiddlewareHandler)
    (ehs : list OnError) (route : MatchResult) (request : Request)
    (state : loc) (path : string) (h0 : heap) (fuel : nat) (c : Chain) :
  isolated h0 state c ->
  holds_after (isolated h0 state) (isolated h0 state)
    (next mws ehs route request state path fuel c).
Proof.
  apply (next_invariant mws ehs route request state path
           (isolated h0 state) (isolated h0 state) (isolated h0 state));
    try (intros; eapply isolated_write; eassumption); auto.
Qed.

(** C3. Without an explicit [state] option, the state of the request is a
    copy of the matched application's [defaultState] made of objects that
    are new: it reads like [defaultState], at every depth; whatever the
    middlewares and the handler write through [context.state], the store
    that existed before the call, [defaultState] included, is unchanged;
    and the state that any later [handle] call starts from again reads
    like the [defaultState] of before the first call. *)
Theorem state_is_isolated `{Serializer} (this : Spiceflow)
    (request : Request) (h : heap) :
  let route := match_ this (req_method request)
                 (req_pathname request +:+ req_search request) in
  let init := initial_state (m_app route) None h in
  (forall spath key,
     heap_read init.1 init.2 spath key
     = heap_read h (defaultState (m_app route)) spath key)
  /\ length h <= init.2
  /\ fresh_closed (length h) init.1
  /\ exists o c,
       handle this request None h = Some (o, c)
       /\ take (length h) (c_heap c) = h
       /\ forall app' spath key,
            heap_closedb h = true -> defaultState app' < length h ->
            let init' := initial_state app' None (c_heap c) in
            heap_read init'.1 init'.2 spath key
            = heap_read h (defaultState app') spath key.
Proof.
  intros route init.
  split; [intros; apply clone_read|].
  split; [subst init; simpl; lia|].
  split; [apply clone_fresh_closed|].
  destruct (handle_returns this request None h) as (o & c & E).
  exists o, c. split; [exact E|].
  assert (isolated h init.2 c) as (Ht & _ & _).
  { unfold handle in E. fold route in E.
    change (initial_state (m_app route) None h) with init in E.
    eapply next_isolated in E.
    - destruct o; exact E.
    - unfold isolated; chain_simpl.
      split; [apply take_app_length|].
      split; [apply clone_fresh_closed|subst init; simpl; lia]. }
  split; [exact Ht|].
  intros app' spath key Hclosed Hvalid init'.
  subst init'. unfold initial_state. rewrite clone_read.
  apply read_old; assumption.
Qed.

(** ** Order of the calls *)

Lemma continues_propagates (p : prog) : continues p -> propagates p.
Proof.
  induction 1 as [v _|k Hk|key v k _ IH|key k _ IH]; simpl; auto.
Qed.

Section Order.
Context `{Serializer}.
Variable mws : list MiddlewareHandler.
Variable ehs : list OnError.
Variable route : MatchResult.
Variable request : Request.
Variable state : loc.
Variable path : string.
Variables query params query' params' : jsval.

Hypothesis mws_continue : Forall (fun m => forall ctx, continues (m ctx)) mws.
Hypothesis query_valid :
  runValidation query (validateQuery (m_route route)) = Returned query'.
Hypothesis params_valid :
  runValidation params (validateParams (m_route route)) = Returned params'.

Local Abbreviation next_ := (next mws ehs route request state path).
Local Abbreviation pre := (before_handler mws state query params).
Local Abbreviation post := (all_called_stored mws).
Local Abbreviation done := (all_called mws).

Lemma done_events (c : Chain) (evs : list event) :
  done c -> Forall (fun e => is_call e = false) evs -> done (add_events evs c).
Proof.
  intros [Hc Hi] Hevs. split; [|exact Hi]. chain_simpl.
  destruct (no_calls evs Hevs) as (_ & _ & E).
  rewrite calls_app, E, app_nil_r. exact Hc.
Qed.

(** After the handler, nothing more is called. *)
Lemma next_after_handler (fuel : nat) (c : Chain) :
  post c -> holds_after post done (next_ fuel c).
Proof.
  apply (next_invariant mws ehs route request state path post done done);
    unfold all_called_stored, all_called; chain_simpl;
    try solve [intros; intuition (auto; try discriminate; try congruence)].
  - intros c0 evs Hc0 Hevs. apply done_events; assumption.
  - left. eapply Forall_impl; [exact mws_continue|].
    intros m Hm ctx. apply continues_propagates, Hm.
Qed.

Lemma run_after_handler (nxt : Chain -> option (completion Response * Chain))
    (p : prog) (c : Chain) :
  propagates p ->
  (forall c, post c -> holds_after post done (nxt c)) ->
  post c -> holds_after post done (run route request state nxt p c).
Proof.
  intros Hp Hnxt. apply run_invariant; auto;
    unfold all_called_stored, all_called; chain_simpl; tauto.
Qed.

(** A middleware that continues either hands over to the rest of the chain
    itself, or returns a falsy value with the chain as it found it. *)
Lemma run_continues (nxt : Chain -> option (completion Response * Chain))
    (p : prog) :
  continues p ->
  (forall c, pre c -> holds_after post done (nxt c)) ->
  (forall c, post c -> holds_after post done (nxt c)) ->
  forall c o c',
    pre c -> run route request state nxt p c = Some (o, c') ->
    match o with
    | Returned v => (truthy v = false /\ pre c') \/ post c'
    | Threw _ => done c'
    end.
Proof.
  intros Hp Hpre Hpost.
  induction Hp as [v Hv|k Hk|key v k _ IH|key k _ IH]; intros c o c' Hc E;
    cbn [run] in E.
  - injection E as <- <-. left. auto.
  - destruct (nxt c) as [[[r|e] c1]|] eqn:En; [| |discriminate].
    + pose proof (Hpre c Hc _ _ En) as Hc1. simpl in Hc1.
      pose proof (run_after_handler nxt (k r) c1 (Hk r) Hpost Hc1 _ _ E)
        as Hc'.
      destruct o; [right|]; exact Hc'.
    + injection E as <- <-. exact (Hpre c Hc _ _ En).
  - destruct Hc as (H1 & H2 & H3 & H4 & H5 & [o0 H6]).
    unfold heap_write in E. cbn [resolve] in E. rewrite H6 in E.
    eapply IH; [|exact E].
    unfold before_handler; chain_simpl. repeat (split; [assumption|]).
    rewrite list_lookup_insert_eq by (eapply lookup_lt_Some; exact H6).
    eauto.
  - pose proof Hc as (H1 & H2 & H3 & H4 & H5 & [o0 H6]).
    unfold heap_read in E. cbn [resolve] in E. rewrite H6 in E.
    eapply IH; eassumption.
Qed.

Lemma pre_exhausted (c : Chain) :
  pre c -> Nat.ltb (index c) (length mws) = false -> index c = length mws.
Proof.
  intros (Hi & _) Hlt. apply Nat.ltb_ge in Hlt. lia.
Qed.

(** With the middlewares exhausted and no response stored, the handler
    runs. *)
Lemma next_handler_first (c : Chain) :
  pre c -> index c = length mws ->
  holds_after post done (next_handler route request state path c).
Proof.
  intros (H1 & H2 & H3 & H4 & H5 & H6) Hi o c' E.
  unfold next_handler in E. rewrite H3, H4, query_valid in E.
  cbn [c_params set_query] in E. rewrite H5, params_valid in E.
  set (c1 := log EvHandler (set_params params' (set_query query' c))) in E.
  assert (done c1) as Hc1.
  { split; unfold c1; chain_simpl.
    - rewrite calls_app, H2, Hi. reflexivity.
    - apply lookup_ge_None. lia. }
  destruct (run route request state no_next
              (route_handler (m_route route) (context_of request state path c1))
              c1) as [[[res|e] c2]|] eqn:Er; [| |discriminate].
  - assert (done c2) as Hc2.
    { refine (run_invariant route request state done done no_next
                (fun _ x => x) _ _ _ _ (or_intror (fun _ x => x)) c1 Hc1
                _ _ Er);
        unfold all_called; chain_simpl; auto.
      intros c0 Hc0 o0 c0' E0. injection E0 as <- <-. exact Hc0. }
    destruct (if isAsyncIterable res then handleStream res
              else turnHandlerResultIntoResponse res (m_route route)) as [r|e];
      injection E as <- <-; [|exact Hc2].
    split; [exact Hc2|discriminate].
  - assert (done c2) as Hc2.
    { refine (run_invariant route request state done done no_next
                (fun _ x => x) _ _ _ _ (or_intror (fun _ x => x)) c1 Hc1
                _ _ Er);
        unfold all_called; chain_simpl; auto.
      intros c0 Hc0 o0 c0' E0. injection E0 as <- <-. exact Hc0. }
    injection E as <- <-. exact Hc2.
Qed.

Lemma catch_after_handler
    (retry : Chain -> option (completion Response * Chain))
    (attempt : option (completion Response * Chain)) :
  (forall c, post c -> holds_after post done (retry c)) ->
  holds_after post done attempt ->
  holds_after post done (catch_next ehs request retry attempt).
Proof.
  apply catch_next_invariant.
  - intros c evs. apply done_events.
  - intros c r Hc. split; [exact Hc|discriminate].
Qed.

Lemma next_handler_after (c : Chain) :
  post c -> holds_after post done (next_handler route request state path c).
Proof.
  intros [Hc Hr] o c' E. unfold next_handler in E.
  destruct (handlerResponse c) as [r|] eqn:Er; [|congruence].
  injection E as <- <-. split; [exact Hc|congruence].
Qed.

(** From a chain in which only the first [index] middlewares have been
    called, [next] calls the remaining middlewares and then the handler. *)
Lemma next_calls_all (fuel : nat) :
  forall c, pre c -> holds_after post done (next_ fuel c).
Proof.
  induction fuel as [|fuel IH]; intros c Hc; [intros o c' E; discriminate|].
  cbn [next]. apply catch_after_handler; [apply next_after_handler|].
  destruct (mws !! index c) as [middleware|] eqn:Hm.
  2:{ apply next_handler_first; [exact Hc|].
      apply lookup_ge_None in Hm. destruct Hc as (Hi & _). lia. }
  set (c1 := log (EvMiddleware (index c)) (set_index (S (index c)) c)).
  assert (pre c1) as Hc1.
  { destruct Hc as (H1 & H2 & H3 & H4 & H5 & H6).
    apply lookup_lt_Some in Hm as Hlt.
    unfold before_handler, c1; chain_simpl.
    split; [lia|]. split; [|auto].
    rewrite calls_app, H2, seq_S, map_app. reflexivity. }
  assert (forall ctx, continues (middleware ctx)) as Hcont.
  { rewrite Forall_forall in mws_continue. apply mws_continue.
    apply list_elem_of_lookup. eauto. }
  intros o c' E.
  destruct (run route request state (next_ fuel)
              (middleware (context_of request state path c1)) c1)
    as [[[result|e] c2]|] eqn:Er; [| |discriminate].
  - pose proof (run_continues (next_ fuel) _ (Hcont _) IH
                  (next_after_handler fuel) c1 _ _ Hc1 Er) as Hc2.
    simpl in Hc2. destruct Hc2 as [[Hfalsy Hc2]|Hc2].
    + assert (match result with
              | VResponse r => set_handlerResponse r c2
              | _ => c2
              end = c2) as Ec3.
      { destruct result; try reflexivity. discriminate Hfalsy. }
      rewrite Ec3, Hfalsy in E. cbn [negb andb] in E.
      destruct (Nat.ltb (index c2) (length mws)) eqn:Hlt.
      * exact (IH c2 Hc2 _ _ E).
      * eapply next_handler_first; [exact Hc2| |exact E].
        apply pre_exhausted; assumption.
    + set (c3 := match result with
                 | VResponse r => set_handlerResponse r c2
                 | _ => c2
                 end) in E.
      assert (post c3) as Hc3.
      { subst c3. destruct result; try exact Hc2.
        split; [apply Hc2|discriminate]. }
      destruct (negb (truthy result) && Nat.ltb (index c3) (length mws)).
      * exact (next_after_handler fuel c3 Hc3 _ _ E).
      * destruct (truthy result).
        -- injection E as <- <-.
           destruct (turnHandlerResultIntoResponse result (m_route route));
             [exact Hc3|apply Hc3].
        -- exact (next_handler_after c3 Hc3 _ _ E).
  - pose proof (run_continues (next_ fuel) _ (Hcont _) IH
                  (next_after_handler fuel) c1 _ _ Hc1 Er) as Hc2.
    simpl in Hc2. injection E as <- <-. exact Hc2.
Qed.
End Order.




(** ** Middlewares that let the response through *)

Section Passes.
Context `{Serializer}.
Variable mws : list MiddlewareHandler.
Variable ehs : list OnError.
Variable route : MatchResult.
Variable request : Request.
Variable state : loc.
Variable path : string.
Variable R : Response -> Prop.
Variable G : Chain -> Prop.

Hypothesis mws_pass : Forall (fun m => forall ctx, passes R (m ctx)) mws.
Hypothesis G_state : forall c, G c -> is_Some (c_heap c !! state).
Hypothesis G_write : forall c key v o,
  G c -> c_heap c !! state = Some o ->
  G (set_heap (<[state := assoc_set key (SVal v) o]> (c_heap c)) c).
Hypothesis G_middleware : forall c,
  G c -> G (log (EvMiddleware (index c)) (set_index (S (index c)) c)).
Hypothesis G_response : forall c r,
  G c -> R r -> G (set_handlerResponse r c).
Hypothesis tail : forall retry c,
  (forall c1, G c1 -> answers_with R G (retry c1)) ->
  G c ->
  answers_with R G
    (catch_next ehs request retry (next_handler route request state path c)).

Local Abbreviation next_ := (next mws ehs route request state path).

Lemma run_passes (nxt : Chain -> option (completion Response * Chain))
    (p : prog) :
  passes R p ->
  (forall c, G c -> answers_with R G (nxt c)) ->
  forall c o c',
    G c -> run route request state nxt p c = Some (o, c') ->
    exists v, o = Returned v /\ G c'
              /\ (truthy v = false \/ exists r, v = VResponse r /\ R r).
Proof.
  intros Hp Hnxt.
  induction Hp as [v Hv|r Hr|k _ IH|key v k _ IH|key k _ IH];
    intros c o c' Hc E; cbn [run] in E.
  - injection E as <- <-. exists v. auto.
  - injection E as <- <-. exists (VResponse r).
    split; [reflexivity|]. split; [exact Hc|]. right. exists r. auto.
  - destruct (nxt c) as [[o1 c1]|] eqn:En; [|discriminate].
    destruct (Hnxt c Hc _ _ En) as (r & -> & Hr & Hc1).
    eapply IH; eassumption.
  - destruct (G_state c Hc) as [o0 Ho].
    unfold heap_write in E. cbn [resolve] in E. rewrite Ho in E.
    eapply IH; [|exact E]. apply G_write; assumption.
  - destruct (G_state c Hc) as [o0 Ho].
    unfold heap_read in E. cbn [resolve] in E. rewrite Ho in E.
    eapply IH; eassumption.
Qed.

Lemma catch_next_answers
    (retry : Chain -> option (completion Response * Chain))
    (attempt : option (completion Response * Chain)) :
  answers_with R G attempt ->
  answers_with R G (catch_next ehs request retry attempt).
Proof.
  intros Ha o c' E. unfold catch_next in E.
  destruct attempt as [[[r|err] c1]|]; [| |discriminate].
  - injection E as <- <-. exact (Ha _ _ eq_refl).
  - destruct (Ha _ _ eq_refl) as (r & Hr & _). discriminate Hr.
Qed.

(** With such middlewares, [next] returns a response that satisfies [R]. *)
Lemma next_passes (fuel : nat) :
  forall c, G c -> answers_with R G (next_ fuel c).
Proof.
  induction fuel as [|fuel IH]; intros c Hc; [intros o c' E; discriminate|].
  cbn [next].
  destruct (mws !! index c) as [middleware|] eqn:Hm; [|apply tail; auto].
  set (c1 := log (EvMiddleware (index c)) (set_index (S (index c)) c)).
  assert (G c1) as Hc1 by (apply G_middleware; exact Hc).
  assert (forall ctx, passes R (middleware ctx)) as Hpass.
  { rewrite Forall_forall in mws_pass. apply mws_pass.
    apply list_elem_of_lookup. eauto. }
  destruct (run route request state (next_ fuel)
              (middleware (context_of request state path c1)) c1)
    as [[o2 c2]|] eqn:Er; [|intros o c' E; discriminate].
  destruct (run_passes (next_ fuel) _ (Hpass _) IH c1 _ _ Hc1 Er)
    as (v & -> & Hc2 & Hv).
  destruct Hv as [Hfalsy|(r & -> & Hr)].
  - assert (match v with
            | VResponse r => set_handlerResponse r c2
            | _ => c2
            end = c2) as ->.
    { destruct v; try reflexivity. discriminate Hfalsy. }
    rewrite Hfalsy. cbn [negb andb].
    destruct (Nat.ltb (index c2) (length mws)).
    + apply catch_next_answers. apply IH. exact Hc2.
    + apply tail; auto.
  - cbn [truthy negb andb turnHandlerResultIntoResponse].
    apply catch_next_answers. intros o c' E. injection E as <- <-.
    exists r. split; [reflexivity|]. split; [exact Hr|].
    apply G_response; assumption.
Qed.
End Passes.

(** ** Requests that match no route *)

Lemma first_result_none {S T : Type} (f : S -> Spiceflow -> S * option T)
    (l : list Spiceflow) :
  (forall app, app ∈ l -> forall s, (f s app).2 = None) ->
  forall s, (first_result f s l).2 = None.
Proof.
  induction l as [|a l IH]; intros Hl s; [reflexivity|].
  simpl. pose proof (Hl a (list_elem_of_here _ _) s) as Ha.
  destruct (f s a) as [s' [r|]]; [discriminate Ha|].
  apply IH. intros app Happ. apply Hl. apply list_elem_of_further. exact Happ.
Qed.

Lemma first_result_found {S T : Type} (f : S -> Spiceflow -> S * option T)
    (before after : list Spiceflow) (a : Spiceflow) (r : T) :
  (forall app, app ∈ before -> forall s, (f s app).2 = None) ->
  (forall s, (f s a).2 = Some r) ->
  forall s, (first_result f s (before ++ a :: after)).2 = Some r.
Proof.
  induction before as [|b before IH]; intros Hb Ha s; simpl.
  - specialize (Ha s).
    destruct (f s a) as [s' [r'|]]; [exact Ha|discriminate Ha].
  - pose proof (Hb b (list_elem_of_here _ _) s) as Hn.
    destruct (f s b) as [s' [r'|]]; [discriminate Hn|].
    apply IH; [|exact Ha].
    intros app Happ. apply Hb. apply list_elem_of_further. exact Happ.
Qed.

Lemma match_node_no_route (root : Spiceflow) (method path : string)
    (app : Spiceflow) :
  ~ has_route root method path app ->
  forall foundApp, (match_node root method path foundApp app).2 = None.
Proof.
  intros Hno foundApp. unfold match_node. unfold has_route in Hno.
  set (prefix := app_prefix root app) in *.
  assert (forall found,
            (prefix = "" \/ startsWith path prefix = true) ->
            router app (if String.eqb prefix "" then path
                        else or_slash (replace_first prefix path))
            = Some found ->
            assoc method (found_store found) = None
            /\ (method = "HEAD" -> assoc "GET" (found_store found) = None))
    as Hrouter.
  { intros found Hp Hf. split.
    - destruct (assoc method (found_store found)) eqn:Em; [|reflexivity].
      exfalso. apply Hno. split; [exact Hp|]. exists found.
      split; [exact Hf|]. left. congruence.
    - intros Eh.
      destruct (assoc "GET" (found_store found)) eqn:Eg; [|reflexivity].
      exfalso. apply Hno. split; [exact Hp|]. exists found.
      split; [exact Hf|]. right. split; [exact Eh|congruence]. }
  clear Hno.
  destruct (String.eqb_spec prefix "") as [Ep|Ep]; cbn [negb andb].
  - destruct (router app path) as [found|] eqn:Ef; [|reflexivity].
    destruct (Hrouter found (or_introl Ep) eq_refl) as [Em Eg].
    rewrite Em.
    destruct (String.eqb_spec method "HEAD") as [Eh|Eh]; [|reflexivity].
    rewrite (Eg Eh). reflexivity.
  - destruct (startsWith path prefix) eqn:Es; [|reflexivity]. cbn [negb].
    destruct (router app (or_slash (replace_first prefix path)))
      as [found|] eqn:Ef; [|reflexivity].
    destruct (Hrouter found (or_intror eq_refl) eq_refl) as [Em Eg].
    rewrite Em.
    destruct (String.eqb_spec method "HEAD") as [Eh|Eh]; [|reflexivity].
    rewrite (Eg Eh). reflexivity.
Qed.

(** Without a route anywhere in the tree, [match] returns the synthesized
    not-found route. *)
Lemma match_not_found (root : Spiceflow) (method path : string) :
  let p := or_slash (strip_trailing_slash path) in
  (forall app, app ∈ bfs root -> ~ has_route root method p app) ->
  m_route (match_ root method path)
  = synthesized_route notFoundHandler method p.
Proof.
  intros p Hno. unfold match_. fold p. rewrite bfsFind_bfs.
  pose proof (first_result_none (match_node root method p) (bfs root)
                (fun app Happ => match_node_no_route root method p app
                                   (Hno app Happ)) None) as E.
  destruct (first_result (match_node root method p) None (bfs root))
    as [foundApp [r|]]; [discriminate E|reflexivity].
Qed.

Lemma calm_write (R : Response -> Prop) (state : loc) (c : Chain)
    (key : string) (v : jsval) (o : sobject) :
  calm R state c -> c_heap c !! state = Some o ->
  calm R state
    (set_heap (<[state := assoc_set key (SVal v) o]> (c_heap c)) c).
Proof.
  intros (H1 & H2 & H3) Ho. unfold calm; chain_simpl.
  split; [|auto].
  rewrite list_lookup_insert_eq by (eapply lookup_lt_Some; exact Ho). eauto.
Qed.

Lemma calm_middleware (R : Response -> Prop) (state : loc) (c : Chain) :
  calm R state c ->
  calm R state (log (EvMiddleware (index c)) (set_index (S (index c)) c)).
Proof.
  intros (H1 & H2 & H3). unfold calm; chain_simpl.
  split; [exact H1|]. split; [exact H2|].
  apply Forall_app. split; [exact H3|]. constructor; [reflexivity|constructor].
Qed.

Lemma calm_response (R : Response -> Prop) (state : loc) (c : Chain)
    (r : Response) :
  calm R state c -> R r -> calm R state (set_handlerResponse r c).
Proof.
  intros (H1 & H2 & H3) Hr. unfold calm; chain_simpl.
  split; [exact H1|]. split; [|exact H3]. intros r' [= <-]. exact Hr.
Qed.

(** The not-found route answers 404 without any error handling. *)
Lemma not_found_tail `{Serializer} (ehs : list OnError) (route : MatchResult)
    (request : Request) (state : loc) (path method p : string)
    (retry : Chain -> option (completion Response * Chain)) (c : Chain) :
  m_route route = synthesized_route notFoundHandler method p ->
  calm not_found_shape state c ->
  answers_with not_found_shape (calm not_found_shape state)
    (catch_next ehs request retry (next_handler route request state path c)).
Proof.
  intros Hroute (H1 & H2 & H3) o c' E.
  unfold next_handler in E. rewrite Hroute in E.
  destruct (handlerResponse c) as [r|] eqn:Hr.
  - cbn [catch_next] in E. injection E as <- <-.
    exists r. split; [reflexivity|]. split; [auto|].
    split; [exact H1|]. split; [|exact H3]. rewrite Hr. exact H2.
  - cbn [synthesized_route validateQuery validateParams runValidation
         route_handler notFoundHandler run isAsyncIterable
         turnHandlerResultIntoResponse catch_next] in E.
    injection E as <- <-. eexists. split; [reflexivity|].
    split; [split; reflexivity|].
    unfold calm; chain_simpl. split; [exact H1|].
    split; [intros r' [= <-]; split; reflexivity|].
    apply Forall_app. split; [exact H3|].
    constructor; [reflexivity|constructor].
Qed.

(** What [handle] does with a request that matches no route, when the
    middlewares in scope let the response through. *)
Lemma handle_not_found `{Serializer} (this : Spiceflow) (request : Request)
    (customState : option loc) (h : heap) :
  let p := or_slash (strip_trailing_slash
                       (req_pathname request +:+ req_search request)) in
  let route := match_ this (req_method request)
                 (req_pathname request +:+ req_search request) in
  let mws := flat_map middlewares (getAppsInScope this (Some (m_app route))) in
  let init := initial_state (m_app route) customState h in
  (forall app, app ∈ bfs this ->
               ~ has_route this (req_method request) p app) ->
  Forall (fun m => forall ctx, passes not_found_shape (m ctx)) mws ->
  is_Some (init.1 !! init.2) ->
  exists r c,
    handle this request customState h = Some (Returned r, c)
    /\ status r = VNum 404%Z
    /\ resp_body r = BodyText "Not Found"
    /\ Forall (fun e => is_call e = true) (trace c).
Proof.
  intros p route mws init Hno Hmws Hstate.
  destruct (handle_returns this request customState h) as (o & c & E).
  pose proof E as E'. unfold handle in E'. fold route in E'. fold mws in E'.
  change (initial_state (m_app route) customState h) with init in E'.
  eapply (next_passes mws _ route request init.2 _ not_found_shape
            (calm not_found_shape init.2)) in E'.
  - destruct E' as (r & -> & [Hs Hb] & (_ & _ & Ht)).
    exists r, c. auto.
  - exact Hmws.
  - intros c0 Hc0. apply Hc0.
  - intros. apply calm_write; assumption.
  - intros. apply calm_middleware; assumption.
  - intros. apply calm_response; assumption.
  - intros retry c0 _ Hc0.
    eapply not_found_tail; [|exact Hc0].
    apply match_not_found. exact Hno.
  - unfold calm; chain_simpl. split; [exact Hstate|].
    split; [discriminate|constructor].
Qed.

(** C4, as amended.  When the request matches no registered route anywhere
    in the tree and the middlewares in scope let the response through (each
    returns nothing, or the response it got from [next()], and does not
    throw), [handle] returns a response with status 404 and body
    "Not Found", and neither an error handler nor [console.error] is called
    during the request. *)
Theorem not_found_response `{Serializer} (this : Spiceflow)
    (request : Request) (customState : option loc) (h : heap) :
  let p := or_slash (strip_trailing_slash
                       (req_pathname request +:+ req_search request)) in
  let route := match_ this (req_method request)
                 (req_pathname request +:+ req_search request) in
  let mws := flat_map middlewares (getAppsInScope this (Some (m_app route))) in
  let init := initial_state (m_app route) customState h in
  (forall app, app ∈ bfs this ->
               ~ has_route this (req_method request) p app) ->
  Forall (fun m => forall ctx, passes not_found_shape (m ctx)) mws ->
  is_Some (init.1 !! init.2) ->
  exists r c,
    handle this request customState h = Some (Returned r, c)
    /\ status r = VNum 404%Z
    /\ resp_body r = BodyText "Not Found"
    /\ (forall i, EvErrorHandler i ∉ trace c)
    /\ (forall e, EvConsoleError e ∉ trace c).
Proof.
  intros p route mws init Hno Hmws Hstate.
  destruct (handle_not_found this request customState h Hno Hmws Hstate)
    as (r & c & E & Hs & Hb & Ht).
  exists r, c. split; [exact E|]. split; [exact Hs|]. split; [exact Hb|].
  rewrite Forall_forall in Ht.
  split; intros x Hx; apply Ht in Hx; discriminate Hx.
Qed.

Lemma not_found_response_witness :
  let request := get_request "/non-existent" in
  let route := match_ onerror_app "GET" "/non-existent" in
  let mws :=
    flat_map middlewares (getAppsInScope onerror_app (Some (m_app route))) in
  let init := initial_state (m_app route) None [[]] in
  (forall app, app ∈ bfs onerror_app ->
               ~ has_route onerror_app "GET" "/non-existent" app)
  /\ Forall (fun m => forall ctx, passes not_found_shape (m ctx)) mws
  /\ is_Some (init.1 !! init.2)
  /\ exists r c,
       handle (H := example_serialize) onerror_app request None [[]]
       = Some (Returned r, c)
       /\ status r = VNum 404%Z
       /\ resp_body r = BodyText "Not Found"
       /\ (forall i, EvErrorHandler i ∉ trace c)
       /\ (forall e, EvConsoleError e ∉ trace c).
Proof.
  intros request route mws init.
  assert (forall app, app ∈ bfs onerror_app ->
            ~ has_route onerror_app "GET" "/non-existent" app) as H1.
  { intros app Happ.
    change (bfs onerror_app) with [onerror_app] in Happ.
    apply list_elem_of_singleton in Happ as ->.
    intros (_ & found & Hf & _). discriminate Hf. }
  assert (Forall (fun m => forall ctx, passes not_found_shape (m ctx)) mws)
    as H2 by constructor.
  assert (is_Some (init.1 !! init.2)) as H3 by (eexists; reflexivity).
  split; [exact H1|]. split; [exact H2|]. split; [exact H3|].
  exact (not_found_response (H := example_serialize) onerror_app request None
           [[]] H1 H2 H3).
Defined.

(** C4, as stated, fails: the request matches no route, but a middleware
    in scope answers, and [handle] returns its response, with status 200. *)
Lemma unmatched_request_answered_by_middleware :
  (forall app, app ∈ bfs answering_app ->
               ~ has_route answering_app "GET" "/ids/xxx" app)
  /\ exists r c,
       handle (H := example_serialize) answering_app (get_request "/ids/xxx")
         None [[]] = Some (Returned r, c)
       /\ status r = VNum 200%Z
       /\ resp_body r = BodyText "ok"
       /\ status r <> VNum 404%Z.
Proof.
  split.
  - intros app Happ.
    change (bfs answering_app) with [answering_app] in Happ.
    apply list_elem_of_singleton in Happ as ->.
    intros (_ & found & Hf & _). discriminate Hf.
  - eexists _, _. split; [vm_compute; reflexivity|].
    split; [reflexivity|]. split; [reflexivity|discriminate].
Qed.

(** ** Validation failures *)

Lemma validation_message_nonempty (issues : list Issue) :
  String.eqb (validation_message issues) "" = false.
Proof.
  unfold validation_message.
  destruct (String.eqb (join "\n" (map issue_text issues)) "") eqn:E;
    [reflexivity|exact E].
Qed.

Lemma runValidation_issues (value : jsval) (validate : ValidationFunction)
    (issue : Issue) (issues : list Issue) :
  vr_issues (validate value) = Some (issue :: issues) ->
  runValidation value (Some validate)
  = Threw (ValidationError (validation_message (issue :: issues))).
Proof. intros E. unfold runValidation. rewrite E. reflexivity. Qed.

Lemma runErrorHandlers_loop_quiet (err : jsval) (request : Request)
    (handlers : list OnError) :
  Forall (quiet err request) handlers ->
  forall i c, exists evs,
    runErrorHandlers_loop handlers i err request c
    = (Returned None, add_events evs c)
    /\ handler_calls evs = 0.
Proof.
  induction 1 as [|handler handlers [v Hh] _ IH]; intros i c.
  - exists []. rewrite add_events_nil. auto.
  - destruct (IH (S i) (log (EvErrorHandler i) c)) as (evs & E & Hevs).
    exists (EvErrorHandler i :: evs). simpl.
    destruct Hh as [-> | ->]; rewrite E, log_add_events, add_events_app; auto.
Qed.

(** Error handlers that neither answer at once nor throw leave the error
    to the default response. *)
Lemma getResForError_quiet `{Serializer} (ehs : list OnError)
    (request : Request) (err : jsval) (c : Chain) :
  isResponse err = false ->
  Forall (quiet err request) ehs ->
  exists evs,
    getResForError ehs request err c
    = (Returned (default_error_response err), add_events evs c)
    /\ handler_calls evs = 0.
Proof.
  intros Herr Hq.
  assert (exists evs, runErrorHandlers ehs err request c
                      = (Returned None, add_events evs c)
                      /\ handler_calls evs = 0) as (evs & E & Hevs).
  { unfold runErrorHandlers. destruct (Nat.eqb (length ehs) 0).
    - exists [EvConsoleError err]. auto.
    - apply runErrorHandlers_loop_quiet. exact Hq. }
  exists evs. split; [|exact Hevs].
  unfold getResForError. rewrite E.
  destruct err; try discriminate Herr; reflexivity.
Qed.

Section QueryValidation.
Context `{Serializer}.
Variable ehs : list OnError.
Variable route : MatchResult.
Variable request : Request.
Variable state : loc.
Variable path : string.
Variable query : jsval.
Variable validate : ValidationFunction.
Variable issue : Issue.
Variable issues : list Issue.

Let err : jsval := ValidationError (validation_message (issue :: issues)).
Let R : Response -> Prop := fun r => r = default_error_response err.

Hypothesis validator : validateQuery (m_route route) = Some validate.
Hypothesis invalid : vr_issues (validate query) = Some (issue :: issues).
Hypothesis ehs_quiet : Forall (quiet err request) ehs.

(** When the chain reaches the validation of an invalid query, the error
    becomes the default response and the handler is not called. *)
Lemma invalid_query_tail
    (retry : Chain -> option (completion Response * Chain)) (c : Chain) :
  (forall c1, unvalidated R state query c1 ->
              answers_with R (unvalidated R state query) (retry c1)) ->
  unvalidated R state query c ->
  answers_with R (unvalidated R state query)
    (catch_next ehs request retry (next_handler route request state path c)).
Proof.
  intros Hretry (H1 & H2 & H3 & H4) o c' E.
  unfold next_handler in E.
  destruct (handlerResponse c) as [r|] eqn:Hr.
  - cbn [catch_next] in E. injection E as <- <-.
    exists r. split; [reflexivity|]. split; [auto|].
    split; [exact H1|]. split; [|auto]. rewrite Hr. exact H2.
  - rewrite H3, validator, (runValidation_issues _ _ _ _ invalid) in E.
    cbn [catch_next] in E. fold err in E.
    destruct (getResForError_quiet ehs request err c eq_refl ehs_quiet)
      as (evs & Eg & Hevs).
    rewrite Eg in E. eapply Hretry; [|exact E].
    unfold unvalidated; chain_simpl. split; [exact H1|].
    split; [intros r [= <-]; reflexivity|]. split; [exact H3|].
    rewrite handler_calls_app, H4, Hevs. reflexivity.
Qed.
End QueryValidation.




(** ** HEAD requests served by a GET route *)

Lemma run_prog_then (route : MatchResult) (request : Request) (state : loc)
    (nxt : Chain -> option (completion Response * Chain))
    (f : jsval -> prog) (p : prog) :
  forall c,
    run route request state nxt (prog_then p f) c
    = match run route request state nxt p c with
      | Some (Returned v, c') => run route request state nxt (f v) c'
      | Some (Threw e, c') => Some (Threw e, c')
      | None => None
      end.
Proof.
  induction p as [v|e|k IH|spath key v k IH|spath key k IH|k IH
                 |body _ h IHh k IHk];
    intros c; cbn [prog_then run]; try reflexivity.
  - destruct (nxt c) as [[[r|e] c1]|]; [apply IH|reflexivity|reflexivity].
  - destruct (heap_write (c_heap c) state spath key v); [apply IH|reflexivity].
  - destruct (heap_read (c_heap c) state spath key); [apply IH|reflexivity].
  - destruct (request_json route request c) as [[v|e] c1];
      [apply IH|reflexivity].
  - destruct (run route request state nxt body c) as [[[v|e] c1]|];
      [apply IHk|apply IHh|reflexivity].
Qed.

(** The handler built for HEAD runs the GET handler and turns the value it
    returns into [head_response]. *)
Lemma run_head_handler (route : MatchResult) (request : Request)
    (state : loc) (nxt : Chain -> option (completion Response * Chain))
    (internalRouteGet : InternalRoute) (ctx : Context) (c : Chain) :
  run route request state nxt (head_handler internalRouteGet ctx) c
  = match run route request state nxt (route_handler internalRouteGet ctx) c
    with
    | Some (Returned v, c') => Some (Returned (VResponse (head_response v)), c')
    | Some (Threw e, c') => Some (Threw e, c')
    | None => None
    end.
Proof.
  unfold head_handler. rewrite run_prog_then.
  destruct (run route request state nxt (route_handler internalRouteGet ctx) c)
    as [[[v|e] c']|]; try reflexivity.
  destruct v; reflexivity.
Qed.

Lemma match_found (root : Spiceflow) (method path : string)
    (before after : list Spiceflow) (app : Spiceflow) (result : MatchResult) :
  let p := or_slash (strip_trailing_slash path) in
  bfs root = before ++ app :: after ->
  (forall x, x ∈ before -> ~ has_route root method p x) ->
  (forall foundApp, (match_node root method p foundApp app).2 = Some result) ->
  match_ root method path = result.
Proof.
  intros p Hbfs Hbefore Happ. unfold match_. fold p.
  rewrite bfsFind_bfs, Hbfs.
  pose proof (first_result_found (match_node root method p) before after app
                result
                (fun x Hx => match_node_no_route root method p x (Hbefore x Hx))
                Happ None) as E.
  destruct (first_result (match_node root method p) None
              (before ++ app :: after)) as [foundApp [r|]];
    [injection E as ->; reflexivity|discriminate E].
Qed.

Lemma match_node_head (root : Spiceflow) (path : string) (app : Spiceflow)
    (found : MedleyResult) (internalRouteGet : InternalRoute) :
  let prefix := app_prefix root app in
  (prefix = "" \/ startsWith path prefix = true) ->
  router app (if String.eqb prefix "" then path
              else or_slash (replace_first prefix path)) = Some found ->
  assoc "HEAD" (found_store found) = None ->
  assoc "GET" (found_store found) = Some internalRouteGet ->
  forall foundApp,
    (match_node root "HEAD" path foundApp app).2
    = Some (mkMatch app
              (synthesized_route (head_handler internalRouteGet) "HEAD" path)
              (found_params found)).
Proof.
  intros prefix Hp Hf Hh Hg foundApp. unfold match_node. fold prefix.
  destruct (String.eqb_spec prefix "") as [Ep|Ep]; cbn [negb andb].
  - rewrite Hf, Hh, Hg. reflexivity.
  - destruct Hp as [Hp|Hp]; [contradiction|]. rewrite Hp. cbn [negb].
    rewrite Hf, Hh, Hg. reflexivity.
Qed.

(** The route built for HEAD answers with [head_response] of the value
    that the GET handler returns. *)
Lemma head_tail `{Serializer} (ehs : list OnError) (route : MatchResult)
    (request : Request) (state : loc) (path p : string)
    (internalRouteGet : InternalRoute) (v : jsval)
    (retry : Chain -> option (completion Response * Chain)) (c : Chain) :
  m_route route = synthesized_route (head_handler internalRouteGet) "HEAD" p ->
  (forall ctx, route_handler internalRouteGet ctx = Return v) ->
  calm (fun r => r = head_response v) state c ->
  answers_with (fun r => r = head_response v)
    (calm (fun r => r = head_response v) state)
    (catch_next ehs request retry (next_handler route request state path c)).
Proof.
  intros Hroute Hget (H1 & H2 & H3) o c' E.
  unfold next_handler in E. rewrite Hroute in E.
  destruct (handlerResponse c) as [r|] eqn:Hr.
  - cbn [catch_next] in E. injection E as <- <-.
    exists r. split; [reflexivity|]. split; [auto|].
    split; [exact H1|]. split; [|exact H3]. rewrite Hr. exact H2.
  - cbn [synthesized_route validateQuery validateParams runValidation
         route_handler] in E.
    rewrite run_head_handler, Hget in E.
    cbn [run isAsyncIterable turnHandlerResultIntoResponse catch_next] in E.
    injection E as <- <-. eexists. split; [reflexivity|].
    split; [reflexivity|].
    unfold calm; chain_simpl. split; [exact H1|].
    split; [intros r' [= <-]; reflexivity|].
    apply Forall_app. split; [exact H3|].
    constructor; [reflexivity|constructor].
Qed.




(* ================================================================= *)
(** * Further properties of the code *)
(* ================================================================= *)
(** ** Breadth-first order *)

Lemma levels_nil (depth : nat) : levels depth [] = [].
Proof. induction depth as [|d IH]; [reflexivity|exact IH]. Qed.

Lemma queue_size_children (q : list Spiceflow) :
  queue_size (flat_map childrenApps q) + length q = queue_size q.
Proof.
  induction q as [|x q IH]; [reflexivity|].
  cbn [flat_map length]. rewrite queue_size_app, queue_size_cons.
  rewrite app_size_children. lia.
Qed.

(** The loop of [bfs] takes a whole prefix of the queue out, and queues the
    children of its nodes behind the rest. *)
Lemma bfs_loop_prefix (q1 : list Spiceflow) :
  forall q2 fuel,
    queue_size (q1 ++ q2) <= fuel ->
    bfs_loop fuel (q1 ++ q2) []
    = q1 ++ bfs_loop fuel (q2 ++ flat_map childrenApps q1) [].
Proof.
  induction q1 as [|x q1 IH]; intros q2 fuel Hf.
  - cbn [flat_map app]. rewrite app_nil_r. reflexivity.
  - destruct fuel as [|fuel].
    { cbn [app] in Hf. rewrite queue_size_cons, app_size_children in Hf. lia. }
    cbn [app] in Hf |- *. rewrite queue_size_cons in Hf.
    pose proof (app_size_children x) as Hx.
    rewrite queue_size_app in Hf.
    change (bfs_loop (S fuel) (x :: q1 ++ q2) [])
      with (bfs_loop fuel ((q1 ++ q2) ++ childrenApps x) [x]).
    rewrite bfs_loop_acc. cbn [app]. f_equal.
    rewrite <- app_assoc. rewrite IH.
    2:{ rewrite !queue_size_app. lia. }
    f_equal. cbn [flat_map]. rewrite <- app_assoc.
    apply bfs_loop_fuel.
    + pose proof (queue_size_children q1).
      rewrite !queue_size_app. lia.
    + pose proof (queue_size_children q1).
      rewrite !queue_size_app. lia.
Qed.

Lemma bfs_loop_levels (fuel : nat) :
  forall q, queue_size q <= fuel -> bfs_loop fuel q [] = levels fuel q.
Proof.
  induction fuel as [|fuel IH]; intros q Hf.
  - destruct q as [|x q]; [reflexivity|].
    rewrite queue_size_cons, app_size_children in Hf. lia.
  - destruct q as [|x q]; [rewrite levels_nil; reflexivity|].
    pose proof (bfs_loop_prefix (x :: q) [] (S fuel)) as E.
    rewrite app_nil_r in E. rewrite E by exact Hf. cbn [levels app].
    f_equal. f_equal.
    pose proof (queue_size_children (x :: q)) as Hc. cbn [length] in Hc.
    rewrite <- IH by lia.
    apply bfs_loop_fuel; lia.
Qed.

Lemma bfs_loop_length (fuel : nat) :
  forall q, queue_size q <= fuel -> length (bfs_loop fuel q []) = queue_size q.
Proof.
  intros q Hf. rewrite bfs_loop_levels by exact Hf.
  revert q Hf. induction fuel as [|fuel IH]; intros q Hf.
  - destruct q as [|x q]; [reflexivity|].
    rewrite queue_size_cons, app_size_children in Hf. lia.
  - cbn [levels]. rewrite length_app.
    destruct q as [|x q]; [rewrite levels_nil; reflexivity|].
    pose proof (queue_size_children (x :: q)) as Hc. cbn [length] in Hc.
    rewrite IH by lia. cbn [length]. lia.
Qed.

(** X1.  [bfs] lists the applications of the tree level by level: the
    root, then its children in registration order, then their children, and
    so on; every application is listed, once for each place it has in the
    tree. *)
Theorem bfs_level_order (tree : Spiceflow) :
  bfs tree = levels (app_size tree) [tree]
  /\ length (bfs tree) = app_size tree
  /\ (forall x, x ∈ bfs tree
                <-> exists p, is_path tree p /\ last p = Some x).
Proof.
  assert (queue_size [tree] <= app_size tree) as Hf.
  { rewrite queue_size_cons. unfold queue_size; simpl. lia. }
  split; [apply bfs_loop_levels; exact Hf|].
  split.
  - unfold bfs. rewrite bfs_loop_length by exact Hf.
    rewrite queue_size_cons. unfold queue_size; simpl. lia.
  - intros x. split.
    + apply bfs_is_path.
    + intros (p & Hp & Hl). eapply is_path_last_bfs; eassumption.
Qed.

(** ** Search in breadth-first order *)

Lemma first_result_all_none {S T : Type}
    (onNode : S -> Spiceflow -> S * option T) (l : list Spiceflow) :
  (forall x s', x ∈ l -> (onNode s' x).2 = None) ->
  forall s,
    first_result onNode s l = (foldl (fun s' x => (onNode s' x).1) s l, None).
Proof.
  induction l as [|a l IH]; intros Hl s; [reflexivity|].
  cbn [first_result foldl].
  pose proof (Hl a s (list_elem_of_here _ _)) as Ha.
  destruct (onNode s a) as [s1 [r|]] eqn:E; [discriminate Ha|].
  cbn [fst]. apply IH. intros x s' Hx. apply Hl.
  apply list_elem_of_further. exact Hx.
Qed.

Lemma first_result_hit {S T : Type}
    (onNode : S -> Spiceflow -> S * option T)
    (before after : list Spiceflow) (x : Spiceflow) (r : T) :
  (forall y s', y ∈ before -> (onNode s' y).2 = None) ->
  (forall s', (onNode s' x).2 = Some r) ->
  forall s,
    first_result onNode s (before ++ x :: after)
    = ((onNode (foldl (fun s' y => (onNode s' y).1) s before) x).1, Some r).
Proof.
  induction before as [|b before IH]; intros Hb Hx s.
  - cbn [app first_result foldl]. specialize (Hx s).
    destruct (onNode s x) as [s1 [r'|]]; [|discriminate Hx].
    cbn [snd] in Hx. injection Hx as ->. reflexivity.
  - cbn [app first_result foldl].
    pose proof (Hb b s (list_elem_of_here _ _)) as Hn.
    destruct (onNode s b) as [s1 [r'|]] eqn:E; [discriminate Hn|].
    cbn [fst]. apply IH; [|exact Hx].
    intros y s' Hy. apply Hb. apply list_elem_of_further. exact Hy.
Qed.

(** X2.  [bfsFind] calls [onNode] on the applications in the order of
    [bfs] and stops at the first one for which it returns a result: the
    applications behind it are not visited.  When [onNode] returns no
    result anywhere, every application is visited and [bfsFind] returns
    nothing. *)
Theorem bfsFind_first_hit {S T : Type} (tree : Spiceflow)
    (onNode : S -> Spiceflow -> S * option T) (s : S) :
  ((forall x s', x ∈ bfs tree -> (onNode s' x).2 = None) ->
   bfsFind tree onNode s
   = (foldl (fun s' x => (onNode s' x).1) s (bfs tree), None))
  /\ (forall before x after r,
        bfs tree = before ++ x :: after ->
        (forall y s', y ∈ before -> (onNode s' y).2 = None) ->
        (forall s', (onNode s' x).2 = Some r) ->
        bfsFind tree onNode s
        = ((onNode (foldl (fun s' y => (onNode s' y).1) s before) x).1,
           Some r)).
Proof.
  split.
  - intros Hnone. rewrite bfsFind_bfs.
    apply first_result_all_none. exact Hnone.
  - intros before x after r Hbfs Hbefore Hx.
    rewrite bfsFind_bfs, Hbfs. apply first_result_hit; assumption.
Qed.

(** ** Ancestors and scope *)

(** X3.  In a tree whose applications have distinct identities,
    [getAppAndParents] of an application of the tree is its ancestor chain:
    it starts at the root, every next element is a child of the previous
    one, and it ends at the application itself. *)
Theorem getAppAndParents_chain (root x : Spiceflow) :
  NoDup (map id (bfs root)) ->
  x ∈ bfs root ->
  is_path root (getAppAndParents root (Some x))
  /\ last (getAppAndParents root (Some x)) = Some x
  /\ (exists rest, getAppAndParents root (Some x) = root :: rest)
  /\ length (getAppAndParents root (Some x)) <= app_size root.
Proof.
  intros Hnd Hx.
  destruct (bfs_is_path root x Hx) as (p & Hp & Hl).
  rewrite (getAppAndParents_path root Hnd x p Hp Hl).
  split; [exact Hp|]. split; [exact Hl|].
  split; [|apply is_path_length; exact Hp].
  apply is_path_head. exact Hp.
Qed.

Lemma getAppAndParents_chain_witness :
  NoDup (map id (bfs app_one))
  /\ app_three ∈ bfs app_one
  /\ getAppAndParents app_one (Some app_three)
     = [app_one; app_two; app_three]
  /\ is_path app_one (getAppAndParents app_one (Some app_three))
  /\ last (getAppAndParents app_one (Some app_three)) = Some app_three.
Proof.
  assert (NoDup (map id (bfs app_one))) as Hnd.
  { apply (bool_decide_unpack _). vm_compute. exact I. }
  assert (app_three ∈ bfs app_one) as Hx.
  { change (bfs app_one) with [app_one; app_two; app_three; app_four].
    apply list_elem_of_further, list_elem_of_further, list_elem_of_here. }
  split; [exact Hnd|]. split; [exact Hx|]. split; [reflexivity|].
  destruct (getAppAndParents_chain app_one app_three Hnd Hx)
    as (Hp & Hl & _).
  split; [exact Hp|exact Hl].
Defined.

Lemma parents_of_stranger (root cur : Spiceflow) :
  id cur ∉ map id (flat_map childrenApps (bfs root)) ->
  (bfsFind root set_parents ∅).1 !! id cur = None.
Proof.
  intros Hid. rewrite bfsFind_bfs, first_result_set_parents. cbn [fst].
  rewrite foldl_insert_edge_fresh; [apply lookup_empty|].
  rewrite edges_fst. exact Hid.
Qed.

(** X4.  Edge cases of the ancestor walk.  For a root without children,
    [getAppAndParents] and [getAppsInScope] return the root alone, whatever
    they are asked about.  For a root with children, [getAppAndParents]
    returns the empty list for no application, and for an application that
    is nobody's child (the root, or an application outside the tree) the
    application alone. *)
Theorem getAppAndParents_edge (root : Spiceflow) :
  (childrenApps root = [] ->
   forall cur, getAppAndParents root cur = [root]
               /\ getAppsInScope root cur = [root])
  /\ (childrenApps root <> [] -> getAppAndParents root None = [])
  /\ (forall cur,
        childrenApps root <> [] ->
        id cur ∉ map id (flat_map childrenApps (bfs root)) ->
        getAppAndParents root (Some cur) = [cur]).
Proof.
  split; [|split].
  - intros Hc cur. unfold getAppsInScope, getAppAndParents. rewrite Hc.
    split; reflexivity.
  - intros Hc. unfold getAppAndParents.
    destruct (childrenApps root); [contradiction|reflexivity].
  - intros cur Hc Hid. unfold getAppAndParents.
    destruct (childrenApps root) eqn:E; [contradiction|]. cbn [length Nat.eqb].
    cbn [parents_loop]. rewrite (parents_of_stranger root cur Hid).
    destruct (app_size root); reflexivity.
Qed.

Lemma getAppAndParents_edge_witness :
  childrenApps app_four = []
  /\ getAppAndParents app_four (Some app_one) = [app_four]
  /\ getAppsInScope app_four None = [app_four]
  /\ childrenApps app_one <> []
  /\ getAppAndParents app_one None = []
  /\ getAppAndParents app_one (Some app_one) = [app_one].
Proof.
  destruct (getAppAndParents_edge app_four) as (H1 & _ & _).
  destruct (getAppAndParents_edge app_one) as (_ & H2 & H3).
  assert (childrenApps app_one <> []) as Hc by discriminate.
  split; [reflexivity|].
  split; [exact (proj1 (H1 eq_refl (Some app_one)))|].
  split; [exact (proj2 (H1 eq_refl None))|].
  split; [exact Hc|]. split; [exact (H2 Hc)|].
  apply (H3 app_one Hc).
  apply (bool_decide_unpack _). vm_compute. exact I.
Defined.

Lemma List_filter_sublist {A : Type} (f : A -> bool) (l : list A) :
  sublist (List.filter f l) l.
Proof.
  induction l as [|x l IH]; [constructor|].
  simpl. destruct (f x); [apply sublist_skip|apply sublist_cons]; exact IH.
Qed.

Lemma getAppsInScope_filter (root : Spiceflow) (cur : option Spiceflow) :
  exists f, getAppsInScope root cur = List.filter f (bfs root).
Proof.
  unfold getAppsInScope.
  destruct (Nat.eqb_spec (length (childrenApps root)) 0) as [E|E].
  - exists (fun _ => true). rewrite bfs_no_children; [reflexivity|].
    destruct (childrenApps root); [reflexivity|discriminate].
  - eexists. rewrite foldl_push_filter. reflexivity.
Qed.

(** X5.  The applications in scope are listed in the breadth-first order
    of the tree, each at most as often as the tree holds it: whatever the
    matched application, no application of a tree with distinct identities
    is in scope twice, so no middleware is collected twice. *)
Theorem scope_in_tree_order (root : Spiceflow) (cur : option Spiceflow) :
  sublist (getAppsInScope root cur) (bfs root)
  /\ (NoDup (map id (bfs root)) ->
      NoDup (map id (getAppsInScope root cur))).
Proof.
  destruct (getAppsInScope_filter root cur) as [f ->].
  split; [apply List_filter_sublist|].
  intros Hnd. eapply sublist_NoDup; [exact Hnd|].
  change (map id (List.filter f (bfs root)))
    with (id <$> List.filter f (bfs root)).
  change (map id (bfs root)) with (id <$> bfs root).
  apply fmap_sublist. apply List_filter_sublist.
Qed.

(** ** What [match] returns *)

Lemma bfs_head (t : Spiceflow) : exists rest, bfs t = t :: rest.
Proof.
  unfold bfs. rewrite bfs_loop_levels.
  - rewrite app_size_children. cbn [levels app]. eauto.
  - rewrite queue_size_cons. unfold queue_size; simpl. lia.
Qed.

Lemma match_node_shape (root : Spiceflow) (method path : string)
    (foundApp : option Spiceflow) (app : Spiceflow) :
  (forall res,
     (match_node root method path foundApp app).2 = Some res ->
     m_app res = app)
  /\ ((match_node root method path foundApp app).1 = foundApp
      \/ (match_node root method path foundApp app).1 = Some app).
Proof.
  unfold match_node.
  destruct (negb (String.eqb (app_prefix root app) "")
            && negb (startsWith path (app_prefix root app)));
    [split; [discriminate|left; reflexivity]|].
  destruct (router app _) as [found|];
    [|split; [discriminate|right; reflexivity]].
  destruct (assoc method (found_store found)) as [r|].
  { split; [intros res [= <-]; reflexivity|left; reflexivity]. }
  destruct (String.eqb method "HEAD");
    [|split; [discriminate|left; reflexivity]].
  destruct (assoc "GET" (found_store found)) as [g|];
    [|split; [discriminate|left; reflexivity]].
  split; [intros res [= <-]; reflexivity|left; reflexivity].
Qed.

Lemma first_result_match_app (root : Spiceflow) (method path : string)
    (L : list Spiceflow) (l : list Spiceflow) :
  (forall a, a ∈ l -> a ∈ L) ->
  forall s,
    (forall a, s = Some a -> a ∈ L) ->
    (forall res,
       (first_result (match_node root method path) s l).2 = Some res ->
       m_app res ∈ L)
    /\ (forall a,
          (first_result (match_node root method path) s l).1 = Some a ->
          a ∈ L).
Proof.
  induction l as [|x l IH]; intros Hl s Hs.
  - split; [discriminate|exact Hs].
  - cbn [first_result].
    destruct (match_node_shape root method path s x) as [Hres Hst].
    destruct (match_node root method path s x) as [s1 [res|]];
      cbn [fst snd] in *.
    + split.
      * intros res' [= <-]. rewrite (Hres res eq_refl).
        apply Hl, list_elem_of_here.
      * intros a Ha. destruct Hst as [->| ->]; [auto|].
        injection Ha as <-. apply Hl, list_elem_of_here.
    + apply IH.
      * intros a Ha. apply Hl, list_elem_of_further. exact Ha.
      * intros a Ha. destruct Hst as [->| ->]; [auto|].
        injection Ha as <-. apply Hl, list_elem_of_here.
Qed.

Lemma match_app_bfs (root : Spiceflow) (method path : string) :
  m_app (match_ root method path) ∈ bfs root.
Proof.
  unfold match_. rewrite bfsFind_bfs.
  destruct (first_result_match_app root method
              (or_slash (strip_trailing_slash path)) (bfs root) (bfs root)
              (fun a Ha => Ha) None) as [Hres Hst]; [discriminate|].
  destruct (first_result _ None (bfs root)) as [foundApp [res|]];
    cbn [fst snd] in *.
  - apply Hres. reflexivity.
  - cbn [m_app]. destruct foundApp as [a|]; [apply Hst; reflexivity|].
    apply bfs_root.
Qed.

Lemma scope_head (root cur : Spiceflow) :
  NoDup (map id (bfs root)) -> cur ∈ bfs root ->
  exists rest, getAppsInScope root (Some cur) = root :: rest.
Proof.
  intros Hnd Hcur. unfold getAppsInScope.
  destruct (Nat.eqb_spec (length (childrenApps root)) 0) as [E|E];
    [eauto|].
  rewrite foldl_push_filter. cbn [app].
  destruct (bfs_is_path root cur Hcur) as (p & Hp & Hl).
  rewrite (getAppAndParents_path root Hnd cur p Hp Hl).
  destruct (is_path_head _ _ Hp) as [p' ->].
  destruct (bfs_head root) as [rest ->]. cbn [List.filter].
  replace (app_includes (root :: p') root) with true.
  - rewrite orb_true_r. eauto.
  - symmetry. apply app_includes_true. exists root.
    split; [apply list_elem_of_here|reflexivity].
Qed.

(** X6.  [match] always answers with an application of the tree, and in a
    tree with distinct identities the root is the first application in
    scope of it: for every request, the middlewares and the error handlers
    of the root come first in the lists that [handle] collects. *)
Theorem root_scope_first `{Serializer} (this : Spiceflow) (request : Request)
    (h : heap) :
  let path := req_pathname request +:+ req_search request in
  let route := match_ this (req_method request) path in
  NoDup (map id (bfs this)) ->
  m_app route ∈ bfs this
  /\ exists rest,
       getAppsInScope this (Some (m_app route)) = this :: rest
       /\ handle this request None h
          = next (middlewares this ++ flat_map middlewares rest)
              (onErrorHandlers this ++ flat_map onErrorHandlers rest)
              route request (defaultState (m_app route) + length h) path
              (length (middlewares this ++ flat_map middlewares rest) + 2)
              (mkChain 0 None (h ++ map (rebase (length h)) h) false
                 (parseQuery (req_searchParams request)) (m_params route)
                 []).
Proof.
  intros path route Hnd.
  pose proof (match_app_bfs this (req_method request) path) as Hin.
  fold route in Hin. split; [exact Hin|].
  destruct (scope_head this (m_app route) Hnd Hin) as [rest Hrest].
  exists rest. split; [exact Hrest|].
  rewrite handle_chain. fold path route. rewrite Hrest. reflexivity.
Qed.

Lemma root_scope_first_witness :
  let request := get_request "/one/two/three/four/five" in
  NoDup (map id (bfs app_one))
  /\ m_app (match_ app_one "GET" "/one/two/three/four/five") = app_four
  /\ exists rest,
       getAppsInScope app_one (Some app_four) = app_one :: rest.
Proof.
  intros request.
  assert (NoDup (map id (bfs app_one))) as Hnd.
  { apply (bool_decide_unpack _). vm_compute. exact I. }
  split; [exact Hnd|]. split; [reflexivity|].
  destruct (root_scope_first (H := example_serialize) app_one request [[]]
              Hnd) as (_ & rest & Hrest & _).
  exists rest. exact Hrest.
Defined.

Lemma strip_trailing_slash_app (p : string) :
  strip_trailing_slash p = p -> strip_trailing_slash (p +:+ "/") = p.
Proof.
  induction p as [|c p IH]; intros Hp; [reflexivity|].
  destruct p as [|c' p].
  - cbn [strip_trailing_slash] in Hp.
    destruct (Ascii.eqb c "/"); [discriminate Hp|]. reflexivity.
  - change (strip_trailing_slash (String c (String c' p)))
      with (String c (strip_trailing_slash (String c' p))) in Hp.
    injection Hp as Hp.
    change (String c (String c' p) +:+ "/")
      with (String c (String c' (p +:+ "/"))).
    change (strip_trailing_slash (String c (String c' (p +:+ "/"))))
      with (String c (strip_trailing_slash (String c' p +:+ "/"))).
    rewrite (IH Hp). reflexivity.
Qed.

(** X7.  One trailing slash makes no difference, at registration or at
    lookup: for a path that does not end with a slash, [add] registers the
    same route for the path with a slash appended, and [match] gives the
    same answer for it; the empty path is treated as the path of one
    slash. *)
Theorem trailing_slash_ignored (path : string) (root : Spiceflow)
    (method : string) (handler : InlineHandler) (hooks : LocalHook) :
  strip_trailing_slash path = path ->
  match_ root method (path +:+ "/") = match_ root method path
  /\ add method (path +:+ "/") handler hooks root
     = add method path handler hooks root.
Proof.
  intros Hp. unfold match_, add.
  rewrite (strip_trailing_slash_app path Hp), Hp. split; reflexivity.
Qed.

Lemma trailing_slash_ignored_witness :
  strip_trailing_slash "/a/b/c" = "/a/b/c"
  /\ match_ (app_a (say "hi")) "GET" "/a/b/c/"
     = match_ (app_a (say "hi")) "GET" "/a/b/c"
  /\ m_app (match_ (app_a (say "hi")) "GET" "/a/b/c/") = app_b (say "hi").
Proof.
  split; [reflexivity|].
  split; [|reflexivity].
  exact (proj1 (trailing_slash_ignored "/a/b/c" (app_a (say "hi")) "GET"
                  (say "hi") no_hook eq_refl)).
Defined.

Lemma match_node_hit (root : Spiceflow) (method path : string)
    (app : Spiceflow) (found : MedleyResult) (route : InternalRoute) :
  (app_prefix root app = "" \/ startsWith path (app_prefix root app) = true) ->
  router app (pathWithoutPrefix root path app) = Some found ->
  assoc method (found_store found) = Some route ->
  forall foundApp,
    (match_node root method path foundApp app).2
    = Some (mkMatch app route
              (if truthy (found_params found) then found_params found
               else VObject [])).
Proof.
  intros Hp Hf Hr foundApp. unfold match_node, pathWithoutPrefix in *.
  destruct (String.eqb_spec (app_prefix root app) "") as [Ep|Ep];
    cbn [negb andb].
  - rewrite Hf, Hr. reflexivity.
  - destruct Hp as [Hp|Hp]; [contradiction|]. rewrite Hp. cbn [negb].
    rewrite Hf, Hr. reflexivity.
Qed.

(** X8.  The first application, in breadth-first order, that has a route
    for the request wins: when no application before [app] has one, the
    prefix of [app] starts the path, and the path matcher of [app] finds an
    entry with a route for the method, [match] returns [app] with that
    route, and with the parameters of the entry, or [{}] when it has
    none. *)
Theorem match_first_in_bfs (root : Spiceflow) (method path : string)
    (before after : list Spiceflow) (app : Spiceflow) (found : MedleyResult)
    (route : InternalRoute) :
  let p := normalize path in
  bfs root = before ++ app :: after ->
  (forall x, x ∈ before -> ~ has_route root method p x) ->
  (app_prefix root app = "" \/ startsWith p (app_prefix root app) = true) ->
  router app (pathWithoutPrefix root p app) = Some found ->
  assoc method (found_store found) = Some route ->
  match_ root method path
  = mkMatch app route
      (if truthy (found_params found) then found_params found
       else VObject []).
Proof.
  intros p Hbfs Hbefore Hp Hf Hr.
  eapply match_found; [exact Hbfs|exact Hbefore|].
  apply match_node_hit; assumption.
Qed.

Lemma match_first_in_bfs_witness :
  let root := app_a (say "hi") in
  let app := app_b (say "hi") in
  bfs root = [root] ++ app :: []
  /\ (forall x, x ∈ [root] -> ~ has_route root "GET" "/a/b/c" x)
  /\ (app_prefix root app = ""
      \/ startsWith "/a/b/c" (app_prefix root app) = true)
  /\ router app (pathWithoutPrefix root "/a/b/c" app)
     = Some (mkFound [("GET", route_c (say "hi"))] (VObject []))
  /\ match_ root "GET" "/a/b/c/"
     = mkMatch app (route_c (say "hi")) (VObject []).
Proof.
  intros root app.
  assert (forall x, x ∈ [root] -> ~ has_route root "GET" "/a/b/c" x) as H2.
  { intros x Hx. apply list_elem_of_singleton in Hx as ->.
    intros (_ & found & Hf & _). discriminate Hf. }
  split; [reflexivity|]. split; [exact H2|].
  split; [right; reflexivity|]. split; [reflexivity|].
  exact (match_first_in_bfs root "GET" "/a/b/c/" [root] [] app
           (mkFound [("GET", route_c (say "hi"))] (VObject []))
           (route_c (say "hi")) eq_refl H2 (or_intror eq_refl) eq_refl
           eq_refl).
Defined.

Lemma match_node_miss (root : Spiceflow) (method path : string)
    (app : Spiceflow) :
  ~ has_route root method path app ->
  forall foundApp,
    (match_node root method path foundApp app).1
    = if router_miss root path app then Some app else foundApp.
Proof.
  intros Hno foundApp.
  pose proof (match_node_no_route root method path app Hno foundApp) as Hn.
  unfold match_node, router_miss, pathWithoutPrefix in *.
  destruct (String.eqb_spec (app_prefix root app) "") as [Ep|Ep];
    cbn [negb andb orb] in *.
  - destruct (router app path) as [found|]; [|reflexivity].
    destruct (assoc method (found_store found)); [discriminate Hn|].
    destruct (String.eqb method "HEAD"); [|reflexivity].
    destruct (assoc "GET" (found_store found)); [discriminate Hn|reflexivity].
  - destruct (startsWith path (app_prefix root app)); cbn [negb andb] in *;
      [|reflexivity].
    destruct (router app (or_slash (replace_first (app_prefix root app) path)))
      as [found|]; [|reflexivity].
    destruct (assoc method (found_store found)); [discriminate Hn|].
    destruct (String.eqb method "HEAD"); [|reflexivity].
    destruct (assoc "GET" (found_store found)); [discriminate Hn|reflexivity].
Qed.

Lemma foldl_last_filter (f : Spiceflow -> bool) (l : list Spiceflow) :
  forall s : option Spiceflow,
    foldl (fun s' x => if f x then Some x else s') s l
    = match last (List.filter f l) with
      | Some a => Some a
      | None => s
      end.
Proof.
  induction l as [|x l IH]; intros s; [reflexivity|].
  cbn [foldl List.filter]. rewrite IH.
  destruct (f x) eqn:E; [|reflexivity].
  destruct (List.filter f l) as [|y l'] eqn:El; [reflexivity|].
  change (last (x :: y :: l')) with (last (y :: l')).
  destruct (last (y :: l')) eqn:E'; [reflexivity|].
  apply last_None in E'. discriminate E'.
Qed.

(** X9.  When no application has a route for the request, [match] answers
    with the not-found route, on behalf of the last application, in
    breadth-first order, whose prefix starts the path and whose path
    matcher has no entry for it; on behalf of the root when there is no such
    application.  An application that has an entry for the path, but for
    other methods only, does not count. *)
Theorem match_fallback_app (root : Spiceflow) (method path : string) :
  let p := normalize path in
  (forall app, app ∈ bfs root -> ~ has_route root method p app) ->
  match_ root method path
  = mkMatch
      (default root (last (List.filter (router_miss root p) (bfs root))))
      (synthesized_route notFoundHandler method p) (VObject []).
Proof.
  intros p Hno. unfold match_. fold (normalize path). fold p.
  rewrite bfsFind_bfs.
  assert (forall l,
            (forall app, app ∈ l -> ~ has_route root method p app) ->
            forall s,
              first_result (match_node root method p) s l
              = (foldl (fun s' x => if router_miss root p x then Some x
                                    else s') s l, None)) as Hfold.
  { induction l as [|x l IH]; intros Hl s; [reflexivity|].
    cbn [first_result foldl].
    pose proof (match_node_no_route root method p x
                  (Hl x (list_elem_of_here _ _)) s) as H2.
    pose proof (match_node_miss root method p x
                  (Hl x (list_elem_of_here _ _)) s) as H1.
    destruct (match_node root method p s x) as [s1 [r|]];
      cbn [fst snd] in *; [discriminate H2|].
    subst s1. apply IH. intros app Happ. apply Hl.
    apply list_elem_of_further. exact Happ. }
  rewrite (Hfold (bfs root) Hno None), foldl_last_filter.
  destruct (last (List.filter (router_miss root p) (bfs root)));
    reflexivity.
Qed.

Lemma match_fallback_app_witness :
  let root := app_a (say "hi") in
  (forall app, app ∈ bfs root -> ~ has_route root "POST" "/a/b/c" app)
  /\ List.filter (router_miss root "/a/b/c") (bfs root) = [root]
  /\ m_app (match_ root "POST" "/a/b/c") = root
  /\ m_app (match_ root "GET" "/a/b/x") = app_b (say "hi").
Proof.
  intros root.
  assert (forall app, app ∈ bfs root -> ~ has_route root "POST" "/a/b/c" app)
    as H1.
  { intros app Happ.
    change (bfs root) with [root; app_b (say "hi")] in Happ.
    apply elem_of_cons in Happ as [->|Happ].
    - intros (_ & found & Hf & _). discriminate Hf.
    - apply list_elem_of_singleton in Happ as ->.
      intros (_ & found & Hf & Hr). injection Hf as <-.
      destruct Hr as [Hr|[Hr _]]; [apply Hr; reflexivity|discriminate Hr]. }
  split; [exact H1|]. split; [reflexivity|]. split; [|reflexivity].
  rewrite (match_fallback_app root "POST" "/a/b/c" H1). reflexivity.
Defined.

(** ** Registration, then lookup *)

Lemma assoc_assoc_set {A : Type} (k k' : string) (v : A)
    (l : list (string * A)) :
  assoc k (assoc_set k' v l) = if String.eqb k k' then Some v else assoc k l.
Proof.
  induction l as [|[k1 v1] l IH]; cbn [assoc_set assoc].
  - destruct (String.eqb k k'); reflexivity.
  - destruct (String.eqb_spec k' k1) as [->|Hne]; cbn [assoc].
    + destruct (String.eqb k k1); reflexivity.
    + rewrite IH.
      destruct (String.eqb_spec k k1) as [->|Hne'].
      * destruct (String.eqb_spec k1 k'); [congruence|reflexivity].
      * reflexivity.
Qed.

Section Adds.
Variable path : string.
Variable handler : InlineHandler.
Variable hooks : LocalHook.

Local Abbreviation step :=
  (fun (app : Spiceflow) (method : string) =>
     add method path handler hooks app).
Local Abbreviation route_of :=
  (fun method : string => added_route method path handler hooks).
Local Abbreviation store_step :=
  (fun (st : Store) (method : string) => assoc_set method (route_of method) st).

Lemma adds_fields (methods : list string) :
  forall app,
    id (foldl step app methods) = id app
    /\ prefix (foldl step app methods) = prefix app
    /\ childrenApps (foldl step app methods) = childrenApps app
    /\ middlewares (foldl step app methods) = middlewares app
    /\ onErrorHandlers (foldl step app methods) = onErrorHandlers app
    /\ routes (foldl step app methods)
       = routes app ++ map route_of methods.
Proof.
  induction methods as [|m ms IH]; intros app; cbn [foldl map].
  - rewrite app_nil_r. repeat split; reflexivity.
  - destruct (IH (add m path handler hooks app))
      as (-> & -> & -> & -> & -> & ->).
    cbn [add id prefix childrenApps middlewares onErrorHandlers routes].
    rewrite <- app_assoc. repeat split; reflexivity.
Qed.

Lemma adds_router (methods : list string) :
  forall app,
    methods <> [] ->
    router (foldl step app methods) (normalize path)
    = Some (mkFound
              (foldl store_step
                 match router app (normalize path) with
                 | Some found => found_store found
                 | None => []
                 end methods)
              (VObject [])).
Proof.
  induction methods as [|m ms IH]; intros app Hne; [contradiction|].
  cbn [foldl].
  assert (router (add m path handler hooks app) (normalize path)
          = Some (mkFound
                    (assoc_set m (route_of m)
                       match router app (normalize path) with
                       | Some found => found_store found
                       | None => []
                       end) (VObject []))) as E.
  { unfold add, register, normalize. cbn [router].
    rewrite String.eqb_refl. reflexivity. }
  destruct ms as [|m' ms]; [exact E|].
  rewrite IH by discriminate. rewrite E. reflexivity.
Qed.

Lemma assoc_store_steps_other (method : string) (methods : list string) :
  forall st,
    ~ In method methods ->
    assoc method (foldl store_step st methods) = assoc method st.
Proof.
  induction methods as [|m ms IH]; intros st Hin; [reflexivity|].
  cbn [foldl]. rewrite IH by (intros Hm; apply Hin; right; exact Hm).
  rewrite assoc_assoc_set.
  destruct (String.eqb_spec method m) as [->|Hne]; [|reflexivity].
  exfalso. apply Hin. left. reflexivity.
Qed.

Lemma assoc_store_steps (method : string) (methods : list string) :
  forall st,
    In method methods ->
    assoc method (foldl store_step st methods) = Some (route_of method).
Proof.
  induction methods as [|m ms IH]; intros st Hin; [destruct Hin|].
  cbn [foldl].
  destruct (in_dec string_dec method ms) as [Hms|Hms]; [apply IH; exact Hms|].
  rewrite assoc_store_steps_other by exact Hms.
  rewrite assoc_assoc_set.
  destruct Hin as [->|Hin]; [|contradiction].
  rewrite String.eqb_refl. reflexivity.
Qed.

Lemma or_slash_nonempty (s : string) : or_slash (or_slash s) = or_slash s.
Proof. destruct s; reflexivity. Qed.

(** A route registered on the root is found under the root's prefix. *)
Lemma adds_then_match (methods : list string) (app : Spiceflow)
    (method request_path : string) :
  let app' := foldl step app methods in
  NoDup (map id (bfs app')) ->
  In method methods ->
  normalize request_path
  = strip_trailing_slash (default "" (prefix app)) +:+ normalize path ->
  match_ app' method request_path
  = mkMatch app' (route_of method) (VObject []).
Proof.
  intros app' Hnd Hin Hpath.
  destruct (bfs_head app') as [rest Hbfs].
  assert (app_prefix app' app'
          = strip_trailing_slash (default "" (prefix app))) as Hprefix.
  { unfold app_prefix.
    rewrite (getAppAndParents_path app' Hnd app' [app'] (is_path_here app')
               eq_refl).
    cbn [map join]. unfold app'.
    destruct (adds_fields methods app) as (_ & -> & _). reflexivity. }
  assert (pathWithoutPrefix app' (normalize request_path) app'
          = normalize path) as Hlookup.
  { unfold pathWithoutPrefix. rewrite Hprefix, Hpath.
    destruct (strip_trailing_slash (default "" (prefix app))) as [|a s] eqn:E.
    - reflexivity.
    - cbn [String.eqb]. rewrite replace_first_prefix.
      apply or_slash_nonempty. }
  change (VObject []) with
    (if truthy (found_params (mkFound
                  (foldl store_step
                     match router app (normalize path) with
                     | Some found => found_store found
                     | None => []
                     end methods) (VObject [])))
     then VObject [] else VObject []).
  eapply (match_found app' method request_path [] rest app').
  - exact Hbfs.
  - intros x Hx. inversion Hx.
  - apply match_node_hit.
    + rewrite Hprefix. fold (normalize request_path). rewrite Hpath.
      right. apply startsWith_app.
    + fold (normalize request_path). rewrite Hlookup.
      apply adds_router. intros ->. destruct Hin.
    + cbn [found_store]. apply assoc_store_steps. exact Hin.
Qed.
End Adds.

(** X10.  Registration, then lookup: a route added to the root with [add]
    is what [match] returns for the same method and for every request path
    that, once normalised, is the prefix of the root followed by the
    normalised path of the route; it is the last of the routes of the
    application, and it replaces an earlier route for the same method and
    path. *)
Theorem add_then_match (method path : string) (handler : InlineHandler)
    (hooks : LocalHook) (app : Spiceflow) (request_path : string) :
  let app' := add method path handler hooks app in
  NoDup (map id (bfs app')) ->
  normalize request_path
  = strip_trailing_slash (default "" (prefix app)) +:+ normalize path ->
  match_ app' method request_path
  = mkMatch app' (added_route method path handler hooks) (VObject [])
  /\ last (routes app') = Some (added_route method path handler hooks).
Proof.
  intros app' Hnd Hpath. split.
  - apply (adds_then_match path handler hooks [method] app method
             request_path Hnd (or_introl eq_refl) Hpath).
  - unfold app', add. cbn [routes]. apply last_snoc.
Qed.

Lemma add_then_match_witness :
  let app := get "/users" (say "old") no_hook
               (new_Spiceflow 0 (Some "/api/") None) in
  let app' := add "GET" "/users/" (say "new") no_hook app in
  NoDup (map id (bfs app'))
  /\ normalize "/api/users/" = "/api" +:+ "/users"
  /\ match_ app' "GET" "/api/users/"
     = mkMatch app' (added_route "GET" "/users/" (say "new") no_hook)
         (VObject [])
  /\ route_path (added_route "GET" "/users/" (say "new") no_hook) = "/users".
Proof.
  intros app app'.
  assert (NoDup (map id (bfs app'))) as Hnd.
  { apply (bool_decide_unpack _). vm_compute. exact I. }
  split; [exact Hnd|]. split; [reflexivity|]. split; [|reflexivity].
  exact (proj1 (add_then_match "GET" "/users/" (say "new") no_hook app
                  "/api/users/" Hnd eq_refl)).
Defined.

(** X11.  [all] registers the handler for each of the ten names of
    [METHODS], the name [ALL] included, in that order: the application gets
    ten more routes, and [match] finds the handler for each of those
    methods at the registered path. *)
Theorem all_registers_every_method (path : string) (handler : InlineHandler)
    (hooks : LocalHook) (app : Spiceflow) (method request_path : string) :
  let app' := all path handler hooks app in
  NoDup (map id (bfs app')) ->
  In method METHODS ->
  normalize request_path
  = strip_trailing_slash (default "" (prefix app)) +:+ normalize path ->
  match_ app' method request_path
  = mkMatch app' (added_route method path handler hooks) (VObject [])
  /\ routes app'
     = routes app
       ++ map (fun m => added_route m path handler hooks) METHODS.
Proof.
  intros app' Hnd Hin Hpath. split.
  - apply (adds_then_match path handler hooks METHODS app method
             request_path Hnd Hin Hpath).
  - apply (adds_fields path handler hooks METHODS app).
Qed.

Lemma all_registers_every_method_witness :
  let app := new_Spiceflow 0 None None in
  let app' := all "/any" (say "hi") no_hook app in
  NoDup (map id (bfs app'))
  /\ In "PATCH" METHODS
  /\ normalize "/any" = "" +:+ "/any"
  /\ match_ app' "PATCH" "/any"
     = mkMatch app' (added_route "PATCH" "/any" (say "hi") no_hook)
         (VObject [])
  /\ length (routes app') = 10.
Proof.
  intros app app'.
  assert (NoDup (map id (bfs app'))) as Hnd.
  { apply (bool_decide_unpack _). vm_compute. exact I. }
  assert (In "PATCH" METHODS) as Hin by (unfold METHODS; simpl; tauto).
  split; [exact Hnd|]. split; [exact Hin|]. split; [reflexivity|].
  split; [|reflexivity].
  exact (proj1 (all_registers_every_method "/any" (say "hi") no_hook app
                  "PATCH" "/any" Hnd Hin eq_refl)).
Defined.

(** ** The list of all routes *)

Lemma flat_map_length_sum {A B : Type} (f : A -> list B) (l : list A) :
  length (flat_map f l) = list_sum (map (fun x => length (f x)) l).
Proof.
  induction l as [|x l IH]; [reflexivity|].
  cbn [flat_map map list_sum]. rewrite length_app, IH. reflexivity.
Qed.

(** X12.  In a tree whose applications have distinct identities,
    [getAllRoutes] lists every route of every application of the tree, in
    breadth-first order of the applications and registration order of the
    routes, with its path behind the base paths of the ancestor chain, from
    the root down to the application that holds the route, joined as they
    are; nothing else is listed. *)
Theorem getAllRoutes_paths (root : Spiceflow) :
  NoDup (map id (bfs root)) ->
  length (getAllRoutes root)
  = list_sum (map (fun x => length (routes x)) (bfs root))
  /\ forall r',
       r' ∈ getAllRoutes root
       <-> exists x p r,
             is_path root p /\ last p = Some x /\ r ∈ routes x
             /\ r' = with_path
                       (join "" (map (fun y => default "" (prefix y)) p)
                        +:+ route_path r) r.
Proof.
  intros Hnd. split.
  - unfold getAllRoutes. rewrite flat_map_length_sum. f_equal.
    apply map_ext. intros x. apply length_map.
  - intros r'. unfold getAllRoutes.
    rewrite list_elem_of_In, in_flat_map. split.
    + intros (x & Hx & Hr). apply list_elem_of_In in Hx.
      apply in_map_iff in Hr as (r & <- & Hr).
      destruct (bfs_is_path root x Hx) as (p & Hp & Hl).
      exists x, p, r. split; [exact Hp|]. split; [exact Hl|].
      split; [apply list_elem_of_In; exact Hr|].
      unfold path_prefix.
      rewrite (getAppAndParents_path root Hnd x p Hp Hl). reflexivity.
    + intros (x & p & r & Hp & Hl & Hr & ->).
      exists x. split.
      * apply list_elem_of_In. eapply is_path_last_bfs; eassumption.
      * apply in_map_iff. exists r. split; [|apply list_elem_of_In; exact Hr].
        unfold path_prefix.
        rewrite (getAppAndParents_path root Hnd x p Hp Hl). reflexivity.
Qed.

Lemma getAllRoutes_paths_witness :
  NoDup (map id (bfs app_one))
  /\ map route_path (getAllRoutes app_one)
     = ["/one/ids/:id"; "/one/two/three/four/five"]
  /\ length (getAllRoutes app_one)
     = list_sum (map (fun x => length (routes x)) (bfs app_one)).
Proof.
  assert (NoDup (map id (bfs app_one))) as Hnd.
  { apply (bool_decide_unpack _). vm_compute. exact I. }
  split; [exact Hnd|]. split; [reflexivity|].
  exact (proj1 (getAllRoutes_paths app_one Hnd)).
Defined.

(** ** The query object *)

Section QueryObject.

Local Abbreviation query_fold :=
  (fun (paramsObject : list (string * jsval)) (kv : string * string) =>
     match assoc kv.1 paramsObject with
     | Some existing =>
         if truthy existing then
           assoc_set kv.1
             match existing with
             | VArray l => VArray (l ++ [VStr kv.2])
             | _ => VArray [existing; VStr kv.2]
             end paramsObject
         else assoc_set kv.1 (VStr kv.2) paramsObject
     | None => assoc_set kv.1 (VStr kv.2) paramsObject
     end).

(** The loop of [parseQuery], seen from one key, only steps on the values
    of that key. *)
Lemma parseQuery_fold (key : string) (pairs : list (string * string)) :
  forall paramsObject,
    assoc key (foldl query_fold paramsObject pairs)
    = foldl query_step (assoc key paramsObject) (values_of key pairs).
Proof.
  induction pairs as [|[k v] pairs IH]; intros paramsObject; [reflexivity|].
  cbn [foldl]. rewrite IH. unfold values_of. cbn [List.filter fst snd].
  assert (assoc key (query_fold paramsObject (k, v))
          = if String.eqb k key then query_step (assoc key paramsObject) v
            else assoc key paramsObject) as Hstep.
  { unfold query_step. cbn [fst snd].
    destruct (String.eqb_spec k key) as [->|Hne].
    - destruct (assoc key paramsObject) as [existing|].
      + destruct (truthy existing); rewrite assoc_assoc_set, String.eqb_refl;
          reflexivity.
      + rewrite assoc_assoc_set, String.eqb_refl. reflexivity.
    - assert (String.eqb key k = false) as Hne'
        by (apply String.eqb_neq; congruence).
      destruct (assoc k paramsObject) as [existing|].
      + destruct (truthy existing); rewrite assoc_assoc_set, Hne';
          reflexivity.
      + rewrite assoc_assoc_set, Hne'. reflexivity. }
  cbn [fst snd] in Hstep. rewrite Hstep.
  destruct (String.eqb k key); reflexivity.
Qed.

Lemma query_steps_array (l : list jsval) (values : list string) :
  foldl query_step (Some (VArray l)) values
  = Some (VArray (l ++ map VStr values)).
Proof.
  revert l. induction values as [|v values IH]; intros l; cbn [foldl map].
  - rewrite app_nil_r. reflexivity.
  - unfold query_step at 2. cbn [truthy]. rewrite IH, <- app_assoc.
    reflexivity.
Qed.

Lemma query_steps_string (s : string) (values : list string) :
  foldl query_step (Some (VStr s)) values
  = Some (query_value (s :: values)).
Proof.
  revert s. induction values as [|v values IH]; intros s.
  - cbn [foldl query_value dropwhile_empty].
    destruct (String.eqb_spec s "") as [->|Hs]; reflexivity.
  - cbn [foldl]. unfold query_step at 2. cbn [truthy].
    destruct (String.eqb_spec s "") as [->|Hs]; cbn [negb].
    + rewrite IH. reflexivity.
    + rewrite (query_steps_array [VStr s; VStr v] values).
      cbn [query_value dropwhile_empty].
      apply String.eqb_neq in Hs. rewrite Hs. reflexivity.
Qed.

End QueryObject.


(** ** What becomes of the outcome of the route handler *)

Lemma console_errors_app (t1 t2 : list event) :
  console_errors (t1 ++ t2) = console_errors t1 ++ console_errors t2.
Proof. unfold console_errors. apply flat_map_app. Qed.

Lemma error_handler_calls_app (t1 t2 : list event) :
  error_handler_calls (t1 ++ t2)
  = error_handler_calls t1 ++ error_handler_calls t2.
Proof. unfold error_handler_calls. apply flat_map_app. Qed.

Lemma only_calls (t : list event) :
  Forall (fun e => is_call e = true) t ->
  error_handler_calls t = [] /\ console_errors t = [].
Proof.
  induction 1 as [|e t He _ [IH1 IH2]]; [auto|].
  destruct e; try discriminate He; auto.
Qed.

Lemma calm_start (R : Response -> Prop) (state : loc) (h : heap)
    (query params : jsval) :
  is_Some (h !! state) ->
  calm R state (mkChain 0 None h false query params []).
Proof.
  intros Hs. unfold calm; chain_simpl.
  split; [exact Hs|]. split; [discriminate|constructor].
Qed.

Section HandlerOutcome.
Context `{Serializer}.
Variable ehs : list OnError.
Variable route : MatchResult.
Variable request : Request.
Variable state : loc.
Variable path : string.

Hypothesis query_ok : accepts (validateQuery (m_route route)).
Hypothesis params_ok : accepts (validateParams (m_route route)).

(** The handler returns [v], which converts to [r0]: [next] stores and
    returns [r0], and no error handling takes place. *)
Lemma returned_tail (v : jsval) (r0 : Response)
    (retry : Chain -> option (completion Response * Chain)) (c : Chain) :
  (forall ctx, route_handler (m_route route) ctx = Return v) ->
  convert v (m_route route) = Returned r0 ->
  calm (fun r => r = r0) state c ->
  answers_with (fun r => r = r0) (calm (fun r => r = r0) state)
    (catch_next ehs request retry (next_handler route request state path c)).
Proof.
  intros Hh Hconv (H1 & H2 & H3) o c' E. unfold next_handler in E.
  destruct (handlerResponse c) as [r|] eqn:Hr.
  - cbn [catch_next] in E. injection E as <- <-.
    exists r. split; [reflexivity|]. split; [auto|].
    split; [exact H1|]. split; [|exact H3]. rewrite Hr. exact H2.
  - destruct (query_ok (c_query c)) as [q Hq]. rewrite Hq in E.
    destruct (params_ok (c_params (set_query q c))) as [ps Hps].
    rewrite Hps, Hh in E. cbn [run] in E.
    change (if isAsyncIterable v then handleStream v
            else turnHandlerResultIntoResponse v (m_route route))
      with (convert v (m_route route)) in E.
    rewrite Hconv in E. cbn [catch_next] in E. injection E as <- <-.
    exists r0. split; [reflexivity|]. split; [reflexivity|].
    unfold calm; chain_simpl. split; [exact H1|].
    split; [intros r' [= <-]; reflexivity|].
    apply Forall_app. split; [exact H3|].
    constructor; [reflexivity|constructor].
Qed.

(** The handler throws the response [r0]: it becomes the response, and no
    error handler is asked. *)
Lemma thrown_response_tail (r0 : Response)
    (retry : Chain -> option (completion Response * Chain)) (c : Chain) :
  (forall ctx, route_handler (m_route route) ctx = Throw (VResponse r0)) ->
  (forall c1, calm (fun r => r = r0) state c1 ->
              answers_with (fun r => r = r0) (calm (fun r => r = r0) state)
                (retry c1)) ->
  calm (fun r => r = r0) state c ->
  answers_with (fun r => r = r0) (calm (fun r => r = r0) state)
    (catch_next ehs request retry (next_handler route request state path c)).
Proof.
  intros Hh Hretry (H1 & H2 & H3) o c' E. unfold next_handler in E.
  destruct (handlerResponse c) as [r|] eqn:Hr.
  - cbn [catch_next] in E. injection E as <- <-.
    exists r. split; [reflexivity|]. split; [auto|].
    split; [exact H1|]. split; [|exact H3]. rewrite Hr. exact H2.
  - destruct (query_ok (c_query c)) as [q Hq]. rewrite Hq in E.
    destruct (params_ok (c_params (set_query q c))) as [ps Hps].
    rewrite Hps, Hh in E. cbn [run catch_next getResForError] in E.
    eapply Hretry; [|exact E].
    unfold calm; chain_simpl. split; [exact H1|].
    split; [intros r' [= <-]; reflexivity|].
    apply Forall_app. split; [exact H3|].
    constructor; [reflexivity|constructor].
Qed.
End HandlerOutcome.

Lemma handle_passes `{Serializer} (this : Spiceflow) (request : Request)
    (customState : option loc) (h : heap) (r0 : Response) :
  let route := match_ this (req_method request)
                 (req_pathname request +:+ req_search request) in
  let scope := getAppsInScope this (Some (m_app route)) in
  let init := initial_state (m_app route) customState h in
  Forall (fun m => forall ctx, passes (fun r => r = r0) (m ctx))
    (flat_map middlewares scope) ->
  is_Some (init.1 !! init.2) ->
  (forall retry c,
     (forall c1, calm (fun r => r = r0) init.2 c1 ->
                 answers_with (fun r => r = r0)
                   (calm (fun r => r = r0) init.2) (retry c1)) ->
     calm (fun r => r = r0) init.2 c ->
     answers_with (fun r => r = r0) (calm (fun r => r = r0) init.2)
       (catch_next (flat_map onErrorHandlers scope) request retry
          (next_handler route request init.2
             (req_pathname request +:+ req_search request) c))) ->
  exists c,
    handle this request customState h = Some (Returned r0, c)
    /\ error_handler_calls (trace c) = []
    /\ console_errors (trace c) = [].
Proof.
  intros route scope init Hmws Hstate Htail.
  destruct (handle_returns this request customState h) as (o & c & E).
  pose proof E as E'. unfold handle in E'. fold route scope in E'.
  change (initial_state (m_app route) customState h) with init in E'.
  eapply (next_passes (flat_map middlewares scope) _ route request init.2 _
            (fun r => r = r0) (calm (fun r => r = r0) init.2)) in E'.
  - destruct E' as (r & -> & -> & (_ & _ & Ht)).
    exists c. split; [exact E|]. apply only_calls. exact Ht.
  - exact Hmws.
  - intros c0 Hc0. apply Hc0.
  - intros. apply calm_write; assumption.
  - intros. apply calm_middleware; assumption.
  - intros. apply calm_response; assumption.
  - exact Htail.
  - apply calm_start. exact Hstate.
Qed.



(** X15.  A [Response] thrown by the route handler is the response of the
    request: when the validators of the route report no issue and the
    middlewares let the response through, [handle] returns the thrown
    response itself, no error handler is called and nothing is logged. *)
Theorem thrown_response_returned `{Serializer} (this : Spiceflow)
    (request : Request) (customState : option loc) (h : heap)
    (r0 : Response) :
  let route := match_ this (req_method request)
                 (req_pathname request +:+ req_search request) in
  let scope := getAppsInScope this (Some (m_app route)) in
  let init := initial_state (m_app route) customState h in
  (forall ctx, route_handler (m_route route) ctx = Throw (VResponse r0)) ->
  accepts (validateQuery (m_route route)) ->
  accepts (validateParams (m_route route)) ->
  Forall (fun m => forall ctx, passes (fun r => r = r0) (m ctx))
    (flat_map middlewares scope) ->
  is_Some (init.1 !! init.2) ->
  exists c,
    handle this request customState h = Some (Returned r0, c)
    /\ error_handler_calls (trace c) = []
    /\ console_errors (trace c) = [].
Proof.
  intros route scope init Hh Hq Hp Hmws Hstate.
  apply handle_passes; [exact Hmws|exact Hstate|].
  intros retry c Hretry Hc. eapply thrown_response_tail; eassumption.
Qed.

Lemma thrown_response_returned_witness :
  let r0 := mkResponse (VNum 400%Z) "" [] (BodyText "Custom error") in
  let app := onError (fun _ _ => EHResponse teapot)
               (get "/throws" (fun _ => Throw (VResponse r0)) no_hook
                  (new_Spiceflow 0 None None)) in
  let request := get_request "/throws" in
  let route := match_ app "GET" "/throws" in
  (forall ctx, route_handler (m_route route) ctx = Throw (VResponse r0))
  /\ exists c,
       handle (H := example_serialize) app request None [[]]
       = Some (Returned r0, c)
       /\ error_handler_calls (trace c) = [].
Proof.
  intros r0 app request route.
  split; [reflexivity|].
  destruct (thrown_response_returned (H := example_serialize) app request
              None [[]] r0 (fun _ => eq_refl)
              (fun value => ex_intro _ value eq_refl)
              (fun value => ex_intro _ value eq_refl)
              (List.Forall_nil _) (ex_intro _ [] eq_refl))
    as (c & E & He & _).
  exists c. split; [exact E|exact He].
Defined.

(** ** Errors of the route handler *)

Lemma filter_filter_sub {A : Type} (f g : A -> bool) (l : list A) :
  (forall x, f x = true -> g x = true) ->
  List.filter f (List.filter g l) = List.filter f l.
Proof.
  intros Hfg. induction l as [|x l IH]; [reflexivity|].
  cbn [List.filter]. destruct (g x) eqn:Eg.
  - cbn [List.filter]. rewrite IH. reflexivity.
  - rewrite IH. destruct (f x) eqn:Ef; [|reflexivity].
    rewrite (Hfg x Ef) in Eg. discriminate Eg.
Qed.

Lemma handler_calls_of_calls (t : list event) (l : list nat) :
  calls t = map EvMiddleware l ++ [EvHandler] -> handler_calls t = 1.
Proof.
  intros E. unfold handler_calls.
  rewrite <- (filter_filter_sub _ is_call t).
  - fold (calls t). rewrite E, List.filter_app, length_app. clear E.
    replace (List.filter _ (map EvMiddleware l)) with (@nil event).
    + reflexivity.
    + induction l as [|i l IH]; [reflexivity|exact IH].
  - intros [] Hx; try discriminate Hx; reflexivity.
Qed.

Section UnhandledError.
Context `{Serializer}.
Variable route : MatchResult.
Variable request : Request.
Variable state : loc.
Variable path : string.
Variable err : jsval.

Hypothesis query_ok : accepts (validateQuery (m_route route)).
Hypothesis params_ok : accepts (validateParams (m_route route)).
Hypothesis throws : forall ctx, route_handler (m_route route) ctx = Throw err.
Hypothesis not_response : isResponse err = false.

Local Abbreviation R := (fun r : Response => r = default_error_response err).

Lemma logged_write (c : Chain) (key : string) (v : jsval) (o : sobject) :
  logged R state err c -> c_heap c !! state = Some o ->
  logged R state err
    (set_heap (<[state := assoc_set key (SVal v) o]> (c_heap c)) c).
Proof.
  intros (H1 & H2) Ho. unfold logged; chain_simpl. split; [|exact H2].
  rewrite list_lookup_insert_eq by (eapply lookup_lt_Some; exact Ho). eauto.
Qed.

Lemma logged_middleware (c : Chain) :
  logged R state err c ->
  logged R state err
    (log (EvMiddleware (index c)) (set_index (S (index c)) c)).
Proof.
  intros (H1 & H2 & H3 & H4 & H5). unfold logged; chain_simpl.
  rewrite console_errors_app, error_handler_calls_app, handler_calls_app.
  cbn. rewrite !app_nil_r, Nat.add_0_r. auto.
Qed.

Lemma logged_response (c : Chain) (r : Response) :
  logged R state err c -> R r ->
  logged R state err (set_handlerResponse r c).
Proof.
  intros (H1 & H2 & H3 & H4 & H5) Hr. unfold logged; chain_simpl.
  split; [exact H1|]. split; [intros r' [= <-]; exact Hr|].
  split; [exact H3|]. split; [exact H4|discriminate].
Qed.

(** Without error handlers, the error of the handler is logged and becomes
    the default response. *)
Lemma unhandled_tail
    (retry : Chain -> option (completion Response * Chain)) (c : Chain) :
  (forall c1, logged R state err c1 ->
              answers_with R (logged R state err) (retry c1)) ->
  logged R state err c ->
  answers_with R (logged R state err)
    (catch_next [] request retry (next_handler route request state path c)).
Proof.
  intros Hretry (H1 & H2 & H3 & H4 & H5) o c' E. unfold next_handler in E.
  destruct (handlerResponse c) as [r|] eqn:Hr.
  - cbn [catch_next] in E. injection E as <- <-.
    exists r. split; [reflexivity|]. split; [auto|].
    unfold logged. rewrite Hr. auto.
  - destruct (query_ok (c_query c)) as [q Hq]. rewrite Hq in E.
    destruct (params_ok (c_params (set_query q c))) as [ps Hps].
    rewrite Hps, throws in E. cbn [run catch_next] in E.
    assert (forall c0,
              getResForError [] request err c0
              = (Returned (default_error_response err),
                 log (EvConsoleError err) c0)) as Eg.
    { intros c0. unfold getResForError.
      destruct err; try discriminate not_response; reflexivity. }
    rewrite Eg in E. eapply Hretry; [|exact E].
    unfold logged; chain_simpl.
    rewrite !console_errors_app, !error_handler_calls_app, !handler_calls_app.
    rewrite (H5 eq_refl) in *. cbn. rewrite H3, H4.
    split; [exact H1|]. split; [intros r' [= <-]; reflexivity|].
    split; [reflexivity|]. split; [reflexivity|discriminate].
Qed.
End UnhandledError.



(** ** The first middleware of the chain *)

(** X17.  A first middleware that returns a truthy value ends the request:
    when the value converts to a response, [handle] returns that response,
    and neither another middleware, nor the route handler, nor an error
    handler is called; the response is stored as [handlerResponse] only when
    the middleware returned a [Response]. *)
Theorem first_middleware_answers `{Serializer} (this : Spiceflow)
    (request : Request) (customState : option loc) (h : heap)
    (m : MiddlewareHandler) (rest : list MiddlewareHandler) (v : jsval)
    (r0 : Response) :
  let route := match_ this (req_method request)
                 (req_pathname request +:+ req_search request) in
  let scope := getAppsInScope this (Some (m_app route)) in
  flat_map middlewares scope = m :: rest ->
  (forall ctx, m ctx = Return v) ->
  truthy v = true ->
  turnHandlerResultIntoResponse v (m_route route) = Returned r0 ->
  exists c,
    handle this request customState h = Some (Returned r0, c)
    /\ trace c = [EvMiddleware 0]
    /\ handlerResponse c
       = match v with VResponse r => Some r | _ => None end.
Proof.
  intros route scope Hmws Hm Hv Hturn.
  unfold handle. fold route scope. rewrite Hmws.
  change (length (m :: rest) + 2) with (S (length rest + 2)).
  cbn [next]. cbn [index lookup list_lookup]. rewrite Hm. cbn [run].
  rewrite Hv. cbn [negb andb]. rewrite Hturn. cbn [catch_next].
  eexists. split; [reflexivity|].
  destruct v; split; reflexivity.
Qed.

Lemma first_middleware_answers_witness :
  let request := get_request "/ids/:id" in
  let route := match_ stopping_app "GET" "/ids/:id" in
  let r0 := new_Response (BodyText "ok") None [] in
  flat_map middlewares (getAppsInScope stopping_app (Some (m_app route)))
  = [(fun _ => Return (VResponse r0)); (fun _ => Return VUndefined)]
  /\ exists c,
       handle (H := example_serialize) stopping_app request None [[]]
       = Some (Returned r0, c)
       /\ trace c = [EvMiddleware 0]
       /\ handlerResponse c = Some r0.
Proof.
  intros request route r0. split; [reflexivity|].
  exact (first_middleware_answers (H := example_serialize) stopping_app
           request None [[]] (fun _ => Return (VResponse r0))
           [fun _ => Return VUndefined] (VResponse r0) r0 eq_refl
           (fun _ => eq_refl) eq_refl eq_refl).
Defined.

Section PassesFrom.
Context `{Serializer}.
Variable mws : list MiddlewareHandler.
Variable ehs : list OnError.
Variable route : MatchResult.
Variable request : Request.
Variable state : loc.
Variable path : string.
Variable R : Response -> Prop.
Variable G : Chain -> Prop.
Variable n : nat.

Hypothesis mws_pass_from : forall i m,
  n <= i -> mws !! i = Some m -> forall ctx, passes R (m ctx).
Hypothesis G_index : forall c, G c -> n <= index c.
Hypothesis G_state : forall c, G c -> is_Some (c_heap c !! state).
Hypothesis G_write : forall c key v o,
  G c -> c_heap c !! state = Some o ->
  G (set_heap (<[state := assoc_set key (SVal v) o]> (c_heap c)) c).
Hypothesis G_middleware : forall c,
  G c -> G (log (EvMiddleware (index c)) (set_index (S (index c)) c)).
Hypothesis G_response : forall c r,
  G c -> R r -> G (set_handlerResponse r c).
Hypothesis tail : forall retry c,
  (forall c1, G c1 -> answers_with R G (retry c1)) ->
  G c ->
  answers_with R G
    (catch_next ehs request retry (next_handler route request state path c)).

(** As [next_passes], for a chain that has left the first [n] middlewares
    behind: only the later ones need to let the response through. *)
Lemma next_passes_from (fuel : nat) :
  forall c,
    G c -> answers_with R G (next mws ehs route request state path fuel c).
Proof.
  induction fuel as [|fuel IH]; intros c Hc; [intros o c' E; discriminate|].
  cbn [next].
  destruct (mws !! index c) as [middleware|] eqn:Hm; [|apply tail; auto].
  set (c1 := log (EvMiddleware (index c)) (set_index (S (index c)) c)).
  assert (G c1) as Hc1 by (apply G_middleware; exact Hc).
  pose proof (mws_pass_from (index c) middleware (G_index c Hc) Hm) as Hpass.
  destruct (run route request state (next mws ehs route request state path fuel)
              (middleware (context_of request state path c1)) c1)
    as [[o2 c2]|] eqn:Er; [|intros o c' E; discriminate].
  destruct (run_passes route request state R G G_state G_write _ _ (Hpass _)
              IH c1 _ _ Hc1 Er) as (v & -> & Hc2 & Hv).
  destruct Hv as [Hfalsy|(r & -> & Hr)].
  - assert (match v with
            | VResponse r => set_handlerResponse r c2
            | _ => c2
            end = c2) as ->.
    { destruct v; try reflexivity. discriminate Hfalsy. }
    rewrite Hfalsy. cbn [negb andb].
    destruct (Nat.ltb (index c2) (length mws)).
    + apply catch_next_answers. apply IH. exact Hc2.
    + apply tail; auto.
  - cbn [truthy negb andb turnHandlerResultIntoResponse].
    apply catch_next_answers. intros o c' E. injection E as <- <-.
    exists r. split; [reflexivity|]. split; [exact Hr|].
    apply G_response; assumption.
Qed.
End PassesFrom.



(** ** [handle] resolves *)

Lemma runErrorHandlers_loop_never_throws (err : jsval) (request : Request)
    (handlers : list OnError) :
  Forall never_throws handlers ->
  forall i c, exists res c',
    runErrorHandlers_loop handlers i err request c = (Returned res, c').
Proof.
  induction 1 as [|handler handlers Hh _ IH]; intros i c; cbn; [eauto|].
  destruct (handler err request) as [r|v|v|e] eqn:E; eauto.
  exfalso. exact (Hh err request e E).
Qed.

Lemma getResForError_never_throws `{Serializer} (ehs : list OnError)
    (request : Request) (err : jsval) (c : Chain) :
  Forall never_throws ehs ->
  exists res c', getResForError ehs request err c = (Returned res, c').
Proof.
  intros Hehs.
  assert (exists res c', runErrorHandlers ehs err request c
                         = (Returned res, c')) as (res & c' & E).
  { unfold runErrorHandlers. destruct (Nat.eqb (length ehs) 0); [eauto|].
    apply runErrorHandlers_loop_never_throws. exact Hehs. }
  unfold getResForError. rewrite E.
  destruct err; destruct res; eauto.
Qed.

Lemma next_never_rejects `{Serializer} (mws : list MiddlewareHandler)
    (ehs : list OnError) (route : MatchResult) (request : Request)
    (state : loc) (path : string) :
  Forall never_throws ehs ->
  forall fuel c o c',
    next mws ehs route request state path fuel c = Some (o, c') ->
    exists r, o = Returned r.
Proof.
  intros Hehs. induction fuel as [|fuel IH]; intros c o c' E;
    [discriminate E|].
  cbn [next] in E. unfold catch_next in E.
  match type of E with
  | match ?attempt with _ => _ end = _ =>
      destruct attempt as [[[r|err] c1]|]; [| |discriminate E]
  end.
  - injection E as <- <-. eauto.
  - destruct (getResForError_never_throws ehs request err c1 Hehs)
      as (res & c2 & Eg).
    rewrite Eg in E. eapply IH. exact E.
Qed.



(** ** Default state *)

(** X20.  A value registered with [state(name, value)] is what every
    request finds under [name] in its own state: the state that [handle]
    makes for a request without a [state] option reads [value] at [name],
    and reads every other name as before the registration.  The
    registration writes into the default state object, which it
    presupposes, and adds no object to the store. *)
Theorem state_round_trip (name : string) (value : jsval) (app : Spiceflow)
    (h h' : heap) :
  state_ name value app h = Some h' ->
  let init := initial_state app None h' in
  heap_read init.1 init.2 [] name = Some (ReadValue value)
  /\ (forall key, key <> name ->
        heap_read init.1 init.2 [] key
        = heap_read (initial_state app None h).1 (initial_state app None h).2
            [] key)
  /\ length h' = length h
  /\ is_Some (h !! defaultState app).
Proof.
  intros E init. unfold state_, heap_write in E. cbn [resolve] in E.
  destruct (h !! defaultState app) as [o|] eqn:Ho; [|discriminate E].
  injection E as <-.
  assert (defaultState app < length h) as Hlt
    by (eapply lookup_lt_Some; exact Ho).
  unfold init, initial_state.
  split; [|split; [|split; [apply length_insert|eauto]]].
  - rewrite clone_read. unfold heap_read. cbn [resolve].
    rewrite list_lookup_insert_eq by exact Hlt.
    rewrite assoc_assoc_set, String.eqb_refl. reflexivity.
  - intros key Hne. rewrite !clone_read. unfold heap_read. cbn [resolve].
    rewrite list_lookup_insert_eq by exact Hlt.
    rewrite Ho, assoc_assoc_set.
    apply String.eqb_neq in Hne. rewrite Hne. reflexivity.
Qed.

Lemma state_round_trip_witness :
  let app := new_Spiceflow 0 None None in
  state_ "counter" (VNum 0%Z) app [[]] = Some [[("counter", SVal (VNum 0%Z))]]
  /\ heap_read
       (initial_state app None [[("counter", SVal (VNum 0%Z))]]).1
       (initial_state app None [[("counter", SVal (VNum 0%Z))]]).2
       [] "counter" = Some (ReadValue (VNum 0%Z)).
Proof.
  intros app. split; [reflexivity|].
  exact (proj1 (state_round_trip "counter" (VNum 0%Z) app [[]]
                  [[("counter", SVal (VNum 0%Z))]] eq_refl)).
Defined.

(** ** Errors answered by an error handler *)

Lemma runErrorHandlers_loop_answer (err : jsval) (request : Request)
    (quiets : list OnError) (handler : OnError) (rest : list OnError)
    (r0 : Response) :
  Forall (quiet err request) quiets ->
  handler err request = EHResponse r0 ->
  forall i c,
    runErrorHandlers_loop (quiets ++ handler :: rest) i err request c
    = (Returned (Some r0),
       add_events (map EvErrorHandler (seq i (S (length quiets)))) c).
Proof.
  intros Hq Hh. induction Hq as [|q quiets [v Hv] _ IH]; intros i c.
  - cbn. rewrite Hh, log_add_events. reflexivity.
  - cbn [app runErrorHandlers_loop].
    destruct Hv as [-> | ->]; rewrite IH, log_add_events, add_events_app;
      reflexivity.
Qed.

Section HandledError.
Context `{Serializer}.
Variable route : MatchResult.
Variable request : Request.
Variable state : loc.
Variable path : string.
Variable err : jsval.
Variable quiets : list OnError.
Variable handler : OnError.
Variable rest : list OnError.
Variable r0 : Response.

Hypothesis query_ok : accepts (validateQuery (m_route route)).
Hypothesis params_ok : accepts (validateParams (m_route route)).
Hypothesis throws : forall ctx, route_handler (m_route route) ctx = Throw err.
Hypothesis not_response : isResponse err = false.
Hypothesis quiet_before : Forall (quiet err request) quiets.
Hypothesis answers : handler err request = EHResponse r0.

Local Abbreviation R := (fun r : Response => r = r0).
Local Abbreviation G := (handled R state (length quiets)).

Lemma handled_write (c : Chain) (key : string) (v : jsval) (o : sobject) :
  G c -> c_heap c !! state = Some o ->
  G (set_heap (<[state := assoc_set key (SVal v) o]> (c_heap c)) c).
Proof.
  intros (H1 & H2) Ho. unfold handled; chain_simpl. split; [|exact H2].
  rewrite list_lookup_insert_eq by (eapply lookup_lt_Some; exact Ho). eauto.
Qed.

Lemma handled_middleware (c : Chain) :
  G c -> G (log (EvMiddleware (index c)) (set_index (S (index c)) c)).
Proof.
  intros (H1 & H2 & H3 & H4 & H5). unfold handled; chain_simpl.
  rewrite console_errors_app, error_handler_calls_app, handler_calls_app.
  cbn. rewrite !app_nil_r, Nat.add_0_r. auto.
Qed.

Lemma handled_response (c : Chain) (r : Response) :
  G c -> R r -> G (set_handlerResponse r c).
Proof.
  intros (H1 & H2 & H3 & H4 & H5) Hr. unfold handled; chain_simpl.
  split; [exact H1|]. split; [intros r' [= <-]; exact Hr|].
  split; [exact H3|]. split; [exact H4|discriminate].
Qed.

Lemma handled_tail
    (retry : Chain -> option (completion Response * Chain)) (c : Chain) :
  (forall c1, G c1 -> answers_with R G (retry c1)) ->
  G c ->
  answers_with R G
    (catch_next (quiets ++ handler :: rest) request retry
       (next_handler route request state path c)).
Proof.
  intros Hretry (H1 & H2 & H3 & H4 & H5) o c' E. unfold next_handler in E.
  destruct (handlerResponse c) as [r|] eqn:Hr.
  - cbn [catch_next] in E. injection E as <- <-.
    exists r. split; [reflexivity|]. split; [auto|].
    unfold handled. rewrite Hr. auto.
  - destruct (query_ok (c_query c)) as [q Hq]. rewrite Hq in E.
    destruct (params_ok (c_params (set_query q c))) as [ps Hps].
    rewrite Hps, throws in E. cbn [run catch_next] in E.
    assert (forall c0,
              getResForError (quiets ++ handler :: rest) request err c0
              = (Returned r0,
                 add_events
                   (map EvErrorHandler (seq 0 (S (length quiets)))) c0))
      as Eg.
    { intros c0. unfold getResForError, runErrorHandlers.
      replace (Nat.eqb (length (quiets ++ handler :: rest)) 0) with false
        by (rewrite length_app; cbn [length]; symmetry; apply Nat.eqb_neq;
            lia).
      rewrite (runErrorHandlers_loop_answer err request quiets handler rest
                 r0 quiet_before answers).
      destruct err; try discriminate not_response; reflexivity. }
    rewrite Eg in E. eapply Hretry; [|exact E].
    unfold handled; chain_simpl.
    rewrite !console_errors_app, !error_handler_calls_app, !handler_calls_app.
    rewrite (H5 eq_refl) in *. rewrite H3, H4.
    assert (forall l, console_errors (map EvErrorHandler l) = []
                      /\ error_handler_calls (map EvErrorHandler l) = l
                      /\ handler_calls (map EvErrorHandler l) = 0)
      as Hmap.
    { induction l as [|i l (IH1 & IH2 & IH3)]; [auto|].
      split; [exact IH1|]. split; [|exact IH3].
      change (error_handler_calls (map EvErrorHandler (i :: l)))
        with (i :: error_handler_calls (map EvErrorHandler l)).
      rewrite IH2. reflexivity. }
    destruct (Hmap (seq 0 (S (length quiets)))) as (-> & -> & ->).
    split; [exact H1|]. split; [intros r' [= <-]; reflexivity|].
    split; [reflexivity|]. split; [reflexivity|discriminate].
Qed.
End HandledError.

(** X21.  An error answered by an error handler: when the route handler
    throws [err], the error handlers in scope are called in order until one
    returns a [Response] at once; that response is what [handle] returns,
    the handlers behind it are not called, and nothing is logged.  (The
    validators of the route report no issue and the middlewares neither
    short-circuit nor alter the response.) *)
Theorem onError_response_returned `{Serializer} (this : Spiceflow)
    (request : Request) (customState : option loc) (h : heap) (err : jsval)
    (quiets : list OnError) (handler : OnError) (rest : list OnError)
    (r0 : Response) :
  let route := match_ this (req_method request)
                 (req_pathname request +:+ req_search request) in
  let scope := getAppsInScope this (Some (m_app route)) in
  let mws := flat_map middlewares scope in
  let init := initial_state (m_app route) customState h in
  (forall ctx, route_handler (m_route route) ctx = Throw err) ->
  isResponse err = false ->
  flat_map onErrorHandlers scope = quiets ++ handler :: rest ->
  Forall (quiet err request) quiets ->
  handler err request = EHResponse r0 ->
  accepts (validateQuery (m_route route)) ->
  accepts (validateParams (m_route route)) ->
  Forall (fun m => forall ctx, continues (m ctx)) mws ->
  Forall (fun m => forall ctx, passes (fun r => r = r0) (m ctx)) mws ->
  is_Some (init.1 !! init.2) ->
  exists c,
    handle this request customState h = Some (Returned r0, c)
    /\ calls (trace c) = map EvMiddleware (seq 0 (length mws)) ++ [EvHandler]
    /\ error_handler_calls (trace c) = seq 0 (S (length quiets))
    /\ console_errors (trace c) = [].
Proof.
  intros route scope mws init Hh Herr Hehs Hquiet Hans Hq Hp Hcont Hpass
    Hstate.
  destruct (handle_returns this request customState h) as (o & c & E).
  pose proof E as E1. unfold handle in E1. fold route scope mws in E1.
  change (initial_state (m_app route) customState h) with init in E1.
  rewrite Hehs in E1. pose proof E1 as E2.
  eapply (next_passes mws _ route request init.2 _ (fun r => r = r0)
            (handled (fun r => r = r0) init.2 (length quiets))) in E1.
  - destruct E1 as (r & -> & -> & (_ & _ & Hc & He & _)).
    destruct (Hq (parseQuery (req_searchParams request))) as [q' Hq'].
    destruct (Hp (m_params route)) as [p' Hp'].
    eapply (next_calls_all mws _ route request init.2 _ _ _ q' p'
              Hcont Hq' Hp') in E2.
    + destruct E2 as [[Hcalls _] _].
      exists c. split; [exact E|]. split; [exact Hcalls|].
      split; [|exact Hc].
      rewrite He, (handler_calls_of_calls _ _ Hcalls). reflexivity.
    + unfold before_handler; chain_simpl.
      split; [lia|]. repeat (split; [reflexivity|]). exact Hstate.
  - exact Hpass.
  - intros c0 Hc0. apply Hc0.
  - intros. apply handled_write; assumption.
  - intros. apply handled_middleware; assumption.
  - intros. apply handled_response; assumption.
  - intros retry c0 Hretry Hc0. eapply handled_tail; eassumption.
  - unfold handled; chain_simpl. split; [exact Hstate|].
    split; [discriminate|]. repeat split; reflexivity.
Qed.

Lemma onError_response_returned_witness :
  let err := VError "boom" [] in
  let r0 := new_Response (BodyText "handled") (Some (VNum 400%Z)) [] in
  let app := onError (fun _ _ => EHResponse teapot)
               (onError (fun _ _ => EHResponse r0)
                  (onError (fun _ _ => EHPromise VUndefined)
                     (get "/x" (fun _ => Throw err) no_hook
                        (use await_next (new_Spiceflow 0 None None))))) in
  let request := get_request "/x" in
  exists c,
    handle (H := example_serialize) app request None [[]]
    = Some (Returned r0, c)
    /\ calls (trace c) = [EvMiddleware 0; EvHandler]
    /\ error_handler_calls (trace c) = [0; 1].
Proof.
  intros err r0 app request.
  assert (Forall (quiet err request) [fun _ _ => EHPromise VUndefined]) as H1.
  { constructor; [|constructor]. exists VUndefined. left. reflexivity. }
  assert (Forall (fun m => forall ctx, continues (m ctx)) [await_next]) as H2.
  { repeat constructor. }
  assert (Forall (fun m => forall ctx, passes (fun r => r = r0) (m ctx))
            [await_next]) as H3.
  { constructor; [|constructor]. intros ctx.
    apply passes_next. intros r _. apply passes_return. reflexivity. }
  destruct (onError_response_returned (H := example_serialize) app request
              None [[]] err [fun _ _ => EHPromise VUndefined]
              (fun _ _ => EHResponse r0) [fun _ _ => EHResponse teapot] r0
              (fun _ => eq_refl) eq_refl eq_refl H1 eq_refl
              (fun value => ex_intro _ value eq_refl)
              (fun value => ex_intro _ value eq_refl)
              H2 H3 (ex_intro _ [] eq_refl))
    as (c & E & Hc & He & _).
  exists c. split; [exact E|]. split; [exact Hc|exact He].
Defined.

(** ** Validated input *)

Section ValidatedInput.
Context `{Serializer}.
Variable ehs : list OnError.
Variable route : MatchResult.
Variable request : Request.
Variable state : loc.
Variable path : string.
Variables query params query' params' : jsval.
Variable g : jsval -> jsval -> jsval.
Variable r0 : Response.

Hypothesis query_valid :
  runValidation query (validateQuery (m_route route)) = Returned query'.
Hypothesis params_valid :
  runValidation params (validateParams (m_route route)) = Returned params'.
Hypothesis echoes : forall ctx,
  route_handler (m_route route) ctx
  = Return (g (ctx_query ctx) (ctx_params ctx)).
Hypothesis converts : convert (g query' params') (m_route route) = Returned r0.

Local Abbreviation R := (fun r : Response => r = r0).
Local Abbreviation G := (fresh_input R state query params).

Lemma fresh_input_write (c : Chain) (key : string) (v : jsval)
    (o : sobject) :
  G c -> c_heap c !! state = Some o ->
  G (set_heap (<[state := assoc_set key (SVal v) o]> (c_heap c)) c).
Proof.
  intros (H1 & H2) Ho. unfold fresh_input; chain_simpl. split; [|exact H2].
  rewrite list_lookup_insert_eq by (eapply lookup_lt_Some; exact Ho). eauto.
Qed.

Lemma fresh_input_middleware (c : Chain) :
  G c -> G (log (EvMiddleware (index c)) (set_index (S (index c)) c)).
Proof.
  intros (H1 & H2 & H3 & H4). unfold fresh_input; chain_simpl.
  split; [exact H1|]. split; [exact H2|]. split; [exact H3|].
  apply Forall_app. split; [exact H4|]. constructor; [reflexivity|constructor].
Qed.

Lemma fresh_input_response (c : Chain) (r : Response) :
  G c -> R r -> G (set_handlerResponse r c).
Proof.
  intros (H1 & H2 & H3 & H4) Hr. unfold fresh_input; chain_simpl.
  split; [exact H1|]. split; [intros r' [= <-]; exact Hr|].
  split; [discriminate|exact H4].
Qed.

Lemma validated_tail
    (retry : Chain -> option (completion Response * Chain)) (c : Chain) :
  G c ->
  answers_with R G
    (catch_next ehs request retry (next_handler route request state path c)).
Proof.
  intros (H1 & H2 & H3 & H4) o c' E. unfold next_handler in E.
  destruct (handlerResponse c) as [r|] eqn:Hr.
  - cbn [catch_next] in E. injection E as <- <-.
    exists r. split; [reflexivity|]. split; [auto|].
    unfold fresh_input. rewrite Hr. auto.
  - destruct (H3 eq_refl) as [Eq Ep].
    rewrite Eq, query_valid in E. cbn [c_params set_query] in E.
    rewrite Ep, params_valid, echoes in E.
    cbn [run context_of ctx_query ctx_params c_query c_params log set_params
         set_query] in E.
    change (if isAsyncIterable (g query' params')
            then handleStream (g query' params')
            else turnHandlerResultIntoResponse (g query' params')
                   (m_route route))
      with (convert (g query' params') (m_route route)) in E.
    rewrite converts in E. cbn [catch_next] in E. injection E as <- <-.
    exists r0. split; [reflexivity|]. split; [reflexivity|].
    unfold fresh_input; chain_simpl. split; [exact H1|].
    split; [intros r' [= <-]; reflexivity|]. split; [discriminate|].
    apply Forall_app. split; [exact H4|].
    constructor; [reflexivity|constructor].
Qed.
End ValidatedInput.



(** ** Middlewares behind a middleware that answered *)

Lemma next_unfold `{Serializer} (mws : list MiddlewareHandler)
    (ehs : list OnError) (route : MatchResult) (request : Request)
    (state : loc) (path : string) (fuel : nat) (c : Chain) :
  next mws ehs route request state path (S fuel) c
  = catch_next ehs request (next mws ehs route request state path fuel)
      match mws !! index c with
      | Some middleware =>
          let c := log (EvMiddleware (index c)) (set_index (S (index c)) c) in
          match run route request state
                  (next mws ehs route request state path fuel)
                  (middleware (context_of request state path c)) c with
          | None => None
          | Some (Threw e, c) => Some (Threw e, c)
          | Some (Returned result, c) =>
              let c :=
                match result with
                | VResponse r => set_handlerResponse r c
                | _ => c
                end in
              if negb (truthy result) && Nat.ltb (index c) (length mws)
              then next mws ehs route request state path fuel c
              else if truthy result
              then Some (turnHandlerResultIntoResponse result (m_route route),
                         c)
              else next_handler route request state path c
          end
      | None => next_handler route request state path c
      end.
Proof. reflexivity. Qed.

Section Skipping.
Context `{Serializer}.
Variable mws : list MiddlewareHandler.
Variable ehs : list OnError.
Variable route : MatchResult.
Variable request : Request.
Variable state : loc.
Variable path : string.
Variable r0 : Response.
Variable n : nat.

Hypothesis later_continue : forall i m,
  n <= i -> mws !! i = Some m -> forall ctx, continues (m ctx).
Hypothesis later_pass : forall i m,
  n <= i -> mws !! i = Some m ->
  forall ctx, passes (fun r => r = r0) (m ctx).

Local Abbreviation R := (fun r : Response => r = r0).
Local Abbreviation skip := (skipping mws state r0 n).
Local Abbreviation all_done :=
  (fun c : Chain => skip c /\ index c = length mws).
Local Abbreviation next_ := (next mws ehs route request state path).

Lemma skipping_write (c : Chain) (key : string) (v : jsval) (o : sobject) :
  all_done c -> c_heap c !! state = Some o ->
  all_done (set_heap (<[state := assoc_set key (SVal v) o]> (c_heap c)) c).
Proof.
  intros [(H1 & H2 & H3 & H4 & H5) H6] Ho. unfold skipping; chain_simpl.
  repeat (split; [assumption|]). split; [|exact H6].
  rewrite list_lookup_insert_eq by (eapply lookup_lt_Some; exact Ho). eauto.
Qed.

(** A later middleware, run from a chain that holds the response: it
    returns a falsy value, or the response after a call to [next()] that
    has run the chain to its end. *)
Lemma run_skips (nxt : Chain -> option (completion Response * Chain))
    (p : prog) :
  continues p -> passes R p ->
  (forall c o c', skip c -> nxt c = Some (o, c') ->
                  o = Returned r0 /\ all_done c') ->
  forall c o c',
    skip c -> run route request state nxt p c = Some (o, c') ->
    exists v,
      o = Returned v /\ skip c'
      /\ (truthy v = false \/ (v = VResponse r0 /\ index c' = length mws)).
Proof.
  intros Hcont. induction Hcont as [v Hv|k Hk|key v k _ IH|key k _ IH];
    intros Hpass Hnxt c o c' Hc E; cbn [run] in E.
  - injection E as <- <-. exists v. auto.
  - inversion Hpass as [| |k' Hk'| |]; subst.
    destruct (nxt c) as [[o1 c1]|] eqn:En; [|discriminate E].
    destruct (Hnxt c o1 c1 Hc En) as [-> Hc1].
    assert (forall c0, all_done c0 -> answers_with R all_done (nxt c0))
      as Hnxt'.
    { intros c0 Hc0 o0 c0' E0.
      destruct (Hnxt c0 o0 c0' (proj1 Hc0) E0) as [-> Hc0'].
      exists r0. auto. }
    destruct (run_passes route request state R all_done
                (fun c0 Hc0 => proj2 (proj2 (proj2 (proj2 (proj1 Hc0)))))
                skipping_write nxt (k r0) (Hk' r0 eq_refl) Hnxt' c1 o c'
                Hc1 E) as (v & -> & Hc' & Hv).
    exists v. split; [reflexivity|]. split; [apply Hc'|].
    destruct Hv as [Hv|(r & -> & ->)]; [left; exact Hv|].
    right. split; [reflexivity|apply Hc'].
  - inversion Hpass as [| | |key' v' k' Hk'|]; subst.
    destruct Hc as (H1 & H2 & H3 & H4 & [o0 H5]).
    unfold heap_write in E. cbn [resolve] in E. rewrite H5 in E.
    eapply IH; [exact Hk'|exact Hnxt| |exact E].
    unfold skipping; chain_simpl. repeat (split; [assumption|]).
    rewrite list_lookup_insert_eq by (eapply lookup_lt_Some; exact H5).
    eauto.
  - inversion Hpass as [| | | |key' k' Hk']; subst.
    pose proof Hc as (H1 & H2 & H3 & H4 & [o0 H5]).
    unfold heap_read in E. cbn [resolve] in E. rewrite H5 in E.
    eapply IH; [apply Hk'|exact Hnxt|exact Hc|exact E].
Qed.

(** From a chain that holds a response, [next] calls the middlewares that
    are left, does not call the route handler, and returns the response. *)
Lemma next_skips (fuel : nat) :
  forall c o c',
    skip c -> next_ fuel c = Some (o, c') -> o = Returned r0 /\ all_done c'.
Proof.
  induction fuel as [|fuel IH]; intros c o c' Hc E; [discriminate E|].
  rewrite next_unfold in E.
  assert (forall attempt,
            (forall o1 c1, attempt = Some (o1, c1) ->
                           o1 = Returned r0 /\ all_done c1) ->
            catch_next ehs request (next_ fuel) attempt = Some (o, c') ->
            o = Returned r0 /\ all_done c') as Hcatch.
  { intros attempt Ha Ec. destruct attempt as [[o1 c1]|]; [|discriminate Ec].
    destruct (Ha o1 c1 eq_refl) as [-> Hc1]. cbn [catch_next] in Ec.
    injection Ec as <- <-. auto. }
  eapply Hcatch; [|exact E]. clear E Hcatch.
  intros o1 c1 E1.
  assert (forall c0 o0 c0',
            skip c0 -> index c0 = length mws ->
            next_handler route request state path c0 = Some (o0, c0') ->
            o0 = Returned r0 /\ all_done c0') as Hstored.
  { intros c0 o0 c0' Hc0 Hi E0. unfold next_handler in E0.
    rewrite (proj1 Hc0) in E0. injection E0 as <- <-. auto. }
  destruct Hc as (H1 & H2 & H3 & H4 & H5).
  destruct (mws !! index c) as [middleware|] eqn:Hm.
  2:{ apply (Hstored c); [unfold skipping; auto| |exact E1].
      apply lookup_ge_None in Hm. lia. }
  cbv zeta in E1.
  set (c2 := log (EvMiddleware (index c)) (set_index (S (index c)) c)) in E1.
  assert (skip c2) as Hc2.
  { apply lookup_lt_Some in Hm as Hlt. unfold skipping, c2; chain_simpl.
    split; [exact H1|]. split; [|split; [lia|split; [lia|exact H5]]].
    rewrite calls_app, H2, seq_S, map_app. reflexivity. }
  destruct (run route request state (next_ fuel)
              (middleware (context_of request state path c2)) c2)
    as [[o3 c3]|] eqn:Er; [|discriminate E1].
  destruct (run_skips (next_ fuel) _
              (later_continue _ _ H3 Hm _) (later_pass _ _ H3 Hm _)
              IH c2 o3 c3 Hc2 Er) as (v & -> & Hc3 & Hv).
  assert (match v with
          | VResponse r => set_handlerResponse r c3
          | _ => c3
          end = c3) as Ec3.
  { destruct Hv as [Hv|[-> _]].
    - destruct v; try reflexivity. discriminate Hv.
    - destruct c3 as [i hr hp bu q ps t]. destruct Hc3 as (Hr & _).
      cbn in Hr. rewrite Hr. reflexivity. }
  rewrite Ec3 in E1.
  destruct Hv as [Hv|[-> Hi]].
  - rewrite Hv in E1. cbn [negb andb] in E1.
    destruct (Nat.ltb (index c3) (length mws)) eqn:Hlt.
    + exact (IH c3 o1 c1 Hc3 E1).
    + apply (Hstored c3); [exact Hc3| |exact E1].
      apply Nat.ltb_ge in Hlt. destruct Hc3 as (_ & _ & _ & Hle & _). lia.
  - cbn [truthy negb andb turnHandlerResultIntoResponse] in E1.
    injection E1 as <- <-. auto.
Qed.
End Skipping.

(** X23.  A response returned by a middleware does not always stop the
    middlewares behind it: when the first middleware awaits [next()] and
    returns nothing, and the second one returns a [Response], [next]
    resumes behind the second one, so that every later middleware is still
    called; only the route handler is skipped, and [handle] returns the
    response of the second middleware.  (The later middlewares neither
    short-circuit nor alter the response.) *)
Theorem chain_resumes_after_answer `{Serializer} (this : Spiceflow)
    (request : Request) (customState : option loc) (h : heap)
    (wrap b : MiddlewareHandler) (post : list MiddlewareHandler)
    (w : jsval) (r0 : Response) :
  let route := match_ this (req_method request)
                 (req_pathname request +:+ req_search request) in
  let scope := getAppsInScope this (Some (m_app route)) in
  let init := initial_state (m_app route) customState h in
  flat_map middlewares scope = wrap :: b :: post ->
  (forall ctx, wrap ctx = AwaitNext (fun _ => Return w)) ->
  truthy w = false ->
  (forall ctx, b ctx = Return (VResponse r0)) ->
  Forall (fun m => forall ctx, continues (m ctx)) post ->
  Forall (fun m => forall ctx, passes (fun r => r = r0) (m ctx)) post ->
  is_Some (init.1 !! init.2) ->
  exists c,
    handle this request customState h = Some (Returned r0, c)
    /\ calls (trace c)
       = map EvMiddleware (seq 0 (length (wrap :: b :: post)))
    /\ handler_calls (trace c) = 0.
Proof.
  intros route scope init Hmws Hwrap Hw Hb Hcont Hpass Hstate.
  destruct (handle_returns this request customState h) as (o & c & E).
  pose proof E as E1. unfold handle in E1. fold route scope in E1.
  change (initial_state (m_app route) customState h) with init in E1.
  rewrite Hmws in E1.
  change (length (wrap :: b :: post) + 2)
    with (S (S (length post + 2))) in E1.
  rewrite next_unfold in E1.
  cbn [index lookup list_lookup] in E1. cbv zeta in E1.
  rewrite Hwrap in E1. cbn [run] in E1.
  rewrite next_unfold in E1.
  cbn [index lookup list_lookup log set_index] in E1. cbv zeta in E1.
  rewrite Hb in E1.
  cbn [run truthy negb andb turnHandlerResultIntoResponse catch_next] in E1.
  set (c2 := set_handlerResponse r0 _) in E1.
  replace (match w with
           | VResponse r => set_handlerResponse r c2
           | _ => c2
           end) with c2 in E1
    by (destruct w; try reflexivity; discriminate Hw).
  rewrite Hw in E1. cbn [negb andb] in E1.
  assert (skipping (wrap :: b :: post) init.2 r0 2 c2) as Hc2.
  { unfold skipping, c2; chain_simpl.
    split; [reflexivity|]. split; [reflexivity|].
    split; [lia|]. split; [cbn [length]; lia|exact Hstate]. }
  assert (forall i m,
            2 <= i -> (wrap :: b :: post) !! i = Some m -> m ∈ post) as Hin.
  { intros i m Hi Hl. destruct i as [|[|i]]; [lia|lia|].
    cbn in Hl. apply list_elem_of_lookup. eauto. }
  assert (o = Returned r0
          /\ skipping (wrap :: b :: post) init.2 r0 2 c
          /\ index c = length (wrap :: b :: post)) as (-> & Hc & Hi).
  { destruct (Nat.ltb (index c2) (length (wrap :: b :: post))) eqn:Hlt.
    - destruct (next (wrap :: b :: post) _ route request init.2 _
                  (S (length post + 2)) c2) as [[o' c']|] eqn:En;
        [|discriminate E1].
      eapply next_skips in En; [| | |exact Hc2].
      + destruct En as [-> [Hc' Hi']]. cbn [catch_next] in E1.
        injection E1 as <- <-. auto.
      + intros i m Hi Hl. rewrite Forall_forall in Hcont.
        apply Hcont. eapply Hin; eassumption.
      + intros i m Hi Hl. rewrite Forall_forall in Hpass.
        apply Hpass. eapply Hin; eassumption.
    - unfold next_handler in E1. rewrite (proj1 Hc2) in E1.
      cbn [catch_next] in E1. injection E1 as <- <-.
      split; [reflexivity|]. split; [exact Hc2|].
      apply Nat.ltb_ge in Hlt.
      destruct Hc2 as (_ & _ & _ & Hle & _). lia. }
  exists c. split; [exact E|].
  destruct Hc as (_ & Hcalls & _). rewrite Hi in Hcalls.
  split; [exact Hcalls|].
  unfold handler_calls. rewrite <- (filter_filter_sub _ is_call).
  - fold (calls (trace c)). rewrite Hcalls. clear Hcalls.
    induction (seq 0 (length (wrap :: b :: post))) as [|i l IH];
      [reflexivity|exact IH].
  - intros [] Hx; try discriminate Hx; reflexivity.
Qed.

Lemma chain_resumes_after_answer_witness :
  let r0 := new_Response (BodyText "ok") None [] in
  let app := get "/x" (say "hi") no_hook
               (use await_next
                  (use (fun _ => Return (VResponse r0))
                     (use await_next (new_Spiceflow 0 None None)))) in
  let request := get_request "/x" in
  exists c,
    handle (H := example_serialize) app request None [[]]
    = Some (Returned r0, c)
    /\ calls (trace c) = [EvMiddleware 0; EvMiddleware 1; EvMiddleware 2].
Proof.
  intros r0 app request.
  assert (Forall (fun m => forall ctx, continues (m ctx)) [await_next]) as H1.
  { repeat constructor. }
  assert (Forall (fun m => forall ctx, passes (fun r => r = r0) (m ctx))
            [await_next]) as H2.
  { constructor; [|constructor]. intros ctx.
    apply passes_next. intros r _. apply passes_return. reflexivity. }
  destruct (chain_resumes_after_answer (H := example_serialize) app request
              None [[]] await_next (fun _ => Return (VResponse r0))
              [await_next] VUndefined r0 eq_refl (fun _ => eq_refl) eq_refl
              (fun _ => eq_refl) H1 H2 (ex_intro _ [] eq_refl))
    as (c & E & Hc & _).
  exists c. split; [exact E|exact Hc].
Defined.

(** ** The body of the request *)

Section BodyRead.
Context `{Serializer}.
Variable ehs : list OnError.
Variable route : MatchResult.
Variable request : Request.
Variable state : loc.
Variable path : string.
Variable body : jsval.
Variable g : jsval -> jsval.
Variable R : Response -> Prop.

Hypothesis query_ok : accepts (validateQuery (m_route route)).
Hypothesis params_ok : accepts (validateParams (m_route route)).
Hypothesis parses : req_json request = inl body.
Hypothesis reads : forall ctx,
  route_handler (m_route route) ctx = RequestJson (fun v => Return (g v)).

Local Abbreviation G := (body_unread R state).

Lemma body_unread_write (c : Chain) (key : string) (v : jsval)
    (o : sobject) :
  G c -> c_heap c !! state = Some o ->
  G (set_heap (<[state := assoc_set key (SVal v) o]> (c_heap c)) c).
Proof.
  intros (H1 & H2) Ho. unfold body_unread; chain_simpl. split; [|exact H2].
  rewrite list_lookup_insert_eq by (eapply lookup_lt_Some; exact Ho). eauto.
Qed.

Lemma body_unread_middleware (c : Chain) :
  G c -> G (log (EvMiddleware (index c)) (set_index (S (index c)) c)).
Proof.
  intros (H1 & H2 & H3 & H4 & H5). unfold body_unread; chain_simpl.
  rewrite handler_calls_app. cbn. rewrite Nat.add_0_r. auto.
Qed.

Lemma body_unread_response (c : Chain) (r : Response) :
  G c -> R r -> G (set_handlerResponse r c).
Proof.
  intros (H1 & H2 & H3 & H4 & H5) Hr. unfold body_unread; chain_simpl.
  split; [exact H1|]. split; [intros r' [= <-]; exact Hr|].
  split; [discriminate|]. split; [discriminate|exact H5].
Qed.

(** The handler reads a body that passes the schema. *)
Lemma valid_body_tail (value : jsval) (r0 : Response)
    (retry : Chain -> option (completion Response * Chain)) (c : Chain) :
  runValidation body (validateBody (m_route route)) = Returned value ->
  convert (g value) (m_route route) = Returned r0 ->
  R r0 ->
  G c ->
  exists r c',
    catch_next ehs request retry (next_handler route request state path c)
    = Some (Returned r, c')
    /\ R r /\ G c'.
Proof.
  intros Hv Hconv Hr0 (H1 & H2 & H3 & H4 & H5). unfold next_handler.
  destruct (handlerResponse c) as [r|] eqn:Hr.
  - cbn [catch_next]. exists r, c. split; [reflexivity|]. split; [auto|].
    unfold body_unread. rewrite Hr. auto.
  - destruct (query_ok (c_query c)) as [q Hq]. rewrite Hq.
    destruct (params_ok (c_params (set_query q c))) as [ps Hps].
    rewrite Hps, reads. cbn [run]. unfold request_json.
    cbn [bodyUsed log set_params set_query]. rewrite (H3 eq_refl), parses, Hv.
    cbn [run].
    change (if isAsyncIterable (g value) then handleStream (g value)
            else turnHandlerResultIntoResponse (g value) (m_route route))
      with (convert (g value) (m_route route)).
    rewrite Hconv. cbn [catch_next]. eexists _, _. split; [reflexivity|].
    split; [exact Hr0|].
    unfold body_unread; chain_simpl. split; [exact H1|].
    split; [intros r' [= <-]; exact Hr0|]. split; [discriminate|].
    split; [discriminate|].
    rewrite handler_calls_app, (H4 eq_refl). cbn. lia.
Qed.
End BodyRead.

(** X24.  The body is validated when it is read: a route handler that
    reads [request.json()] gets what the body schema of the route returns
    for the parsed body; when the schema reports issues, the read throws
    the [ValidationError], and with no error handler that answers at once or
    throws, [handle] returns status 422 with the default error body.
    (The validators of query and params report no issue and the
    middlewares let the response through.) *)
Theorem body_validated_on_read `{Serializer} (this : Spiceflow)
    (request : Request) (customState : option loc) (h : heap) (body : jsval)
    (g : jsval -> jsval) :
  let route := match_ this (req_method request)
                 (req_pathname request +:+ req_search request) in
  let scope := getAppsInScope this (Some (m_app route)) in
  let init := initial_state (m_app route) customState h in
  req_json request = inl body ->
  (forall ctx,
     route_handler (m_route route) ctx = RequestJson (fun v => Return (g v))) ->
  accepts (validateQuery (m_route route)) ->
  accepts (validateParams (m_route route)) ->
  is_Some (init.1 !! init.2) ->
  (forall value r0,
     runValidation body (validateBody (m_route route)) = Returned value ->
     convert (g value) (m_route route) = Returned r0 ->
     Forall (fun m => forall ctx, passes (fun r => r = r0) (m ctx))
       (flat_map middlewares scope) ->
     exists c, handle this request customState h = Some (Returned r0, c))
  /\ (forall validate issue issues,
        validateBody (m_route route) = Some validate ->
        vr_issues (validate body) = Some (issue :: issues) ->
        let err := ValidationError (validation_message (issue :: issues)) in
        Forall (quiet err request) (flat_map onErrorHandlers scope) ->
        Forall (fun m => forall ctx,
                  passes (fun r => r = default_error_response err) (m ctx))
          (flat_map middlewares scope) ->
        status (default_error_response err) = VNum 422%Z
        /\ exists c,
             handle this request customState h
             = Some (Returned (default_error_response err), c)).
Proof.
  intros route scope init Hbody Hh Hq Hp Hstate.
  assert (forall R : Response -> Prop,
            body_unread R init.2
              (mkChain 0 None init.1 false
                 (parseQuery (req_searchParams request)) (m_params route) []))
    as Hstart.
  { intros R. unfold body_unread; chain_simpl. split; [exact Hstate|].
    split; [discriminate|]. repeat split; auto. }
  split.
  - intros value r0 Hv Hconv Hmws.
    destruct (handle_returns this request customState h) as (o & c & E).
    pose proof E as E'. unfold handle in E'. fold route scope in E'.
    change (initial_state (m_app route) customState h) with init in E'.
    eapply (next_passes (flat_map middlewares scope) _ route request init.2
              _ (fun r => r = r0) (body_unread (fun r => r = r0) init.2))
      in E'.
    + destruct E' as (r & -> & -> & _). exists c. exact E.
    + exact Hmws.
    + intros c0 Hc0. apply Hc0.
    + intros. apply body_unread_write; assumption.
    + intros. apply body_unread_middleware; assumption.
    + intros. apply body_unread_response; assumption.
    + intros retry c0 _ Hc0 o' c' E0.
      destruct (valid_body_tail (flat_map onErrorHandlers scope) route
                  request init.2
                  (req_pathname request +:+ req_search request) body g
                  (fun r => r = r0) Hq Hp Hbody Hh value r0 retry c0 Hv Hconv
                  eq_refl Hc0) as (r & c1 & E1 & Hr & Hc1).
      rewrite E1 in E0. injection E0 as <- <-. exists r. auto.
    + apply Hstart.
  - intros validate issue issues Hval Hissues err Hehs Hmws.
    split.
    { unfold err, default_error_response, ValidationError. reflexivity. }
    destruct (handle_returns this request customState h) as (o & c & E).
    pose proof E as E'. unfold handle in E'. fold route scope in E'.
    change (initial_state (m_app route) customState h) with init in E'.
    eapply (next_passes (flat_map middlewares scope) _ route request init.2
              _ (fun r => r = default_error_response err)
              (body_unread (fun r => r = default_error_response err) init.2))
      in E'.
    + destruct E' as (r & -> & -> & _). exists c. exact E.
    + exact Hmws.
    + intros c0 Hc0. apply Hc0.
    + intros. apply body_unread_write; assumption.
    + intros. apply body_unread_middleware; assumption.
    + intros. apply body_unread_response; assumption.
    + intros retry c0 Hretry (H1 & H2 & H3 & H4 & H5) o' c' E0.
      unfold next_handler in E0.
      destruct (handlerResponse c0) as [r|] eqn:Hr.
      * cbn [catch_next] in E0. injection E0 as <- <-.
        exists r. split; [reflexivity|]. split; [auto|].
        unfold body_unread. rewrite Hr. auto.
      * destruct (Hq (c_query c0)) as [q Hq']. rewrite Hq' in E0.
        destruct (Hp (c_params (set_query q c0))) as [ps Hps].
        rewrite Hps, Hh in E0. cbn [run] in E0. unfold request_json in E0.
        cbn [bodyUsed log set_params set_query] in E0.
        rewrite (H3 eq_refl), Hbody, Hval in E0.
        rewrite (runValidation_issues _ _ _ _ Hissues) in E0.
        cbn [catch_next] in E0. fold err in E0.
        match type of E0 with
        | context [getResForError ?ehs ?rq ?e ?c1] =>
            destruct (getResForError_quiet ehs rq e c1 eq_refl Hehs)
              as (evs & Eg & Hevs)
        end.
        rewrite Eg in E0. eapply Hretry; [|exact E0].
        unfold body_unread; chain_simpl. split; [exact H1|].
        split; [intros r' [= <-]; reflexivity|]. split; [discriminate|].
        split; [discriminate|].
        rewrite !handler_calls_app, (H4 eq_refl), Hevs. cbn. lia.
    + apply Hstart.
Qed.

Lemma body_validated_on_read_witness :
  let name_is_string : ValidationFunction :=
    fun _ => mkResult (Some [mkIssue "Expected string" (Some ["name"])])
               None in
  let app := post "/mirror" (fun _ => RequestJson (fun v => Return v))
               (mkHook "" (Some name_is_string) None None)
               (new_Spiceflow 0 None None) in
  let body := VObject [("name", VNum 1%Z)] in
  let request := mkRequest "POST" "/mirror" "" [] (inl body) in
  let err := ValidationError "name: Expected string" in
  req_json request = inl body
  /\ status (default_error_response (H := example_serialize) err) = VNum 422%Z
  /\ exists c,
       handle (H := example_serialize) app request None [[]]
       = Some (Returned (default_error_response (H := example_serialize) err),
               c).
Proof.
  intros name_is_string app body request err.
  split; [reflexivity|].
  exact (proj2 (body_validated_on_read (H := example_serialize) app request
                  None [[]] body (fun v => v) eq_refl (fun _ => eq_refl)
                  (fun value => ex_intro _ value eq_refl)
                  (fun value => ex_intro _ value eq_refl)
                  (ex_intro _ [] eq_refl))
           name_is_string (mkIssue "Expected string" (Some ["name"])) []
           eq_refl eq_refl (List.Forall_nil _) (List.Forall_nil _)).
Defined.
